(** * graphql-upload: the multipart request engine [processRequest]

    A shallow embedding of [process-request.ts] and [type/upload.ts].
    The engine is a set of event handlers closing over five mutable
    variables ([released], [exitError], [operations], [operationsPath],
    [map]) and two promise capabilities.  Here the closure becomes an
    explicit [state] record, each handler a function [state -> state],
    and a request is a list of [event]s folded through [handle]. *)

From Stdlib Require Import ZArith String Ascii List Bool Lia.
From stdpp Require Import base option list strings pretty.
Import ListNotations.
Local Open Scope string_scope.
Local Open Scope list_scope.
Local Open Scope nat_scope.
Set Warnings "-register-all".

(** ** JSON values *)

(** The result of [JSON.parse].  Numbers are kept as integers: the engine
    only ever asks whether a value is a number and whether it is falsy. *)
Inductive json : Type :=
| JNull
| JBool (b : bool)
| JNum (n : Z)
| JStr (s : string)
| JArr (items : list json)
| JObj (members : list (string * json)).

(** The operations document once placeholders may have been written into
    it: a JSON value whose leaves may also be references to [Upload]
    instances (by address in the upload heap). *)
Inductive tree : Type :=
| TNull
| TBool (b : bool)
| TNum (n : Z)
| TStr (s : string)
| TArr (items : list tree)
| TObj (members : list (string * tree))
| TUpload (u : nat).

Fixpoint embed (j : json) : tree :=
  match j with
  | JNull => TNull
  | JBool b => TBool b
  | JNum n => TNum n
  | JStr s => TStr s
  | JArr items => TArr (List.map embed items)
  | JObj members => TObj (List.map (fun kv => (fst kv, embed (snd kv))) members)
  end.

(** [typeof v === "object"]: arrays and [null] have type [object]. *)
Definition json_typeof_object (j : json) : bool :=
  match j with
  | JNull | JArr _ | JObj _ => true
  | _ => false
  end.

(** JavaScript truthiness, as used by [!v]. *)
Definition json_truthy (j : json) : bool :=
  match j with
  | JNull => false
  | JBool b => b
  | JNum n => negb (n =? 0)%Z
  | JStr s => negb (String.eqb s EmptyString)
  | JArr _ | JObj _ => true
  end.

Definition json_isArray (j : json) : bool :=
  match j with JArr _ => true | _ => false end.

(** [Object.entries]; only ever applied to a plain object. The member
    list is kept in the order [Object.entries] yields. *)
Definition Object_entries (j : json) : list (string * json) :=
  match j with JObj members => members | _ => [] end.

Definition typeof_object (t : tree) : bool :=
  match t with
  | TNull | TArr _ | TObj _ | TUpload _ => true
  | _ => false
  end.

Definition truthy (t : tree) : bool :=
  match t with
  | TNull => false
  | TBool b => b
  | TNum n => negb (n =? 0)%Z
  | TStr s => negb (String.eqb s EmptyString)
  | TArr _ | TObj _ | TUpload _ => true
  end.

(** ** Errors *)

(** A numeric option: a byte or file count, or JavaScript's [Infinity]. *)
Inductive limit : Type :=
| Finite (n : N)
| Infinity.

(** [n > l] *)
Definition exceeds (n : nat) (l : limit) : bool :=
  match l with
  | Finite m => (m <? N.of_nat n)%N
  | Infinity => false
  end.

(** The message templates of the engine, with their interpolated values. *)
Inductive text : Type :=
| FieldTooLarge (fieldName : string) (maxFieldSize : limit)
| InvalidJsonOperations
| InvalidTypeOperations
| MisorderedMap
| InvalidJsonMap
| InvalidTypeMap
| MaxFilesExceeded (maxFiles : limit)
| InvalidMapEntryArray (fieldName : string)
| InvalidMapEntryValue (fieldName : string) (index : nat)
| InvalidMapEntryPath (fieldName : string) (index : nat) (path : string)
| MisorderedFiles
| FileTruncated (maxFileSize : limit)
| MissingOperations
| MissingMap
| FileMissing
| Disconnected
| SpoolClosed
| Other (description : string).

(** An [Error] object.  Errors raised by the tokenizer or by a file stream
    carry no HTTP status; those built by [createError] do. *)
Record Error : Type := mkError {
  status : option nat;
  message : text
}.

Definition createError (code : nat) (m : text) : Error :=
  {| status := Some code; message := m |}.

(** ** Promises and the [Upload] placeholder *)

Inductive Promise (A : Type) : Type :=
| Pending
| Fulfilled (a : A)
| Rejected (e : Error).
Arguments Pending {A}.
Arguments Fulfilled {A} a.
Arguments Rejected {A} e.

(** The resolve and reject capabilities of a promise: the first one to be
    called settles it, later calls change nothing. *)
Definition resolve_promise {A} (a : A) (p : Promise A) : Promise A :=
  match p with
  | Pending => Fulfilled a
  | _ => p
  end.

Definition reject_promise {A} (e : Error) (p : Promise A) : Promise A :=
  match p with
  | Pending => Rejected e
  | _ => p
  end.

Definition settled {A} (p : Promise A) : bool :=
  match p with Pending => false | _ => true end.

(** [class Upload]: the [file] property and the promise; a [FileUpload] is
    referred to by the index of its stream in the stream table. *)
Record Upload : Type := mkUpload {
  file : option nat;
  promise : Promise nat
}.

(** [new Upload()] *)
Definition new_Upload : Upload := {| file := None; promise := Pending |}.

(** [this.resolve = file => { this.file = file; resolve(file); }] *)
Definition Upload_resolve (f : nat) (u : Upload) : Upload :=
  {| file := Some f; promise := resolve_promise f (promise u) |}.

(** [this.reject = reject] *)
Definition Upload_reject (e : Error) (u : Upload) : Upload :=
  {| file := file u; promise := reject_promise e (promise u) |}.

(** ** File streams *)

(** What the file handler allocates for a mapped file part: the
    [FileUpload] metadata, the closure variable [fileError], and the state
    of the source stream and of the [capacitor] spool it is piped into. *)
Record FileUpload : Type := mkFileUpload {
  filename : string;
  mimetype : string;
  encoding : string;
  fileError : option Error;
  piped : bool;
  resumed : bool;
  capacitorDestroyed : option Error;
  capacitorReleased : bool
}.

(** A file part's stream is either handed to [ignoreStream] or spooled. *)
Inductive stream : Type :=
| Ignored
| Spooled (f : FileUpload).

(** ** The closure state of one [processRequest] call *)

Record ProcessRequestOptions : Type := mkOptions {
  maxFieldSize : limit;
  maxFileSize : limit;
  maxFiles : limit
}.

Definition default_options : ProcessRequestOptions :=
  {| maxFieldSize := Finite 1000000; maxFileSize := Infinity; maxFiles := Infinity |}.

(** The tokenizer, the request stream and the [once] listeners. *)
Record plumbing : Type := mkPlumbing {
  parserDestroyed : option (option Error);
  requestPiped : bool;
  requestResumed : bool;
  resumeScheduled : bool;
  filesLimitSeen : bool;
  finishSeen : bool;
  responseCloseSeen : bool;
  requestCloseSeen : bool
}.

Record state : Type := mkState {
  released : bool;
  exitError : option Error;
  (** every value [JSON.parse] returned for [operations], by address *)
  objects : list tree;
  operations : option nat;
  operationsPath : option nat;
  map : option (list (string * nat));
  (** every [Upload] instance created, by address *)
  uploads : list Upload;
  (** the stream of every file part, in order of arrival *)
  streams : list stream;
  (** the promise [processRequest] returned *)
  result : Promise nat;
  io : plumbing
}.

Definition initial_plumbing : plumbing :=
  {| parserDestroyed := None; requestPiped := true; requestResumed := false;
     resumeScheduled := false; filesLimitSeen := false; finishSeen := false;
     responseCloseSeen := false; requestCloseSeen := false |}.

Definition initial : state :=
  {| released := false; exitError := None; objects := []; operations := None;
     operationsPath := None; map := None; uploads := []; streams := [];
     result := Pending; io := initial_plumbing |}.

(** ** Setting a value at a path ([object-path]) *)

(** The engine writes placeholders through [objectPath(operations).set],
    a function of the library [object-path], which is not part of the
    repository.  It is modelled below from what the specification says of
    this collaborator: a path is a dotted string such as
    [variables.files.0], a segment that is the decimal spelling of a number
    indexes an array, and an invalid path (an index out of range, a
    traversal through something that is not a container) raises. *)

(** [path.split(".")] *)
Fixpoint split_path (path : string) : list string :=
  match path with
  | EmptyString => [EmptyString]
  | String c rest =>
      if Ascii.eqb c "."%char then EmptyString :: split_path rest
      else match split_path rest with
           | [] => [String c EmptyString]
           | seg :: segs => String c seg :: segs
           end
  end.

Definition digit_value (c : Ascii.ascii) : option nat :=
  let n := nat_of_ascii c in
  if ((48 <=? n)%nat && (n <=? 57)%nat)%bool then Some (n - 48)%nat else None.

(** The number spelled by the leading digits of a string. *)
Fixpoint leading_number (acc : nat) (s : string) : nat :=
  match s with
  | EmptyString => acc
  | String c rest =>
      match digit_value c with
      | Some d => leading_number (10 * acc + d)%nat rest
      | None => acc
      end
  end.

(** A segment is an index when printing the number it spells gives the
    segment back. *)
Definition array_index (seg : string) : option nat :=
  let n := leading_number 0 seg in
  if String.eqb (pretty n) seg then Some n else None.

Fixpoint assoc {A} (k : string) (l : list (string * A)) : option A :=
  match l with
  | [] => None
  | (k', v) :: rest => if String.eqb k k' then Some v else assoc k rest
  end.

(** Replace the value of a key in place, or append the key. *)
Fixpoint assoc_set {A} (k : string) (v : A) (l : list (string * A)) : list (string * A) :=
  match l with
  | [] => [(k, v)]
  | (k', v') :: rest =>
      if String.eqb k k' then (k, v) :: rest else (k', v') :: assoc_set k v rest
  end.

Definition get_member (seg : string) (t : tree) : option tree :=
  match t with
  | TObj members => assoc seg members
  | TArr items =>
      match array_index seg with
      | Some i => items !! i
      | None => None
      end
  | _ => None
  end.

Definition set_member (seg : string) (v : tree) (t : tree) : option tree :=
  match t with
  | TObj members => Some (TObj (assoc_set seg v members))
  | TArr items =>
      match array_index seg with
      | Some i => if (i <? length items)%nat then Some (TArr (<[i:=v]> items)) else None
      | None => None
      end
  | _ => None
  end.

Fixpoint set_segments (segs : list string) (v : tree) (t : tree) : option tree :=
  match segs with
  | [] => None
  | [seg] => set_member seg v t
  | seg :: rest =>
      match get_member seg t with
      | Some child =>
          match set_segments rest v child with
          | Some child' => set_member seg child' t
          | None => None
          end
      | None => None
      end
  end.

Fixpoint get_segments (segs : list string) (t : tree) : option tree :=
  match segs with
  | [] => Some t
  | seg :: rest =>
      match get_member seg t with
      | Some child => get_segments rest child
      | None => None
      end
  end.

(** Modelled from the spec: [objectPath(t).set(path, v)], the "set value at
    path" operation over nested objects and arrays that raises on an invalid
    path; [None] stands for the raised exception. *)
Definition objectPath_set (path : string) (v : tree) (t : tree) : option tree :=
  set_segments (split_path path) v t.

(** Modelled from the spec: the value found at a path, [objectPath(t).get(path)];
    only used to state what [set] has written. *)
Definition objectPath_get (path : string) (t : tree) : option tree :=
  get_segments (split_path path) t.

(** ** [Map<string, Upload>] *)

Definition Map_get (k : string) (m : list (string * nat)) : option nat := assoc k m.
Definition Map_set (k : string) (u : nat) (m : list (string * nat)) : list (string * nat) :=
  assoc_set k u m.
Definition Map_values (m : list (string * nat)) : list nat := List.map snd m.

(** ** Assignments to the closure variables *)

Definition with_released (v : bool) (s : state) : state :=
  {| released := v; exitError := exitError s; objects := objects s; operations := operations s; operationsPath := operationsPath s; map := map s; uploads := uploads s; streams := streams s; result := result s; io := io s |}.

Definition with_exitError (v : option Error) (s : state) : state :=
  {| released := released s; exitError := v; objects := objects s; operations := operations s; operationsPath := operationsPath s; map := map s; uploads := uploads s; streams := streams s; result := result s; io := io s |}.

Definition with_objects (v : list tree) (s : state) : state :=
  {| released := released s; exitError := exitError s; objects := v; operations := operations s; operationsPath := operationsPath s; map := map s; uploads := uploads s; streams := streams s; result := result s; io := io s |}.

Definition with_operations (v : option nat) (s : state) : state :=
  {| released := released s; exitError := exitError s; objects := objects s; operations := v; operationsPath := operationsPath s; map := map s; uploads := uploads s; streams := streams s; result := result s; io := io s |}.

Definition with_operationsPath (v : option nat) (s : state) : state :=
  {| released := released s; exitError := exitError s; objects := objects s; operations := operations s; operationsPath := v; map := map s; uploads := uploads s; streams := streams s; result := result s; io := io s |}.

Definition with_map (v : option (list (string * nat))) (s : state) : state :=
  {| released := released s; exitError := exitError s; objects := objects s; operations := operations s; operationsPath := operationsPath s; map := v; uploads := uploads s; streams := streams s; result := result s; io := io s |}.

Definition with_uploads (v : list Upload) (s : state) : state :=
  {| released := released s; exitError := exitError s; objects := objects s; operations := operations s; operationsPath := operationsPath s; map := map s; uploads := v; streams := streams s; result := result s; io := io s |}.

Definition with_streams (v : list stream) (s : state) : state :=
  {| released := released s; exitError := exitError s; objects := objects s; operations := operations s; operationsPath := operationsPath s; map := map s; uploads := uploads s; streams := v; result := result s; io := io s |}.

Definition with_result (v : Promise nat) (s : state) : state :=
  {| released := released s; exitError := exitError s; objects := objects s; operations := operations s; operationsPath := operationsPath s; map := map s; uploads := uploads s; streams := streams s; result := v; io := io s |}.

Definition with_io (v : plumbing) (s : state) : state :=
  {| released := released s; exitError := exitError s; objects := objects s; operations := operations s; operationsPath := operationsPath s; map := map s; uploads := uploads s; streams := streams s; result := result s; io := v |}.

(** ** The exit controller *)

(** [for (const upload of map.values()) if (!upload.file) upload.reject(e)] *)
Definition reject_unless_file (e : Error) (up : Upload) : Upload :=
  match file up with
  | None => Upload_reject e up
  | Some _ => up
  end.

Definition sweep (e : Error) (ids : list nat) (us : list Upload) : list Upload :=
  fold_left (fun us u => alter (reject_unless_file e) u us) ids us.

Definition sweep_map (e : Error) (s : state) : list Upload :=
  match map s with
  | Some m => sweep e (Map_values m) (uploads s)
  | None => uploads s
  end.

(** [parser.destroy(..)], [request.unpipe(parser)] and the deferred
    [request.resume()]. *)
Definition stop_parser (error : Error) (isParserError : bool) (p : plumbing) : plumbing :=
  {| parserDestroyed :=
       match parserDestroyed p with
       | None => Some (if isParserError then None else Some error)
       | Some d => Some d
       end;
     requestPiped := false;
     requestResumed := requestResumed p;
     resumeScheduled := true;
     filesLimitSeen := filesLimitSeen p;
     finishSeen := finishSeen p;
     responseCloseSeen := responseCloseSeen p;
     requestCloseSeen := requestCloseSeen p |}.

(** [function exit(error, isParserError = false)] *)
Definition exit (error : Error) (isParserError : bool) (s : state) : state :=
  match exitError s with
  | Some _ => s
  | None =>
      let s1 := with_exitError (Some error) s in
      let s2 := with_uploads (sweep_map error s1) s1 in
      let s3 := with_io (stop_parser error isParserError (io s2)) s2 in
      with_result (reject_promise error (result s3)) s3
  end.

(** ** The field handler *)

(** The address held by the variable [operations] when its value is
    truthy. *)
Definition operations_truthy (s : state) : option nat :=
  match operations s with
  | Some a =>
      match objects s !! a with
      | Some t => if truthy t then Some a else None
      | None => None
      end
  | None => None
  end.

(** [operationsPath.set(path, upload)] inside its [try]: mutate the bound
    object in place; [None] when it throws ([operationsPath] unbound or an
    invalid path). *)
Definition operationsPath_set (path : string) (u : nat) (s : state) : option state :=
  match operationsPath s with
  | Some a =>
      match objects s !! a with
      | Some t =>
          match objectPath_set path (TUpload u) t with
          | Some t' => Some (with_objects (<[a:=t']> (objects s)) s)
          | None => None
          end
      | None => None
      end
  | None => None
  end.

(** The inner loop [for (const [index, path] of paths.entries())]; the
    error is the one the loop hands to [exit]. *)
Fixpoint bind_paths (fieldName : string) (u : nat) (index : nat) (paths : list json)
    (s : state) : state * option Error :=
  match paths with
  | [] => (s, None)
  | JStr path :: rest =>
      match operationsPath_set path u s with
      | Some s' => bind_paths fieldName u (S index) rest s'
      | None => (s, Some (createError 400 (InvalidMapEntryPath fieldName index path)))
      end
  | _ :: _ => (s, Some (createError 400 (InvalidMapEntryValue fieldName index)))
  end.

(** [map.set(fieldName, new Upload())] *)
Definition add_upload (fieldName : string) (s : state) : state :=
  let u := length (uploads s) in
  let m := match map s with Some m => m | None => [] end in
  with_map (Some (Map_set fieldName u m)) (with_uploads (uploads s ++ [new_Upload]) s).

(** The outer loop [for (const [fieldName, paths] of mapEntries)]. *)
Fixpoint bind_entries (mapEntries : list (string * json)) (s : state) : state * option Error :=
  match mapEntries with
  | [] => (s, None)
  | (fieldName, JArr paths) :: rest =>
      let u := length (uploads s) in
      match bind_paths fieldName u 0 paths (add_upload fieldName s) with
      | (s', None) => bind_entries rest s'
      | (s', Some e) => (s', Some e)
      end
  | (fieldName, _) :: _ => (s, Some (createError 400 (InvalidMapEntryArray fieldName)))
  end.

Definition on_operations (value : option json) (s : state) : state :=
  match value with
  | None => exit (createError 400 InvalidJsonOperations) false s
  | Some j =>
      let a := length (objects s) in
      let s1 := with_operations (Some a) (with_objects (objects s ++ [embed j]) s) in
      if negb (typeof_object (embed j)) || negb (truthy (embed j))
      then exit (createError 400 InvalidTypeOperations) false s1
      else with_operationsPath (Some a) s1
  end.

Definition on_map (opts : ProcessRequestOptions) (value : option json) (s : state) : state :=
  match operations_truthy s with
  | None => exit (createError 400 MisorderedMap) false s
  | Some a =>
      match value with
      | None => exit (createError 400 InvalidJsonMap) false s
      | Some parsedMap =>
          if negb (json_typeof_object parsedMap) || negb (json_truthy parsedMap)
             || json_isArray parsedMap
          then exit (createError 400 InvalidTypeMap) false s
          else
            let mapEntries := Object_entries parsedMap in
            if exceeds (length mapEntries) (maxFiles opts)
            then exit (createError 413 (MaxFilesExceeded (maxFiles opts))) false s
            else
              match bind_entries mapEntries (with_map (Some []) s) with
              | (s', Some e) => exit e false s'
              | (s', None) => with_result (resolve_promise a (result s')) s'
              end
      end
  end.

(** [parser.on("field", (fieldName, value, { valueTruncated }) => ...)];
    [value] is given as the outcome of [JSON.parse(value)], [None] when it
    throws. *)
Definition on_field (opts : ProcessRequestOptions) (fieldName : string)
    (value : option json) (valueTruncated : bool) (s : state) : state :=
  if valueTruncated
  then exit (createError 413 (FieldTooLarge fieldName (maxFieldSize opts))) false s
  else if String.eqb fieldName "operations" then on_operations value s
  else if String.eqb fieldName "map" then on_map opts value s
  else s.

(** ** The file handler and the per-file listeners *)

(** [const file: FileUpload = {..}] with [stream.pipe(capacitor)]. *)
Definition new_file (name mime enc : string) : FileUpload :=
  {| filename := name; mimetype := mime; encoding := enc; fileError := None;
     piped := true; resumed := false; capacitorDestroyed := None;
     capacitorReleased := false |}.

(** [function ignoreStream(stream)], applied to the stream of the file part
    that has just arrived: its errors are swallowed and it is resumed. *)
Definition ignoreStream (s : state) : state :=
  with_streams (streams s ++ [Ignored]) s.

(** [parser.on("file", (fieldName, stream, { filename, encoding, mimeType }) => ...)] *)
Definition on_file (fieldName name enc mime : string) (s : state) : state :=
  match map s with
  | None => exit (createError 400 MisorderedFiles) false (ignoreStream s)
  | Some m =>
      match Map_get fieldName m with
      | None => ignoreStream s
      | Some u =>
          let f := length (streams s) in
          with_uploads (alter (Upload_resolve f) u (uploads s))
            (with_streams (streams s ++ [Spooled (new_file name mime enc)]) s)
      end
  end.

(** [stream.unpipe(); capacitor.destroy(fileError)] with [fileError] just
    assigned. *)
Definition fail_file (e : Error) (f : FileUpload) : FileUpload :=
  {| filename := filename f; mimetype := mimetype f; encoding := encoding f;
     fileError := Some e;
     piped := false;
     resumed := resumed f;
     capacitorDestroyed :=
       match capacitorDestroyed f with
       | None => Some e
       | Some d => Some d
       end;
     capacitorReleased := capacitorReleased f |}.

(** [capacitor.on("error", () => { stream.unpipe(); stream.resume(); })].
    The listener ignores the error it is called with.  A spool that emits
    [error] is a destroyed spool: it was destroyed with [fileError] by one
    of the two listeners above, or it has destroyed itself with the error
    of a failed write, which is then the one recorded here. *)
Definition drain_file (error : Error) (f : FileUpload) : FileUpload :=
  {| filename := filename f; mimetype := mimetype f; encoding := encoding f;
     fileError := fileError f; piped := false; resumed := true;
     capacitorDestroyed :=
       match capacitorDestroyed f with
       | None => Some error
       | Some d => Some d
       end;
     capacitorReleased := capacitorReleased f |}.

(** [upload.file.capacitor.release()] *)
Definition release_file (f : FileUpload) : FileUpload :=
  {| filename := filename f; mimetype := mimetype f; encoding := encoding f;
     fileError := fileError f; piped := piped f; resumed := resumed f;
     capacitorDestroyed := capacitorDestroyed f;
     capacitorReleased := true |}.

Definition on_spooled (g : FileUpload -> FileUpload) (st : stream) : stream :=
  match st with
  | Spooled f => Spooled (g f)
  | Ignored => Ignored
  end.

(** The listeners of the stream numbered [sid]; an ignored stream has only
    the empty [error] listener of [ignoreStream]. *)
Definition on_stream_limit (opts : ProcessRequestOptions) (sid : nat) (s : state) : state :=
  with_streams
    (alter (on_spooled (fail_file (createError 413 (FileTruncated (maxFileSize opts)))))
       sid (streams s)) s.

Definition on_stream_error (sid : nat) (error : Error) (s : state) : state :=
  with_streams (alter (on_spooled (fail_file error)) sid (streams s)) s.

Definition on_capacitor_error (sid : nat) (error : Error) (s : state) : state :=
  with_streams (alter (on_spooled (drain_file error)) sid (streams s)) s.

(** What [file.createReadStream(options)] does. *)
Inductive read_outcome : Type :=
| Throws (e : Error)
| Reads (capacitor : nat).

(** The error with which a spool refuses to open a read. *)
Definition spool_closed : Error := {| status := None; message := SpoolClosed |}.

(** Modelled from the spec: the spool is a collaborator of the engine ("a
    byte-spooling stream type supporting create-read-stream-on-demand and
    explicit resource release"), and a read handle over it "must fail if the
    file's stream terminated in error or if the owning response has already
    completed (resources released)".  So [capacitor.createReadStream(options)]
    throws an error of the spool's own once the spool has been destroyed or
    released, and opens a fresh read of the spooled bytes otherwise. *)
Definition capacitor_createReadStream (f : nat) (fu : FileUpload) : read_outcome :=
  match capacitorDestroyed fu with
  | Some _ => Throws spool_closed
  | None => if capacitorReleased fu then Throws spool_closed else Reads f
  end.

(** [createReadStream(options) {
       const error = fileError || (released ? exitError : null);
       if (error) { throw error; }
       return capacitor.createReadStream(options); }] *)
Definition createReadStream (s : state) (f : nat) : option read_outcome :=
  match streams s !! f with
  | Some (Spooled fu) =>
      Some match fileError fu with
           | Some e => Throws e
           | None =>
               match (if released s then exitError s else None) with
               | Some e => Throws e
               | None => capacitor_createReadStream f fu
               end
           end
  | _ => None
  end.

(** ** Tokenizer and lifecycle listeners *)

Definition mark (g : plumbing -> plumbing) (s : state) : state := with_io (g (io s)) s.

Definition see_filesLimit (p : plumbing) : plumbing :=
  {| parserDestroyed := parserDestroyed p; requestPiped := requestPiped p;
     requestResumed := requestResumed p; resumeScheduled := resumeScheduled p;
     filesLimitSeen := true; finishSeen := finishSeen p;
     responseCloseSeen := responseCloseSeen p; requestCloseSeen := requestCloseSeen p |}.

(** also [request.unpipe(parser); request.resume()] *)
Definition see_finish (p : plumbing) : plumbing :=
  {| parserDestroyed := parserDestroyed p; requestPiped := false;
     requestResumed := true; resumeScheduled := resumeScheduled p;
     filesLimitSeen := filesLimitSeen p; finishSeen := true;
     responseCloseSeen := responseCloseSeen p; requestCloseSeen := requestCloseSeen p |}.

Definition see_responseClose (p : plumbing) : plumbing :=
  {| parserDestroyed := parserDestroyed p; requestPiped := requestPiped p;
     requestResumed := requestResumed p; resumeScheduled := resumeScheduled p;
     filesLimitSeen := filesLimitSeen p; finishSeen := finishSeen p;
     responseCloseSeen := true; requestCloseSeen := requestCloseSeen p |}.

Definition see_requestClose (p : plumbing) : plumbing :=
  {| parserDestroyed := parserDestroyed p; requestPiped := requestPiped p;
     requestResumed := requestResumed p; resumeScheduled := resumeScheduled p;
     filesLimitSeen := filesLimitSeen p; finishSeen := finishSeen p;
     responseCloseSeen := responseCloseSeen p; requestCloseSeen := true |}.

(** [parser.once("filesLimit", ...)] *)
Definition on_filesLimit (opts : ProcessRequestOptions) (s : state) : state :=
  if filesLimitSeen (io s) then s
  else exit (createError 413 (MaxFilesExceeded (maxFiles opts))) false (mark see_filesLimit s).

(** [parser.once("finish", ...)] *)
Definition on_finish (s : state) : state :=
  if finishSeen (io s) then s
  else
    let s1 := mark see_finish s in
    match operations_truthy s1 with
    | None => exit (createError 400 MissingOperations) false s1
    | Some _ =>
        match map s1 with
        | None => exit (createError 400 MissingMap) false s1
        | Some m => with_uploads (sweep (createError 400 FileMissing) (Map_values m) (uploads s1)) s1
        end
    end.

(** [parser.on("error", error => exit(error, true))] *)
Definition on_parser_error (error : Error) (s : state) : state := exit error true s.

(** The loop of the response [close] listener: release the spool of every
    upload that has a file. *)
Definition release_all (us : list Upload) (ids : list nat) (sts : list stream) : list stream :=
  fold_left
    (fun sts u =>
       match us !! u with
       | Some up =>
           match file up with
           | Some f => alter (on_spooled release_file) f sts
           | None => sts
           end
       | None => sts
       end) ids sts.

(** [response.once("close", ...)] *)
Definition on_response_close (s : state) : state :=
  if responseCloseSeen (io s) then s
  else
    let s1 := with_released true (mark see_responseClose s) in
    match map s1 with
    | Some m => with_streams (release_all (uploads s1) (Map_values m) (streams s1)) s1
    | None => s1
    end.

(** [request.once("close", ...)] *)
Definition on_request_close (readableEnded : bool) (s : state) : state :=
  if requestCloseSeen (io s) then s
  else
    let s1 := mark see_requestClose s in
    if negb readableEnded then exit (createError 499 Disconnected) false s1 else s1.

(** ** Requests as event traces *)

(** What the tokenizer, the file streams, the spools, the response and the
    request emit.  A field carries the outcome of [JSON.parse] on its text
    ([None] for a syntax error); a file part opens the stream numbered by
    its order of arrival, which later stream events refer to. *)
Inductive event : Type :=
| Field (fieldName : string) (value : option json) (valueTruncated : bool)
| File (fieldName filename encoding mimeType : string)
| StreamLimit (sid : nat)
| StreamError (sid : nat) (error : Error)
| CapacitorError (sid : nat) (error : Error)
| FilesLimit
| Finish
| ParserError (error : Error)
| ResponseClose
| RequestClose (readableEnded : bool).

Definition handle (opts : ProcessRequestOptions) (ev : event) (s : state) : state :=
  match ev with
  | Field fieldName value valueTruncated => on_field opts fieldName value valueTruncated s
  | File fieldName name enc mime => on_file fieldName name enc mime s
  | StreamLimit sid => on_stream_limit opts sid s
  | StreamError sid error => on_stream_error sid error s
  | CapacitorError sid error => on_capacitor_error sid error s
  | FilesLimit => on_filesLimit opts s
  | Finish => on_finish s
  | ParserError error => on_parser_error error s
  | ResponseClose => on_response_close s
  | RequestClose readableEnded => on_request_close readableEnded s
  end.

Definition run (opts : ProcessRequestOptions) (s : state) (trace : list event) : state :=
  fold_left (fun st ev => handle opts ev st) trace s.

(** [processRequest(request, response, opts)] on a request that delivers
    the given events. *)
Definition processRequest (opts : ProcessRequestOptions) (trace : list event) : state :=
  run opts initial trace.

(** ** Sample requests *)


(** [{"query": "q", "variables": {"file": null}}] *)
Definition sample_operations : json :=
  JObj [("query", JStr "q"); ("variables", JObj [("file", JNull)])].

(** [{"0": ["variables.file"]}] *)
Definition sample_map : json := JObj [("0", JArr [JStr "variables.file"])].

(** [{"0": ["variables.file"], "1": ["variables.file"]}] *)
Definition overlapping_map : json :=
  JObj [("0", JArr [JStr "variables.file"]); ("1", JArr [JStr "variables.file"])].

Definition sample_error : Error := {| status := None; message := Other "Unexpected end of form" |}.

Definition one_file_options : ProcessRequestOptions :=
  {| maxFieldSize := Finite 1000000; maxFileSize := Infinity; maxFiles := Finite 1 |}.

(** the request has delivered [operations] and [map] *)
Definition bound_trace : list event :=
  [Field "operations" (Some sample_operations) false; Field "map" (Some sample_map) false].

(** ** Vocabulary of the properties *)

(** An object or an array. *)
Definition json_is_container (j : json) : bool :=
  match j with JArr _ | JObj _ => true | _ => false end.

(** The same, for an operations document. *)
Definition container (t : tree) : bool :=
  match t with TObj _ | TArr _ => true | _ => false end.

(** Two states that differ at most in the operations documents, which keep
    their addresses and their truthiness. *)
Definition same_but_objects (s s' : state) : Prop :=
  s' = with_objects (objects s') s
  ∧ length (objects s') = length (objects s)
  ∧ ∀ a t, objects s !! a = Some t →
      ∃ t', objects s' !! a = Some t' ∧ truthy t' = truthy t.

(** The outer loop appends fresh placeholders, extends the table and
    rewrites operations documents in place; nothing else. *)
Definition binder_step (s s' : state) : Prop :=
  (∃ n, uploads s' = uploads s ++ replicate n new_Upload)
  ∧ (is_Some (map s) → is_Some (map s'))
  ∧ released s' = released s
  ∧ exitError s' = exitError s
  ∧ operations s' = operations s
  ∧ operationsPath s' = operationsPath s
  ∧ streams s' = streams s
  ∧ result s' = result s
  ∧ io s' = io s
  ∧ length (objects s') = length (objects s)
  ∧ ∀ a t, objects s !! a = Some t →
      ∃ t', objects s' !! a = Some t' ∧ truthy t' = truthy t.

(** A handler leaves a placeholder alone, resolves it with a file, or
    rejects it unless it has a file; the latter only when [exit] has run or
    the form has finished. *)
Definition upload_moves (s' : state) (up up' : Upload) : Prop :=
  up' = up
  ∨ (∃ f, up' = Upload_resolve f up)
  ∨ (∃ e, up' = reject_unless_file e up
          ∧ (is_Some (exitError s') ∨ finishSeen (io s') = true)).

(** The placeholder at an address before the event; a fresh one if the
    address is not yet allocated. *)
Definition old_upload (s : state) (u : nat) : Upload :=
  default new_Upload (uploads s !! u).

(** No placeholder disappears, and each one moves as above. *)
Definition uploads_move (s s' : state) : Prop :=
  length (uploads s) ≤ length (uploads s')
  ∧ ∀ u up', uploads s' !! u = Some up' → upload_moves s' (old_upload s u) up'.

(** The variables that decide the overall result. *)
Definition control_same (s s' : state) : Prop :=
  objects s' = objects s ∧ operations s' = operations s
  ∧ map s' = map s ∧ result s' = result s.

(** What holds in every state a request can reach: a placeholder with a
    file is settled; unless [exit] or the [finish] listener has run, one
    without a file is pending; while no error is recorded the overall result
    is pending before the table exists and resolved once it does, and the
    table only exists when [operations] is truthy. *)
Definition request_inv (s : state) : Prop :=
  (∀ u up, uploads s !! u = Some up → is_Some (file up) → settled (promise up) = true)
  ∧ (exitError s = None → finishSeen (io s) = false →
     ∀ u up, uploads s !! u = Some up → file up = None → promise up = Pending)
  ∧ (exitError s = None → map s = None → result s = Pending)
  ∧ (exitError s = None → is_Some (map s) → ∃ a, result s = Fulfilled a)
  ∧ (exitError s = None → is_Some (map s) → is_Some (operations_truthy s)).

Definition is_field (ev : event) : bool :=
  match ev with Field _ _ _ => true | _ => false end.

(** Every placeholder ever created is a value of the current table. *)
Definition covers (s : state) : Prop :=
  ∀ u, u < length (uploads s) → ∃ m, map s = Some m ∧ u ∈ Map_values m.


(** A placeholder that has a file is settled. *)
Definition files_settled (s : state) : Prop :=
  ∀ u up, uploads s !! u = Some up → is_Some (file up) → settled (promise up) = true.

(** The number of field events of a request. *)
Definition field_count (trace : list event) : nat := length (List.filter is_field trace).



(** While no error is recorded, [operationsPath] is bound to the object
    held by [operations], and a request without a table has seen no file
    part and created no placeholder. *)
Definition unbound_inv (s : state) : Prop :=
  exitError s = None →
  operationsPath s = operations s
  ∧ (map s = None → streams s = [] ∧ uploads s = []).

(** ** [type/upload.ts]: the capabilities as their callers use them *)

(** A call of [upload.resolve(file)] or of [upload.reject(error)]. *)
Inductive upload_call : Type :=
| Resolve (f : nat)
| Reject (e : Error).

Definition call (c : upload_call) (up : Upload) : Upload :=
  match c with
  | Resolve f => Upload_resolve f up
  | Reject e => Upload_reject e up
  end.

(** A sequence of calls on one instance, in order. *)
Definition calls (cs : list upload_call) (up : Upload) : Upload :=
  fold_left (fun u c => call c u) cs up.

(** ** [type/graphql-upload.ts]: the [Upload] scalar *)

Inductive GraphQLError : Type :=
| UploadValueInvalid
| UploadLiteralUnsupported
| UploadSerializationUnsupported.

(** [parseValue(value)]: [value.promise] when [value instanceof Upload],
    else a thrown [GraphQLError].  The value is a node of the operations
    document; the promise is read through the reference, [None] standing
    for a reference to no instance. *)
Definition parseValue (s : state) (value : tree) : option (Promise nat + GraphQLError) :=
  match value with
  | TUpload u =>
      match uploads s !! u with
      | Some up => Some (inl (promise up))
      | None => None
      end
  | _ => Some (inr UploadValueInvalid)
  end.

(** [parseLiteral(node)] and [serialize()] always throw. *)
Definition parseLiteral {A} (node : A) : Promise nat + GraphQLError :=
  inr UploadLiteralUnsupported.

Definition serialize {A} (value : A) : Promise nat + GraphQLError :=
  inr UploadSerializationUnsupported.

(** ** [plugin.ts]: the Fastify hook *)

(** The part of a Fastify request the plugin touches; [body] is the address
    of the operations document once assigned. *)
Record FastifyRequest : Type := mkRequest {
  mercuriusUploadMultipart : bool;
  body : option nat
}.

(** The content type parser registered for [multipart]. *)
Definition contentTypeParser (req : FastifyRequest) : FastifyRequest :=
  {| mercuriusUploadMultipart := true; body := body req |}.

(** What the [preValidation] hook has done by the time the promise returned
    by [processRequest] is in a given state: it returns at once for a
    request that is not multipart, assigns [request.body] when the awaited
    promise fulfils, throws when it rejects, and is suspended while it is
    pending. *)
Inductive hook_outcome : Type :=
| Continues (req : FastifyRequest)
| Fails (e : Error)
| Awaits.

Definition preValidation (req : FastifyRequest) (s : state) : hook_outcome :=
  if negb (mercuriusUploadMultipart req) then Continues req
  else match result s with
       | Fulfilled a =>
           Continues {| mercuriusUploadMultipart := mercuriusUploadMultipart req;
                        body := Some a |}
       | Rejected e => Fails e
       | Pending => Awaits
       end.

(** ** More vocabulary *)

(** Some placeholder of the table currently has the stream [g] as its
    [file]. *)
Definition table_file (s : state) (g : nat) : Prop :=
  ∃ m u up, map s = Some m ∧ u ∈ Map_values m
            ∧ uploads s !! u = Some up ∧ file up = Some g.

(** [createReadStream] of a file throws. *)
Definition read_throws (s : state) (f : nat) : Prop :=
  ∃ e, createReadStream s f = Some (Throws e).

(** The error came from the tokenizer itself. *)
Definition is_parser_error (ev : event) : bool :=
  match ev with ParserError _ => true | _ => false end.

(** A JSON string. *)
Definition json_is_string (j : json) : bool :=
  match j with JStr _ => true | _ => false end.

(** A map entry whose value is an array of strings. *)
Definition entry_well_typed (entry : string * json) : Prop :=
  ∃ paths, snd entry = JArr paths ∧ ∀ i p, paths !! i = Some p → json_is_string p = true.

(** Some placeholder among [ids] has the stream [g] as its [file]. *)
Definition holds_file (us : list Upload) (ids : list nat) (g : nat) : bool :=
  existsb (λ u, match us !! u with
                | Some up => match file up with Some f => f =? g | None => false end
                | None => false
                end) ids.

(** The events that touch the stream table or the released flag. *)
Definition touches_files (ev : event) : bool :=
  match ev with
  | File _ _ _ _ | StreamLimit _ | StreamError _ _ | CapacitorError _ _ | ResponseClose => true
  | _ => false
  end.

(** What may happen to a spooled file over time: its metadata stay, an
    error slot once filled stays filled, a destroyed or released spool stays
    so. *)
Definition file_grows (fu fu' : FileUpload) : Prop :=
  filename fu' = filename fu
  ∧ mimetype fu' = mimetype fu
  ∧ encoding fu' = encoding fu
  ∧ (is_Some (fileError fu) → is_Some (fileError fu'))
  ∧ (is_Some (capacitorDestroyed fu) → is_Some (capacitorDestroyed fu'))
  ∧ (capacitorReleased fu = true → capacitorReleased fu' = true).

Definition stream_grows (st st' : stream) : Prop :=
  match st, st' with
  | Ignored, Ignored => True
  | Spooled fu, Spooled fu' => file_grows fu fu'
  | _, _ => False
  end.

(** Every document that is an object or an array stays one, at the same
    address. *)
Definition containers_kept (s s' : state) : Prop :=
  ∀ a t, objects s !! a = Some t → container t = true →
    ∃ t', objects s' !! a = Some t' ∧ container t' = true.

(** The address refers to a document that is an object or an array. *)
Definition is_document (s : state) (a : nat) : Prop :=
  ∃ t, objects s !! a = Some t ∧ container t = true.


(** * Properties *)

(** ** The model at work *)

Example split_path_sample :
  split_path "variables.files.0" = ["variables"; "files"; "0"].
Proof. reflexivity. Qed.

Example array_index_sample :
  array_index "12" = Some 12 ∧ array_index "012" = None ∧ array_index "a" = None.
Proof. vm_compute. auto. Qed.

(** [operations], [map], the mapped file, then the end of the form: the
    result is resolved with the document holding placeholder 0, which is
    itself resolved with the file spooled from stream 0. *)
Example mapped_file_sample :
  let s := processRequest default_options
             (bound_trace ++ [File "0" "a.txt" "7bit" "text/plain"; Finish]) in
  result s = Fulfilled 0
  ∧ objects s !! 0
    = Some (TObj [("query", TStr "q"); ("variables", TObj [("file", TUpload 0)])])
  ∧ uploads s = [{| file := Some 0; promise := Fulfilled 0 |}]
  ∧ createReadStream s 0 = Some (Reads 0)
  ∧ exitError s = None.
Proof. vm_compute. auto. Qed.

(** ** Promises *)

Lemma resolve_promise_settled {A} (a : A) (p : Promise A) :
  settled p = true → resolve_promise a p = p.
Proof. by destruct p. Qed.

Lemma reject_promise_settled {A} (e : Error) (p : Promise A) :
  settled p = true → reject_promise e p = p.
Proof. by destruct p. Qed.

Lemma reject_unless_file_idem e up :
  reject_unless_file e (reject_unless_file e up) = reject_unless_file e up.
Proof.
  unfold reject_unless_file, Upload_reject.
  destruct up as [[f|] [|a|e']]; reflexivity.
Qed.

Lemma reject_unless_file_file e up : file (reject_unless_file e up) = file up.
Proof. unfold reject_unless_file. by destruct (file up) eqn:E. Qed.

Lemma reject_unless_file_settled e up :
  settled (promise up) = true → reject_unless_file e up = up.
Proof.
  unfold reject_unless_file, Upload_reject. destruct up as [[f|] [|a|e']]; done.
Qed.

(** ** The sweep over the placeholder table *)

Lemma length_sweep e ids us : length (sweep e ids us) = length us.
Proof.
  unfold sweep. revert us.
  induction ids as [|u ids IH]; intros us; simpl; [done|].
  by rewrite IH, length_alter.
Qed.

Lemma sweep_lookup_notin e ids us (u : nat) :
  u ∉ ids → sweep e ids us !! u = us !! u.
Proof.
  unfold sweep. revert us.
  induction ids as [|v ids IH]; intros us Hu; simpl; [done|].
  apply not_elem_of_cons in Hu as [Hne Hu].
  rewrite IH by done. by apply list_lookup_alter_ne.
Qed.

Lemma sweep_lookup e ids us (u : nat) :
  u ∈ ids → sweep e ids us !! u = reject_unless_file e <$> us !! u.
Proof.
  unfold sweep. revert us.
  induction ids as [|v ids IH]; intros us Hu; simpl.
  - by apply elem_of_nil in Hu.
  - destruct (decide (u ∈ ids)) as [Hin|Hnin].
    + rewrite IH by done.
      destruct (decide (v = u)) as [->|Hne].
      * rewrite list_lookup_alter_eq. destruct (us !! u); simpl; [|done].
        by rewrite reject_unless_file_idem.
      * by rewrite list_lookup_alter_ne.
    + apply elem_of_cons in Hu as [->|Hu]; [|done].
      fold (sweep e ids (alter (reject_unless_file e) v us)).
      rewrite sweep_lookup_notin by done.
      apply list_lookup_alter_eq.
Qed.

(** Whatever the table, a sweep leaves [file] alone and only ever touches
    a pending promise. *)
Lemma sweep_lookup_any e ids us (u : nat) up :
  us !! u = Some up →
  sweep e ids us !! u = Some up ∨ sweep e ids us !! u = Some (reject_unless_file e up).
Proof.
  intros Hu. destruct (decide (u ∈ ids)).
  - right. rewrite sweep_lookup by done. by rewrite Hu.
  - left. by rewrite sweep_lookup_notin.
Qed.

Lemma assoc_values (k : string) (m : list (string * nat)) (u : nat) :
  assoc k m = Some u → u ∈ Map_values m.
Proof.
  unfold Map_values.
  induction m as [|[k' v] m IH]; simpl; [done|].
  destruct (String.eqb k k'); intros H.
  - injection H as ->. apply elem_of_cons. by left.
  - apply elem_of_cons. right. by apply IH.
Qed.

(** ** The exit controller: first call and later calls *)

Lemma exit_later e0 error b s : exitError s = Some e0 → exit error b s = s.
Proof. unfold exit. by intros ->. Qed.

Lemma exit_exitError error b s :
  exitError (exit error b s) = Some (default error (exitError s)).
Proof. unfold exit. by destruct (exitError s) eqn:E. Qed.

Lemma exit_is_Some error b s : is_Some (exitError (exit error b s)).
Proof. rewrite exit_exitError. eauto. Qed.

Lemma exit_idempotent error b error' b' s :
  exit error' b' (exit error b s) = exit error b s.
Proof.
  destruct (exit_is_Some error b s) as [e0 He0]. by apply exit_later with e0.
Qed.

Lemma exit_result error b s :
  exitError s = None → result (exit error b s) = reject_promise error (result s).
Proof. unfold exit. by intros ->. Qed.

Lemma exit_uploads error b s :
  exitError s = None → uploads (exit error b s) = sweep_map error s.
Proof. unfold exit. by intros ->. Qed.

Lemma exit_frame error b s :
  objects (exit error b s) = objects s
  ∧ operations (exit error b s) = operations s
  ∧ operationsPath (exit error b s) = operationsPath s
  ∧ map (exit error b s) = map s
  ∧ streams (exit error b s) = streams s
  ∧ released (exit error b s) = released s
  ∧ length (uploads (exit error b s)) = length (uploads s).
Proof.
  unfold exit. destruct (exitError s) eqn:E; simpl; [done|].
  repeat split; try done.
  unfold sweep_map; simpl. destruct (map s); [|done]. apply length_sweep.
Qed.

(** The first call of [exit]: what it records and which promises it
    settles. *)
Lemma exit_first_call error b s :
  exitError s = None →
  exitError (exit error b s) = Some error
  ∧ (result s = Pending → result (exit error b s) = Rejected error)
  ∧ (settled (result s) = true → result (exit error b s) = result s)
  ∧ (∀ m fieldName u up,
       map s = Some m → Map_get fieldName m = Some u → uploads s !! u = Some up →
       file up = None → promise up = Pending →
       uploads (exit error b s) !! u = Some {| file := None; promise := Rejected error |})
  ∧ (∀ u up,
       uploads s !! u = Some up → settled (promise up) = true →
       uploads (exit error b s) !! u = Some up).
Proof.
  intros Hnone. split; [|split; [|split; [|split]]].
  - rewrite exit_exitError. by rewrite Hnone.
  - intros Hp. rewrite exit_result by done. by rewrite Hp.
  - intros Hp. rewrite exit_result by done. by apply reject_promise_settled.
  - intros m fieldName u up Hm Hget Hu Hfile Hpend.
    rewrite exit_uploads by done. unfold sweep_map. rewrite Hm.
    rewrite sweep_lookup by (eapply assoc_values; exact Hget).
    rewrite Hu. simpl. f_equal.
    destruct up as [fl pr]; simpl in *; subst. reflexivity.
  - intros u up Hu Hset.
    rewrite exit_uploads by done. unfold sweep_map.
    destruct (map s) as [m|]; [|done].
    destruct (sweep_lookup_any error (Map_values m) _ _ _ Hu) as [->| ->]; [done|].
    by rewrite reject_unless_file_settled.
Qed.

(** ** C4: the exit controller is single-shot *)

(** C4 (as amended). The first call of [exit] records its error, rejects
    with that error every placeholder of the table that has no file and is
    still pending, and rejects the overall result with it if the result is
    still pending; a promise that is already settled keeps its outcome.
    Every later call, with any error, returns the state unchanged. *)
Theorem exit_single_shot (error : Error) (isParserError : bool) (s : state) :
  exitError s = None →
  let s' := exit error isParserError s in
  exitError s' = Some error
  ∧ (result s = Pending → result s' = Rejected error)
  ∧ (settled (result s) = true → result s' = result s)
  ∧ (∀ m fieldName u up,
       map s = Some m → Map_get fieldName m = Some u → uploads s !! u = Some up →
       file up = None → promise up = Pending →
       uploads s' !! u = Some {| file := None; promise := Rejected error |})
  ∧ (∀ u up,
       uploads s !! u = Some up → settled (promise up) = true →
       uploads s' !! u = Some up)
  ∧ (∀ error' isParserError', exit error' isParserError' s' = s').
Proof.
  intros Hnone s'.
  destruct (exit_first_call error isParserError s Hnone) as (H1 & H2 & H3 & H4 & H5).
  repeat split; try assumption.
  intros error' b'. apply exit_idempotent.
Qed.

Lemma exit_single_shot_witness :
  let s := processRequest default_options
             [Field "operations" (Some sample_operations) false] in
  exitError s = None
  ∧ exitError (exit sample_error true s) = Some sample_error
  ∧ result (exit sample_error true s) = Rejected sample_error.
Proof.
  pose proof (exit_single_shot sample_error true
    (processRequest default_options [Field "operations" (Some sample_operations) false])
    eq_refl) as (H1 & H2 & _).
  split; [reflexivity|]. split; [exact H1|]. apply H2. reflexivity.
Defined.

(** C4 as stated fails once the map is bound: the overall result is then
    already resolved, and the first call of [exit] leaves it resolved
    instead of rejecting it. *)
Lemma exit_after_binding_keeps_result :
  let s := processRequest default_options bound_trace in
  exitError s = None
  ∧ result (exit sample_error false s) = Fulfilled 0
  ∧ result (exit sample_error false s) ≠ Rejected sample_error.
Proof. vm_compute. repeat split; congruence. Qed.

(** ** C6: an extraneous file part *)

(** C6. A file part whose field name has no entry in the placeholder table
    is handed to [ignoreStream] and changes nothing else: the overall
    result, the operations documents, the table, every placeholder, the
    recorded error and every spooled file are as they were. *)
Theorem extraneous_file_ignored (opts : ProcessRequestOptions) (s : state)
    (m : list (string * nat)) (fieldName name enc mime : string) :
  map s = Some m →
  Map_get fieldName m = None →
  let s' := handle opts (File fieldName name enc mime) s in
  s' = ignoreStream s
  ∧ streams s' !! length (streams s) = Some Ignored
  ∧ result s' = result s
  ∧ objects s' = objects s
  ∧ uploads s' = uploads s
  ∧ map s' = map s
  ∧ exitError s' = exitError s
  ∧ (∀ f, f < length (streams s) → createReadStream s' f = createReadStream s f).
Proof.
  intros Hm Hget s'. subst s'. simpl. unfold on_file. rewrite Hm, Hget.
  repeat split; try done.
  - simpl. by rewrite list_lookup_middle.
  - intros f Hf. unfold createReadStream. simpl.
    by rewrite lookup_app_l.
Qed.

Lemma extraneous_file_ignored_witness :
  let s := processRequest default_options bound_trace in
  result (handle default_options (File "9" "x.txt" "7bit" "text/plain") s) = Fulfilled 0.
Proof.
  pose proof (extraneous_file_ignored default_options
    (processRequest default_options bound_trace) [("0", 0)] "9" "x.txt" "7bit" "text/plain"
    eq_refl eq_refl) as (_ & _ & H & _).
  intros s. subst s. rewrite H. reflexivity.
Defined.

(** ** C7: acceptance of the [operations] value *)

(** C7 (as amended). While no fatal error has been recorded and the overall
    result is pending, an [operations] field whose value was not truncated
    is accepted exactly when it parses to an object or an array; a parse
    failure rejects with the 400 invalid-JSON error, [null] or a scalar with
    the 400 invalid-type error. A truncated value is rejected with the 413
    field-size error whatever it parses to. *)
Theorem operations_acceptance (opts : ProcessRequestOptions) (s : state)
    (value : option json) :
  exitError s = None →
  result s = Pending →
  let s' := handle opts (Field "operations" value false) s in
  let s413 := handle opts (Field "operations" value true) s in
  (exitError s' = None ↔ ∃ j, value = Some j ∧ json_is_container j = true)
  ∧ (value = None → result s' = Rejected (createError 400 InvalidJsonOperations))
  ∧ (∀ j, value = Some j → json_is_container j = false →
       result s' = Rejected (createError 400 InvalidTypeOperations))
  ∧ (∀ j, value = Some j → json_is_container j = true →
       result s' = Pending
       ∧ operations s' = Some (length (objects s))
       ∧ operationsPath s' = Some (length (objects s))
       ∧ objects s' !! length (objects s) = Some (embed j))
  ∧ result s413 = Rejected (createError 413 (FieldTooLarge "operations" (maxFieldSize opts))).
Proof.
  intros Hnone Hpend s' s413. subst s' s413. simpl. unfold on_field. simpl.
  unfold on_operations.
  split; [|split; [|split; [|split]]].
  - destruct value as [j|].
    + destruct j; simpl;
        try (rewrite exit_exitError; simpl; rewrite Hnone; simpl;
             split; [discriminate | intros (j' & Hj & Hc); injection Hj as <-; discriminate]);
        (split; [intros _; eexists; split; [reflexivity|reflexivity] | intros _; exact Hnone]).
    + rewrite exit_exitError, Hnone. simpl.
      split; [discriminate | intros (j' & Hj & _); discriminate].
  - intros ->. rewrite exit_result by done. by rewrite Hpend.
  - intros j -> Hc.
    destruct j; simpl in Hc; try discriminate; simpl;
      rewrite exit_result by done; simpl; by rewrite Hpend.
  - intros j -> Hc.
    destruct j; simpl in Hc; try discriminate; simpl;
      (repeat split; [done | by rewrite list_lookup_middle]).
  - rewrite exit_result by done. by rewrite Hpend.
Qed.

Lemma operations_acceptance_witness :
  result (handle default_options (Field "operations" (Some JNull) false) initial)
  = Rejected (createError 400 InvalidTypeOperations).
Proof.
  pose proof (operations_acceptance default_options initial (Some JNull) eq_refl eq_refl)
    as (_ & _ & H & _).
  apply (H JNull); reflexivity.
Defined.

(** C7 as stated fails on a truncated field: its value does not parse, yet
    the rejection is the 413 field-size error, not the 400 invalid-JSON
    error. *)
Lemma truncated_operations_rejected_413 :
  let s := processRequest default_options [Field "operations" None true] in
  result s = Rejected (createError 413 (FieldTooLarge "operations" (Finite 1000000)))
  ∧ result s ≠ Rejected (createError 400 InvalidJsonOperations).
Proof. vm_compute. split; congruence. Qed.

(** ** C9: client disconnect *)

(** C9 (as amended). When the request closes before its body was fully read
    and no fatal error has been recorded, [exit] is called with the 499
    disconnect error: the error is recorded, every pending placeholder of
    the table that has no file rejects with it, and the overall result
    rejects with it if it is still pending (it keeps its outcome if the map
    was already bound).  The status 499 differs from 400 and 413.  When the
    body had been fully read nothing is rejected. *)
Theorem disconnect_rejects (opts : ProcessRequestOptions) (s : state) :
  exitError s = None →
  requestCloseSeen (io s) = false →
  let error := createError 499 Disconnected in
  let s' := handle opts (RequestClose false) s in
  status error = Some 499
  ∧ status error ≠ Some 400
  ∧ status error ≠ Some 413
  ∧ exitError s' = Some error
  ∧ (result s = Pending → result s' = Rejected error)
  ∧ (settled (result s) = true → result s' = result s)
  ∧ (∀ m fieldName u up,
       map s = Some m → Map_get fieldName m = Some u → uploads s !! u = Some up →
       file up = None → promise up = Pending →
       uploads s' !! u = Some {| file := None; promise := Rejected error |})
  ∧ handle opts (RequestClose true) s = mark see_requestClose s.
Proof.
  intros Hnone Hseen error s'. subst s'. simpl. unfold on_request_close.
  rewrite Hseen. simpl.
  destruct (exit_first_call error false (mark see_requestClose s) Hnone)
    as (H1 & H2 & H3 & H4 & _).
  repeat split; try assumption; discriminate.
Qed.

Lemma disconnect_rejects_witness :
  let s := processRequest default_options bound_trace in
  uploads (handle default_options (RequestClose false) s) !! 0
  = Some {| file := None; promise := Rejected (createError 499 Disconnected) |}.
Proof.
  pose proof (disconnect_rejects default_options
    (processRequest default_options bound_trace) eq_refl eq_refl)
    as (_ & _ & _ & _ & _ & _ & H & _).
  intros s. subst s.
  apply (H [("0", 0)] "0" 0 new_Upload); reflexivity.
Defined.

(** C9 as stated fails when the client disconnects after the map was bound,
    which is when files are being uploaded: the placeholder rejects with the
    499 error but the overall result, already resolved, does not. *)
Lemma disconnect_after_binding_keeps_result :
  let s := processRequest default_options (bound_trace ++ [RequestClose false]) in
  exitError s = Some (createError 499 Disconnected)
  ∧ result s = Fulfilled 0
  ∧ result s ≠ Rejected (createError 499 Disconnected).
Proof. vm_compute. repeat split; congruence. Qed.

(** ** What [createReadStream] does *)

Lemma createReadStream_spooled s f fu :
  streams s !! f = Some (Spooled fu) →
  createReadStream s f =
    Some match fileError fu with
         | Some e => Throws e
         | None =>
             match exitError s with
             | Some e => if released s then Throws e else capacitor_createReadStream f fu
             | None => capacitor_createReadStream f fu
             end
         end.
Proof.
  intros Hf. unfold createReadStream. rewrite Hf.
  destruct (fileError fu); [done|]. by destruct (released s), (exitError s).
Qed.

Lemma fail_stream_effect (error : Error) (f : nat) (fu : FileUpload) (s : state) :
  streams s !! f = Some (Spooled fu) →
  let s' := with_streams (alter (on_spooled (fail_file error)) f (streams s)) s in
  streams s' !! f = Some (Spooled (fail_file error fu))
  ∧ createReadStream s' f = Some (Throws error)
  ∧ (∀ g, g ≠ f →
       streams s' !! g = streams s !! g ∧ createReadStream s' g = createReadStream s g).
Proof.
  intros Hf s'. subst s'. simpl.
  assert (alter (on_spooled (fail_file error)) f (streams s) !! f
          = Some (Spooled (fail_file error fu))) as Hlook.
  { rewrite list_lookup_alter_eq, Hf. reflexivity. }
  split; [exact Hlook|]. split.
  - unfold createReadStream. simpl. rewrite Hlook. reflexivity.
  - intros g Hg.
    assert (alter (on_spooled (fail_file error)) f (streams s) !! g = streams s !! g) as Hother
      by (by apply list_lookup_alter_ne).
    split; [exact Hother|].
    unfold createReadStream. simpl. by rewrite Hother.
Qed.

(** ** What the map binder changes *)

Lemma set_member_container seg v t t' :
  set_member seg v t = Some t' → container t = true ∧ container t' = true.
Proof.
  destruct t; simpl; try discriminate.
  - destruct (array_index seg) as [i|]; [|discriminate].
    destruct (i <? length items)%nat; [|discriminate]. by intros [= <-].
  - by intros [= <-].
Qed.

Lemma set_segments_cons seg seg2 rest v t :
  set_segments (seg :: seg2 :: rest) v t =
    match get_member seg t with
    | Some child =>
        match set_segments (seg2 :: rest) v child with
        | Some child' => set_member seg child' t
        | None => None
        end
    | None => None
    end.
Proof. reflexivity. Qed.

Lemma set_segments_container segs v t t' :
  set_segments segs v t = Some t' → container t = true ∧ container t' = true.
Proof.
  destruct segs as [|seg [|seg2 rest]]; [discriminate| |].
  - apply set_member_container.
  - rewrite set_segments_cons.
    destruct (get_member seg t) as [child|]; [|discriminate].
    destruct (set_segments (seg2 :: rest) v child) as [child'|]; [|discriminate].
    apply set_member_container.
Qed.

Lemma container_truthy t : container t = true → truthy t = true.
Proof. by destruct t. Qed.

Lemma same_but_objects_refl s : same_but_objects s s.
Proof. split; [by destruct s|]. split; [done|]. eauto. Qed.

Lemma same_but_objects_trans s1 s2 s3 :
  same_but_objects s1 s2 → same_but_objects s2 s3 → same_but_objects s1 s3.
Proof.
  intros (E1 & L1 & T1) (E2 & L2 & T2). split; [|split].
  - rewrite E2. rewrite E1. reflexivity.
  - congruence.
  - intros a t Ha. destruct (T1 a t Ha) as (t' & Ha' & Ht').
    destruct (T2 a t' Ha') as (t'' & Ha'' & Ht''). exists t''. split; congruence.
Qed.

Lemma operationsPath_set_effect path u s s' :
  operationsPath_set path u s = Some s' → same_but_objects s s'.
Proof.
  unfold operationsPath_set.
  destruct (operationsPath s) as [a|]; [|discriminate].
  destruct (objects s !! a) as [t|] eqn:Ha; [|discriminate].
  destruct (objectPath_set path (TUpload u) t) as [t'|] eqn:Hset; [|discriminate].
  intros [= <-].
  apply set_segments_container in Hset as [Hc Hc'].
  split; [reflexivity|]. split; [apply length_insert|].
  intros b tb Hb. simpl.
  destruct (decide (a = b)) as [->|Hne].
  - exists t'. split.
    + apply list_lookup_insert_eq. by eapply lookup_lt_Some.
    + rewrite Ha in Hb. injection Hb as <-.
      by rewrite !container_truthy.
  - exists tb. split; [|done]. by rewrite list_lookup_insert_ne.
Qed.

Lemma bind_paths_effect fieldName u index paths s s' r :
  bind_paths fieldName u index paths s = (s', r) → same_but_objects s s'.
Proof.
  revert index s. induction paths as [|p paths IH]; intros index s; simpl.
  - intros [= <- _]. apply same_but_objects_refl.
  - destruct p; try (intros [= <- _]; apply same_but_objects_refl).
    destruct (operationsPath_set s0 u s) as [s1|] eqn:Hset.
    + intros Hrest. eapply same_but_objects_trans.
      * eapply operationsPath_set_effect, Hset.
      * eapply IH, Hrest.
    + intros [= <- _]. apply same_but_objects_refl.
Qed.

Lemma binder_step_refl s : binder_step s s.
Proof.
  split; [exists 0; simpl; by rewrite app_nil_r|].
  repeat split; eauto.
Qed.

Lemma bind_entries_effect mapEntries s s' r :
  bind_entries mapEntries s = (s', r) → binder_step s s'.
Proof.
  revert s. induction mapEntries as [|[fieldName paths] rest IH]; intros s; simpl.
  - intros [= <- _]. apply binder_step_refl.
  - destruct paths; try (intros [= <- _]; apply binder_step_refl).
    destruct (bind_paths fieldName (length (uploads s)) 0 items (add_upload fieldName s))
      as [s1 r1] eqn:Hpaths.
    apply bind_paths_effect in Hpaths as (E1 & L1 & T1).
    assert (binder_step s s1) as Hs1.
    { rewrite E1. split; [by exists 1|]. simpl.
      repeat split; eauto. }
    destruct r1 as [e|].
    + intros [= <- _]. exact Hs1.
    + intros Hrest. apply IH in Hrest.
      destruct Hs1 as ((n1 & U1) & M1 & ? & ? & ? & ? & ? & ? & ? & ? & O1).
      destruct Hrest as ((n2 & U2) & M2 & ? & ? & ? & ? & ? & ? & ? & ? & O2).
      split.
      { exists (n1 + n2). rewrite U2, U1, <- app_assoc. f_equal.
        by rewrite replicate_add. }
      repeat split; try congruence; [auto|].
      intros a t Ha. destruct (O1 a t Ha) as (t1 & Ha1 & Ht1).
      destruct (O2 a t1 Ha1) as (t2 & Ha2 & Ht2). exists t2. split; congruence.
Qed.

(** ** How one event moves a placeholder *)

Lemma uploads_move_same s s' :
  uploads s' = uploads s → uploads_move s s'.
Proof.
  intros E. split; [by rewrite E|].
  intros u up' Hu. left. unfold old_upload. rewrite <- E, Hu. reflexivity.
Qed.

Lemma exit_uploads_move error b s x :
  length (uploads s) ≤ length (uploads x) →
  (∀ u up, uploads x !! u = Some up → up = old_upload s u) →
  uploads_move s (exit error b x).
Proof.
  intros Hlen Hold. split.
  - destruct (exit_frame error b x) as (_ & _ & _ & _ & _ & _ & ->). exact Hlen.
  - intros u up' Hu.
    destruct (uploads x !! u) as [up|] eqn:Hx.
    + rewrite <- (Hold u up Hx).
      unfold exit in *. destruct (exitError x) eqn:Hex.
      * left. congruence.
      * simpl in Hu. unfold sweep_map in Hu. simpl in Hu.
        destruct (map x) as [m|]; [|left; congruence].
        destruct (sweep_lookup_any error (Map_values m) _ _ _ Hx) as [H|H];
          rewrite H in Hu; injection Hu as <-; [by left|].
        right. right. exists error. split; [done|]. left. simpl. eauto.
    + apply lookup_ge_None in Hx. apply lookup_lt_Some in Hu.
      destruct (exit_frame error b x) as (_ & _ & _ & _ & _ & _ & Hl). lia.
Qed.

Lemma exit_same_uploads_move error b s x :
  uploads x = uploads s → uploads_move s (exit error b x).
Proof.
  intros E. apply exit_uploads_move; [by rewrite E|].
  intros u up Hu. unfold old_upload. by rewrite <- E, Hu.
Qed.

Lemma binder_step_old mapEntries s s0 s' r :
  uploads s0 = uploads s →
  bind_entries mapEntries s0 = (s', r) →
  length (uploads s) ≤ length (uploads s')
  ∧ ∀ u up, uploads s' !! u = Some up → up = old_upload s u.
Proof.
  intros E Hbind. apply bind_entries_effect in Hbind as ((n & U) & _).
  rewrite E in U. split.
  - rewrite U, length_app. lia.
  - intros u up Hu. unfold old_upload. rewrite U in Hu.
    apply lookup_app_Some in Hu as [Hu|[Hge Hu]].
    + by rewrite Hu.
    + apply lookup_replicate in Hu as [-> _].
      by rewrite (proj2 (lookup_ge_None _ _) Hge).
Qed.

Lemma on_field_uploads_move opts fieldName value truncated s :
  uploads_move s (on_field opts fieldName value truncated s).
Proof.
  unfold on_field. destruct truncated; [by apply exit_same_uploads_move|].
  destruct (String.eqb fieldName "operations").
  { unfold on_operations. destruct value as [j|]; [|by apply exit_same_uploads_move].
    destruct (negb (typeof_object (embed j)) || negb (truthy (embed j)));
      [by apply exit_same_uploads_move | by apply uploads_move_same]. }
  destruct (String.eqb fieldName "map"); [|by apply uploads_move_same].
  unfold on_map.
  destruct (operations_truthy s) as [a|]; [|by apply exit_same_uploads_move].
  destruct value as [parsedMap|]; [|by apply exit_same_uploads_move].
  destruct (negb (json_typeof_object parsedMap) || negb (json_truthy parsedMap)
            || json_isArray parsedMap); [by apply exit_same_uploads_move|].
  destruct (exceeds _ _); [by apply exit_same_uploads_move|].
  destruct (bind_entries (Object_entries parsedMap) (with_map (Some []) s))
    as [s' r] eqn:Hbind.
  destruct (binder_step_old _ s (with_map (Some []) s) _ _ eq_refl Hbind) as [Hlen Hold].
  destruct r as [e|].
  - by apply exit_uploads_move.
  - split; [exact Hlen|]. intros u up' Hu. left. by apply Hold.
Qed.

Lemma on_file_uploads_move fieldName name enc mime s :
  uploads_move s (on_file fieldName name enc mime s).
Proof.
  unfold on_file. destruct (map s) as [m|]; [|by apply exit_same_uploads_move].
  destruct (Map_get fieldName m) as [u0|]; [|by apply uploads_move_same].
  split; [simpl; by rewrite length_alter|].
  intros u up' Hu. simpl in Hu. unfold old_upload.
  destruct (decide (u0 = u)) as [->|Hne].
  - rewrite list_lookup_alter_eq in Hu.
    destruct (uploads s !! u) as [up|]; [|discriminate].
    injection Hu as <-. right. left. eauto.
  - rewrite list_lookup_alter_ne in Hu by done. rewrite Hu. by left.
Qed.

Lemma on_finish_uploads_move s : uploads_move s (on_finish s).
Proof.
  unfold on_finish. destruct (finishSeen (io s)); [by apply uploads_move_same|].
  destruct (operations_truthy (mark see_finish s));
    [|by apply exit_same_uploads_move].
  destruct (map (mark see_finish s)) as [m|] eqn:Hm;
    [|by apply exit_same_uploads_move].
  split; [simpl; by rewrite length_sweep|].
  intros u up' Hu. simpl in Hu. unfold old_upload.
  destruct (uploads s !! u) as [up|] eqn:Hx.
  - destruct (sweep_lookup_any (createError 400 FileMissing) (Map_values m) _ _ _ Hx)
      as [H|H]; rewrite H in Hu; injection Hu as <-; [by left|].
    right. right. eexists. split; [reflexivity|]. by right.
  - apply lookup_ge_None in Hx. apply lookup_lt_Some in Hu.
    rewrite length_sweep in Hu. lia.
Qed.

Lemma handle_uploads_move opts ev s : uploads_move s (handle opts ev s).
Proof.
  destruct ev; simpl.
  - apply on_field_uploads_move.
  - apply on_file_uploads_move.
  - by apply uploads_move_same.
  - by apply uploads_move_same.
  - by apply uploads_move_same.
  - unfold on_filesLimit. destruct (filesLimitSeen (io s));
      [by apply uploads_move_same | by apply exit_same_uploads_move].
  - apply on_finish_uploads_move.
  - by apply exit_same_uploads_move.
  - unfold on_response_close. destruct (responseCloseSeen (io s));
      [by apply uploads_move_same|].
    simpl. destruct (map s); by apply uploads_move_same.
  - unfold on_request_close. destruct (requestCloseSeen (io s));
      [by apply uploads_move_same|].
    destruct readableEnded; simpl;
      [by apply uploads_move_same | by apply exit_same_uploads_move].
Qed.

(** ** Steps that do not exit *)

Lemma exit_not_None error b x : exitError (exit error b x) = None → False.
Proof. rewrite exit_exitError. discriminate. Qed.

Lemma binder_step_truthy s s' a :
  binder_step s s' → operations_truthy s = Some a → operations_truthy s' = Some a.
Proof.
  intros (_ & _ & _ & _ & Hops & _ & _ & _ & _ & _ & Hobj).
  unfold operations_truthy. rewrite Hops.
  destruct (operations s) as [b|]; [|discriminate].
  destruct (objects s !! b) as [t|] eqn:Hb; [|discriminate].
  destruct (Hobj b t Hb) as (t' & -> & ->). done.
Qed.

Lemma control_same_truthy s s' :
  control_same s s' → operations_truthy s' = operations_truthy s.
Proof. intros (Ho & Hp & _). unfold operations_truthy. by rewrite Ho, Hp. Qed.

(** A step after which no error is recorded started without one, and
    either left the deciding variables alone, accepted an [operations]
    value, or bound a [map]. *)
Lemma handle_control opts ev s :
  exitError (handle opts ev s) = None →
  exitError s = None
  ∧ (control_same s (handle opts ev s)
     ∨ (map (handle opts ev s) = map s
        ∧ result (handle opts ev s) = result s
        ∧ is_Some (operations_truthy (handle opts ev s)))
     ∨ (∃ a, operations_truthy s = Some a
           ∧ is_Some (map (handle opts ev s))
           ∧ result (handle opts ev s) = resolve_promise a (result s)
           ∧ operations_truthy (handle opts ev s) = Some a)).
Proof.
  assert (∀ x, control_same x x) as Hrefl by (intros x; by repeat split).
  destruct ev; simpl.
  - unfold on_field. destruct valueTruncated.
    { intros H. by apply exit_not_None in H. }
    destruct (String.eqb fieldName "operations").
    { unfold on_operations. destruct value as [j|].
      2:{ intros H. by apply exit_not_None in H. }
      destruct (negb (typeof_object (embed j)) || negb (truthy (embed j))) eqn:Hj.
      { intros H. by apply exit_not_None in H. }
      simpl. intros H. split; [exact H|]. right. left.
      repeat split. unfold operations_truthy. simpl.
      rewrite list_lookup_middle by done.
      apply orb_false_elim in Hj as [_ Hj]. apply negb_false_iff in Hj.
      rewrite Hj. eauto. }
    destruct (String.eqb fieldName "map"); [|by eauto].
    unfold on_map.
    destruct (operations_truthy s) as [a|] eqn:Hops.
    2:{ intros H. by apply exit_not_None in H. }
    destruct value as [parsedMap|].
    2:{ intros H. by apply exit_not_None in H. }
    destruct (negb (json_typeof_object parsedMap) || negb (json_truthy parsedMap)
              || json_isArray parsedMap).
    { intros H. by apply exit_not_None in H. }
    destruct (exceeds _ _).
    { intros H. by apply exit_not_None in H. }
    destruct (bind_entries (Object_entries parsedMap) (with_map (Some []) s))
      as [s' r] eqn:Hbind.
    destruct r as [e|].
    { intros H. by apply exit_not_None in H. }
    apply bind_entries_effect in Hbind as Hstep.
    simpl. intros H.
    pose proof Hstep as (_ & Hmap & _ & Hex & _ & _ & _ & Hres & _).
    simpl in Hex, Hres.
    split; [by rewrite <- Hex|]. right. right. exists a.
    repeat split.
    + apply Hmap. simpl. eauto.
    + by rewrite Hres.
    + pose proof (binder_step_truthy _ _ a Hstep Hops) as Ht.
      unfold operations_truthy in *. simpl. exact Ht.
  - unfold on_file. destruct (map s) as [m|] eqn:Hm.
    2:{ intros H. by apply exit_not_None in H. }
    destruct (Map_get fieldName m); simpl; intros H; (split; [exact H|]);
      left; by repeat split.
  - intros H. split; [exact H|]. left. by repeat split.
  - intros H. split; [exact H|]. left. by repeat split.
  - intros H. split; [exact H|]. left. by repeat split.
  - unfold on_filesLimit. destruct (filesLimitSeen (io s)); [by eauto|].
    intros H. by apply exit_not_None in H.
  - unfold on_finish. destruct (finishSeen (io s)); [by eauto|].
    destruct (operations_truthy (mark see_finish s)).
    2:{ intros H. by apply exit_not_None in H. }
    destruct (map (mark see_finish s)) as [m|] eqn:Hm.
    2:{ intros H. by apply exit_not_None in H. }
    simpl. intros H. split; [exact H|]. left. by repeat split.
  - intros H. by apply exit_not_None in H.
  - unfold on_response_close. destruct (responseCloseSeen (io s)); [by eauto|].
    simpl. destruct (map s); simpl; intros H; (split; [exact H|]);
      left; by repeat split.
  - unfold on_request_close. destruct (requestCloseSeen (io s)); [by eauto|].
    destruct readableEnded; simpl.
    + intros H. split; [exact H|]. left. by repeat split.
    + intros H. by apply exit_not_None in H.
Qed.

Lemma exit_finishSeen error b x :
  finishSeen (io (exit error b x)) = finishSeen (io x).
Proof. unfold exit. by destruct (exitError x). Qed.

(** Once the [finish] listener has run it stays marked. *)
Lemma handle_finishSeen opts ev s :
  finishSeen (io (handle opts ev s)) = false → finishSeen (io s) = false.
Proof.
  destruct ev; simpl; try done.
  - unfold on_field. destruct valueTruncated; [by rewrite exit_finishSeen|].
    destruct (String.eqb fieldName "operations").
    { unfold on_operations. destruct value as [j|]; [|by rewrite exit_finishSeen].
      destruct (_ || _); [by rewrite exit_finishSeen | done]. }
    destruct (String.eqb fieldName "map"); [|done].
    unfold on_map. destruct (operations_truthy s); [|by rewrite exit_finishSeen].
    destruct value as [parsedMap|]; [|by rewrite exit_finishSeen].
    destruct (_ || _); [by rewrite exit_finishSeen|].
    destruct (exceeds _ _); [by rewrite exit_finishSeen|].
    destruct (bind_entries _ _) as [s' r] eqn:Hbind.
    apply bind_entries_effect in Hbind as (_ & _ & _ & _ & _ & _ & _ & _ & Hio & _).
    destruct r; [rewrite exit_finishSeen|simpl]; by rewrite Hio.
  - unfold on_file. destruct (map s) as [m|]; [|by rewrite exit_finishSeen].
    by destruct (Map_get fieldName m).
  - unfold on_filesLimit. destruct (filesLimitSeen (io s)); [done|].
    by rewrite exit_finishSeen.
  - unfold on_finish. destruct (finishSeen (io s)) eqn:E; [congruence | done].
  - unfold on_parser_error. by rewrite exit_finishSeen.
  - unfold on_response_close. destruct (responseCloseSeen (io s)); [done|].
    simpl. by destruct (map s).
  - unfold on_request_close. destruct (requestCloseSeen (io s)); [done|].
    destruct readableEnded; simpl; [done | by rewrite exit_finishSeen].
Qed.

(** ** An invariant of every request *)

Lemma request_inv_initial : request_inv initial.
Proof.
  repeat split; simpl; try done; intros _ []; discriminate.
Qed.

Lemma old_upload_cases s u :
  (∃ up, uploads s !! u = Some up ∧ old_upload s u = up)
  ∨ (uploads s !! u = None ∧ old_upload s u = new_Upload).
Proof. unfold old_upload. destruct (uploads s !! u); eauto. Qed.

Lemma request_inv_step opts ev s : request_inv s → request_inv (handle opts ev s).
Proof.
  intros (I1 & I2 & I3 & I4 & I5).
  destruct (handle_uploads_move opts ev s) as [_ Hmove].
  split; [|split; [|split; [|split]]].
  - intros u up' Hu Hfile.
    destruct (Hmove u up' Hu) as [->|[(f & ->)|(e & -> & _)]].
    + destruct (old_upload_cases s u) as [(up & Hup & Hold)|[_ Hnew]];
        [rewrite Hold in *; by apply (I1 u)|].
      rewrite Hnew in Hfile. by destruct Hfile.
    + simpl. by destruct (promise (old_upload s u)).
    + rewrite reject_unless_file_file in Hfile.
      destruct (old_upload_cases s u) as [(up & Hup & Hold)|[_ Hnew]].
      * rewrite Hold in *. rewrite reject_unless_file_settled; by apply (I1 u).
      * rewrite Hnew in Hfile. by destruct Hfile.
  - intros Hnone Hfin u up' Hu Hfile.
    destruct (handle_control opts ev s Hnone) as [Hnone0 _].
    apply handle_finishSeen in Hfin as Hfin0.
    destruct (Hmove u up' Hu) as [->|[(f & ->)|(e & -> & [Hex|Hf])]].
    + destruct (old_upload_cases s u) as [(up & Hup & Hold)|[_ Hnew]].
      * rewrite Hold in *. by apply (I2 Hnone0 Hfin0 u).
      * by rewrite Hnew.
    + discriminate.
    + rewrite Hnone in Hex. by destruct Hex.
    + congruence.
  - intros Hnone Hmap.
    destruct (handle_control opts ev s Hnone) as [Hnone0 [Hc|[Hc|Hc]]].
    + destruct Hc as (_ & _ & Hm & ->). apply I3; congruence.
    + destruct Hc as (Hm & -> & _). apply I3; congruence.
    + destruct Hc as (a & _ & Hsome & _). rewrite Hmap in Hsome. by destruct Hsome.
  - intros Hnone Hmap.
    destruct (handle_control opts ev s Hnone) as [Hnone0 [Hc|[Hc|Hc]]].
    + destruct Hc as (_ & _ & Hm & ->). apply I4; congruence.
    + destruct Hc as (Hm & -> & _). apply I4; congruence.
    + destruct Hc as (a & _ & _ & -> & _).
      destruct (map s) as [m|] eqn:Hm.
      * destruct (I4 Hnone0 (ltac:(eauto))) as (a' & ->). simpl. eauto.
      * rewrite (I3 Hnone0 eq_refl). simpl. eauto.
  - intros Hnone Hmap.
    destruct (handle_control opts ev s Hnone) as [Hnone0 [Hc|[Hc|Hc]]].
    + rewrite (control_same_truthy _ _ Hc). destruct Hc as (_ & _ & Hm & _).
      apply I5; congruence.
    + by destruct Hc as (_ & _ & ?).
    + destruct Hc as (a & _ & _ & _ & ->). eauto.
Qed.

Lemma run_snoc opts s trace ev :
  run opts s (trace ++ [ev]) = handle opts ev (run opts s trace).
Proof. unfold run. by rewrite fold_left_app. Qed.

Lemma request_inv_run opts s trace : request_inv s → request_inv (run opts s trace).
Proof.
  intros HI. induction trace as [|ev trace IH] using rev_ind; [exact HI|].
  rewrite run_snoc. by apply request_inv_step.
Qed.

Lemma request_inv_processRequest opts trace : request_inv (processRequest opts trace).
Proof. apply request_inv_run, request_inv_initial. Qed.

(** ** C3: field ordering *)

(** C3 (as amended). In every request, as long as no fatal error has been
    recorded: a [map] field that arrives before [operations] has been
    classified, and whose value was not truncated, rejects the overall result
    with the 400 misordered-[map] error (a truncated one rejects it with the
    413 field-size error instead); a file part that arrives before [map] has
    been classified has its stream drained and rejects the overall result
    with the 400 misordered-files error. *)
Theorem field_order_enforced (opts : ProcessRequestOptions) (trace : list event) :
  let s := processRequest opts trace in
  exitError s = None →
  (operations_truthy s = None →
   ∀ value,
     let s' := handle opts (Field "map" value false) s in
     let s413 := handle opts (Field "map" value true) s in
     exitError s' = Some (createError 400 MisorderedMap)
     ∧ result s' = Rejected (createError 400 MisorderedMap)
     ∧ result s413 = Rejected (createError 413 (FieldTooLarge "map" (maxFieldSize opts))))
  ∧ (map s = None →
     ∀ fieldName name enc mime,
       let s' := handle opts (File fieldName name enc mime) s in
       streams s' = streams s ++ [Ignored]
       ∧ exitError s' = Some (createError 400 MisorderedFiles)
       ∧ result s' = Rejected (createError 400 MisorderedFiles)).
Proof.
  intros s Hnone.
  destruct (request_inv_processRequest opts trace) as (_ & _ & I3 & _ & I5).
  fold s in I3, I5.
  split.
  - intros Hops value s' s413. subst s' s413.
    assert (map s = None) as Hmap.
    { destruct (map s) eqn:Hm; [|done].
      destruct (I5 Hnone (ltac:(eauto))) as [a Ha]. congruence. }
    pose proof (I3 Hnone Hmap) as Hpend.
    simpl. unfold on_field. simpl. unfold on_map. rewrite Hops.
    rewrite !exit_result, !exit_exitError, Hnone, Hpend by done. done.
  - intros Hmap fieldName name enc mime s'. subst s'.
    pose proof (I3 Hnone Hmap) as Hpend.
    simpl. unfold on_file. rewrite Hmap.
    destruct (exit_frame (createError 400 MisorderedFiles) false (ignoreStream s))
      as (_ & _ & _ & _ & Hs & _).
    rewrite Hs, exit_result, exit_exitError by done. simpl.
    by rewrite Hnone, Hpend.
Qed.

Lemma field_order_enforced_witness :
  result (handle default_options (Field "map" (Some sample_map) false)
            (processRequest default_options []))
  = Rejected (createError 400 MisorderedMap).
Proof.
  pose proof (field_order_enforced default_options [] eq_refl) as [H _].
  destruct (H eq_refl (Some sample_map)) as (_ & Hr & _). exact Hr.
Defined.

(** C3 as stated fails on a [map] field that arrives first with a truncated
    value: the error is the 413 field-size error, a different kind. *)
Lemma truncated_map_rejected_413 :
  let s := processRequest default_options [Field "map" (Some sample_map) true] in
  result s = Rejected (createError 413 (FieldTooLarge "map" (Finite 1000000)))
  ∧ result s ≠ Rejected (createError 400 MisorderedMap).
Proof. vm_compute. split; congruence. Qed.

(** ** C10: the form finishes *)

(** C10. When the form finishes in a request where no fatal error has been
    recorded: without a classified [operations] the overall result rejects
    with the 400 missing-[operations] error; else without a classified [map]
    it rejects with the 400 missing-[map] error; else the overall result is
    resolved and stays as it is, no error is recorded, every placeholder of
    the table without a file is rejected with the 400 file-missing error,
    and every placeholder with a file is untouched. *)
Theorem finish_outcomes (opts : ProcessRequestOptions) (trace : list event) :
  let s := processRequest opts trace in
  let s' := handle opts Finish s in
  exitError s = None →
  finishSeen (io s) = false →
  (operations_truthy s = None →
     result s' = Rejected (createError 400 MissingOperations))
  ∧ (is_Some (operations_truthy s) → map s = None →
     result s' = Rejected (createError 400 MissingMap))
  ∧ (is_Some (operations_truthy s) → ∀ m, map s = Some m →
     exitError s' = None
     ∧ (∃ a, result s = Fulfilled a)
     ∧ result s' = result s
     ∧ objects s' = objects s
     ∧ streams s' = streams s
     ∧ ∀ fieldName u up,
         Map_get fieldName m = Some u → uploads s !! u = Some up →
         match file up with
         | None =>
             uploads s' !! u
             = Some {| file := None; promise := Rejected (createError 400 FileMissing) |}
         | Some _ => uploads s' !! u = Some up
         end).
Proof.
  intros s s' Hnone Hfin. subst s'.
  destruct (request_inv_processRequest opts trace) as (I1 & I2 & I3 & I4 & I5).
  fold s in I1, I2, I3, I4, I5.
  simpl. unfold on_finish. rewrite Hfin.
  replace (operations_truthy (mark see_finish s)) with (operations_truthy s) by done.
  replace (map (mark see_finish s)) with (map s) by done.
  split; [|split].
  - intros Hops. rewrite Hops.
    assert (map s = None) as Hmap.
    { destruct (map s) eqn:Hm; [|done].
      destruct (I5 Hnone (ltac:(eauto))) as [a Ha]. congruence. }
    rewrite exit_result by done. simpl. by rewrite (I3 Hnone Hmap).
  - intros [a Hops] Hmap. rewrite Hops, Hmap.
    rewrite exit_result by done. simpl. by rewrite (I3 Hnone Hmap).
  - intros [a Hops] m Hmap. rewrite Hops, Hmap. simpl.
    split; [done|]. split; [apply I4; eauto|]. repeat split.
    intros fieldName u up Hget Hu.
    rewrite sweep_lookup by (eapply assoc_values; exact Hget).
    rewrite Hu. simpl. unfold reject_unless_file.
    destruct (file up) eqn:Hf; [done|].
    unfold Upload_reject. rewrite Hf.
    by rewrite (I2 Hnone Hfin u up Hu Hf).
Qed.

Lemma finish_outcomes_witness :
  uploads (handle default_options Finish (processRequest default_options bound_trace)) !! 0
  = Some {| file := None; promise := Rejected (createError 400 FileMissing) |}.
Proof.
  pose proof (finish_outcomes default_options bound_trace eq_refl eq_refl) as (_ & _ & H).
  destruct (H (ex_intro _ 0 eq_refl) [("0", 0)] eq_refl) as (_ & _ & _ & _ & _ & Hu).
  exact (Hu "0" 0 new_Upload eq_refl eq_refl).
Defined.

(** ** Events other than fields *)

Lemma exit_table error b x :
  map (exit error b x) = map x
  ∧ objects (exit error b x) = objects x
  ∧ operations (exit error b x) = operations x
  ∧ length (uploads (exit error b x)) = length (uploads x).
Proof. destruct (exit_frame error b x) as (? & ? & ? & ? & ? & ? & ?). done. Qed.

Ltac exit_table_tac :=
  match goal with
  | |- context [exit ?e ?b ?x] =>
      let E1 := fresh in let E2 := fresh in let E3 := fresh in let E4 := fresh in
      destruct (exit_table e b x) as (E1 & E2 & E3 & E4);
      rewrite ?E1, ?E2, ?E3, ?E4; simpl; repeat split; congruence
  end.

(** Only a field changes the table, the operations documents or the number
    of placeholders. *)
Lemma nonfield_frame opts ev s :
  is_field ev = false →
  map (handle opts ev s) = map s
  ∧ objects (handle opts ev s) = objects s
  ∧ operations (handle opts ev s) = operations s
  ∧ length (uploads (handle opts ev s)) = length (uploads s).
Proof.
  destruct ev; simpl; try discriminate; intros _; try done.
  - unfold on_file. destruct (map s) as [m|] eqn:Hm; rewrite <- ?Hm.
    + destruct (Map_get fieldName m); simpl; repeat split; try done.
      by rewrite length_alter.
    + exit_table_tac.
  - unfold on_filesLimit. destruct (filesLimitSeen (io s)); [done|]. exit_table_tac.
  - unfold on_finish. destruct (finishSeen (io s)); [done|].
    destruct (operations_truthy _); [|exit_table_tac].
    destruct (map (mark see_finish s)) eqn:Hm; [|exit_table_tac].
    simpl in *. repeat split; try done. by rewrite length_sweep.
  - unfold on_parser_error. exit_table_tac.
  - unfold on_response_close. destruct (responseCloseSeen (io s)); [done|].
    simpl. destruct (map s) eqn:Hm; simpl; by rewrite ?Hm.
  - unfold on_request_close. destruct (requestCloseSeen (io s)); [done|].
    destruct readableEnded; simpl; [done|]. exit_table_tac.
Qed.

(** ** The table covers every placeholder *)

Lemma assoc_set_fresh (k : string) (u : nat) (m : list (string * nat)) :
  k ∉ m.*1 → assoc_set k u m = m ++ [(k, u)].
Proof.
  induction m as [|[k' v] m IH]; simpl; [done|].
  intros Hk. apply not_elem_of_cons in Hk as [Hne Hk].
  apply String.eqb_neq in Hne. rewrite Hne. by rewrite IH.
Qed.

Lemma bind_entries_table mapEntries s m s' r :
  map s = Some m →
  Map_values m = seq 0 (length (uploads s)) →
  NoDup (m.*1 ++ mapEntries.*1) →
  bind_entries mapEntries s = (s', r) →
  ∃ m', map s' = Some m' ∧ Map_values m' = seq 0 (length (uploads s')).
Proof.
  revert s m. induction mapEntries as [|[fieldName paths] rest IH]; intros s m Hm Hval Hnd; simpl.
  - intros [= <- _]. eauto.
  - destruct paths; try (intros [= <- _]; eauto).
    destruct (bind_paths fieldName (length (uploads s)) 0 items (add_upload fieldName s))
      as [s1 r1] eqn:Hpaths.
    apply bind_paths_effect in Hpaths as (E1 & _ & _).
    assert (fieldName ∉ m.*1) as Hfresh.
    { simpl in Hnd. apply NoDup_app in Hnd as (_ & Hdisj & _).
      intros Hin. apply (Hdisj _ Hin). apply elem_of_cons. by left. }
    assert (map s1 = Some (m ++ [(fieldName, length (uploads s))])) as Hm1.
    { rewrite E1. simpl. unfold add_upload. simpl. rewrite Hm. unfold Map_set.
      by rewrite assoc_set_fresh. }
    assert (uploads s1 = uploads s ++ [new_Upload]) as Hu1 by (by rewrite E1).
    assert (Map_values (m ++ [(fieldName, length (uploads s))]) = seq 0 (length (uploads s1)))
      as Hval1.
    { unfold Map_values in *. rewrite map_app, Hval, Hu1, length_app. simpl.
      rewrite Nat.add_1_r. by rewrite seq_S. }
    destruct r1 as [e|].
    + intros [= <- _]. eauto.
    + apply (IH s1 _ Hm1 Hval1).
      rewrite fmap_app. simpl. simpl in Hnd. by rewrite <- app_assoc.
Qed.

Lemma table_covers s m :
  map s = Some m → Map_values m = seq 0 (length (uploads s)) → covers s.
Proof.
  intros Hm Hval u Hu. exists m. split; [done|].
  rewrite Hval. apply elem_of_seq. lia.
Qed.




(** ** Requests that respect the tokenizer's [fields: 2] limit *)




Lemma operations_truthy_is_Some s a :
  operations_truthy s = Some a → operations s = Some a.
Proof.
  unfold operations_truthy. destruct (operations s) as [b|]; [|discriminate].
  destruct (objects s !! b); [|discriminate]. destruct (truthy t); congruence.
Qed.

(** Binding a map in a state without a table. *)
Lemma bind_fresh_table parsedMap s s0 r a :
  uploads s = [] →
  NoDup (Object_entries parsedMap).*1 →
  operations_truthy s = Some a →
  bind_entries (Object_entries parsedMap) (with_map (Some []) s) = (s0, r) →
  covers s0 ∧ files_settled s0 ∧ is_Some (map s0)
  ∧ operations_truthy s0 = Some a ∧ exitError s0 = exitError s.
Proof.
  intros Hu Hnd Hops Hbind.
  destruct (bind_entries_table (Object_entries parsedMap) (with_map (Some []) s) [] s0 r
              eq_refl) as (m' & Hm' & Hval);
    [by simpl; rewrite Hu | exact Hnd | exact Hbind |].
  pose proof (bind_entries_effect _ _ _ _ Hbind) as Hstep.
  pose proof (binder_step_truthy (with_map (Some []) s) s0 a Hstep Hops) as Ht.
  destruct Hstep as ((k & Hup) & _ & _ & Hex & _).
  split; [by eapply table_covers|]. split; [|split; [eauto|split; [exact Ht|exact Hex]]].
  intros u up Hlook Hfile. simpl in Hup. rewrite Hup, Hu in Hlook. simpl in Hlook.
  apply lookup_replicate in Hlook as [-> _]. by destruct Hfile.
Qed.





(** ** The shape of a step: at most one call of [exit] *)

Ltac exit_shape :=
  left; eexists _, _, _; split; [reflexivity|]; simpl; repeat split; congruence.

Lemma handle_shape opts ev s :
  (∃ e b x, handle opts ev s = exit e b x
            ∧ uploads x = uploads s ∧ map x = map s ∧ exitError x = exitError s)
  ∨ exitError (handle opts ev s) = exitError s
  ∨ (∃ fieldName parsedMap a s0 e,
       ev = Field fieldName (Some parsedMap) false
       ∧ operations_truthy s = Some a
       ∧ bind_entries (Object_entries parsedMap) (with_map (Some []) s) = (s0, Some e)
       ∧ handle opts ev s = exit e false s0).
Proof.
  destruct ev; simpl.
  - unfold on_field. destruct valueTruncated; [exit_shape|].
    destruct (String.eqb fieldName "operations").
    { unfold on_operations. destruct value as [j|]; [|exit_shape].
      destruct (_ || _); [exit_shape | right; by left]. }
    destruct (String.eqb fieldName "map"); [|right; by left].
    unfold on_map. destruct (operations_truthy s) as [a|] eqn:Hops;
      [|exit_shape].
    destruct value as [parsedMap|]; [|exit_shape].
    destruct (_ || _); [exit_shape|].
    destruct (exceeds _ _); [exit_shape|].
    destruct (bind_entries _ _) as [s0 r] eqn:Hbind.
    destruct r as [e|].
    + right. right. by exists fieldName, parsedMap, a, s0, e.
    + right. left. simpl.
      by apply bind_entries_effect in Hbind as (_ & _ & _ & -> & _).
  - unfold on_file. destruct (map s) as [m|] eqn:Hm.
    + right. left. by destruct (Map_get fieldName m).
    + exit_shape.
  - right. by left.
  - right. by left.
  - right. by left.
  - unfold on_filesLimit. destruct (filesLimitSeen (io s));
      [right; by left | exit_shape].
  - unfold on_finish. destruct (finishSeen (io s)); [right; by left|].
    destruct (operations_truthy _); [|exit_shape].
    destruct (map (mark see_finish s)) eqn:Hm; [right; by left | exit_shape].
  - exit_shape.
  - unfold on_response_close. destruct (responseCloseSeen (io s)); [right; by left|].
    right. left. simpl. by destruct (map s).
  - unfold on_request_close. destruct (requestCloseSeen (io s)); [right; by left|].
    destruct readableEnded; simpl; [right; by left | exit_shape].
Qed.


(** ** Reading back what was set at a path *)

Lemma assoc_set_eq {A} (k : string) (v : A) l : assoc k (assoc_set k v l) = Some v.
Proof.
  induction l as [|[k' v'] l IH]; simpl.
  - by rewrite String.eqb_refl.
  - destruct (String.eqb k k') eqn:E; simpl.
    + by rewrite String.eqb_refl.
    + by rewrite E.
Qed.

Lemma assoc_set_ne {A} (k k' : string) (v : A) l :
  k' ≠ k → assoc k' (assoc_set k v l) = assoc k' l.
Proof.
  intros Hne. induction l as [|[k0 v0] l IH]; simpl.
  - apply String.eqb_neq in Hne. by rewrite Hne.
  - destruct (String.eqb k k0) eqn:E; simpl.
    + apply String.eqb_eq in E as <-.
      apply String.eqb_neq in Hne. by rewrite Hne.
    + by rewrite IH.
Qed.

Lemma array_index_spelling seg i : array_index seg = Some i → pretty i = seg.
Proof.
  unfold array_index. destruct (String.eqb _ seg) eqn:E; [|discriminate].
  intros [= <-]. by apply String.eqb_eq.
Qed.

Lemma get_set_member seg v t t' :
  set_member seg v t = Some t' → get_member seg t' = Some v.
Proof.
  destruct t; simpl; try discriminate.
  - destruct (array_index seg) as [i|] eqn:Hi; [|discriminate].
    destruct (i <? length items) eqn:Hlt; [|discriminate].
    intros [= <-]. simpl. rewrite Hi.
    apply list_lookup_insert_eq. by apply Nat.ltb_lt.
  - intros [= <-]. simpl. apply assoc_set_eq.
Qed.

Lemma get_set_member_ne seg seg' v t t' :
  set_member seg v t = Some t' → seg' ≠ seg → get_member seg' t' = get_member seg' t.
Proof.
  destruct t; simpl; try discriminate.
  - destruct (array_index seg) as [i|] eqn:Hi; [|discriminate].
    destruct (i <? length items); [|discriminate].
    intros [= <-] Hne. simpl.
    destruct (array_index seg') as [i'|] eqn:Hi'; [|done].
    apply list_lookup_insert_ne. intros ->.
    apply array_index_spelling in Hi, Hi'. congruence.
  - intros [= <-] Hne. simpl. by apply assoc_set_ne.
Qed.

Lemma get_set_segments segs v t t' :
  set_segments segs v t = Some t' → get_segments segs t' = Some v.
Proof.
  revert t t'. induction segs as [|seg [|seg2 rest] IH]; intros t t'.
  - discriminate.
  - simpl. intros H. by rewrite (get_set_member _ _ _ _ H).
  - rewrite set_segments_cons.
    destruct (get_member seg t) as [child|]; [|discriminate].
    destruct (set_segments (seg2 :: rest) v child) as [child'|] eqn:Hc; [|discriminate].
    intros H. change (get_segments (seg :: seg2 :: rest) t')
      with (match get_member seg t' with
            | Some c => get_segments (seg2 :: rest) c
            | None => None
            end).
    rewrite (get_set_member _ _ _ _ H). by apply (IH child).
Qed.

(** A later write leaves a placeholder where it is, unless the later path
    is the placeholder's path or a prefix of it. *)
Lemma get_set_segments_frame q p v t t' u :
  set_segments q v t = Some t' →
  get_segments p t = Some (TUpload u) →
  ¬ q `prefix_of` p →
  get_segments p t' = Some (TUpload u).
Proof.
  revert p t t'. induction q as [|seg [|seg2 rest] IH]; intros p t t' Hset Hget Hpre.
  - discriminate.
  - destruct p as [|seg' p'].
    + simpl in Hget. injection Hget as ->. discriminate.
    + destruct (decide (seg' = seg)) as [->|Hne].
      * destruct Hpre. by exists p'.
      * simpl in *. by rewrite (get_set_member_ne _ _ _ _ _ Hset Hne).
  - rewrite set_segments_cons in Hset.
    destruct (get_member seg t) as [child|] eqn:Hchild; [|discriminate].
    destruct (set_segments (seg2 :: rest) v child) as [child'|] eqn:Hc; [|discriminate].
    destruct p as [|seg' p'].
    + simpl in Hget. injection Hget as ->. discriminate.
    + destruct (decide (seg' = seg)) as [->|Hne].
      * simpl in Hget. rewrite Hchild in Hget.
        simpl. rewrite (get_set_member _ _ _ _ Hset).
        apply (IH p' child child' Hc Hget).
        intros [k ->]. apply Hpre. by exists k.
      * simpl in *. by rewrite (get_set_member_ne _ _ _ _ _ Hset Hne).
Qed.

(** ** Where the map binder writes *)

Lemma operationsPath_set_tree path u s s' a t :
  operationsPath s = Some a → objects s !! a = Some t →
  operationsPath_set path u s = Some s' →
  ∃ t', objectPath_set path (TUpload u) t = Some t'
        ∧ objects s' !! a = Some t'
        ∧ operationsPath s' = Some a
        ∧ uploads s' = uploads s.
Proof.
  intros Hp Ha. unfold operationsPath_set. rewrite Hp, Ha.
  destruct (objectPath_set path (TUpload u) t) as [t'|]; [|discriminate].
  intros [= <-]. exists t'. simpl. repeat split; try done.
  apply list_lookup_insert_eq. by eapply lookup_lt_Some.
Qed.

Lemma bind_paths_frame fieldName u index paths s s' a t p v :
  bind_paths fieldName u index paths s = (s', None) →
  operationsPath s = Some a → objects s !! a = Some t →
  get_segments p t = Some (TUpload v) →
  (∀ i q, paths !! i = Some (JStr q) → ¬ split_path q `prefix_of` p) →
  ∃ t', objects s' !! a = Some t' ∧ get_segments p t' = Some (TUpload v).
Proof.
  revert index s t. induction paths as [|p0 paths IH]; intros index s t; simpl.
  - intros [= <-]. eauto.
  - destruct p0; try discriminate.
    destruct (operationsPath_set s0 u s) as [s1|] eqn:Hset; [|discriminate].
    intros Hrest Hp Ha Hget Hpre.
    destruct (operationsPath_set_tree _ _ _ _ _ _ Hp Ha Hset) as (t1 & Ht1 & Ha1 & Hp1 & _).
    apply (IH _ s1 t1 Hrest Hp1 Ha1).
    + eapply get_set_segments_frame; [exact Ht1 | exact Hget |]. by apply (Hpre 0).
    + intros i q Hi. by apply (Hpre (S i)).
Qed.

Lemma bind_paths_holds fieldName u index paths s s' a t :
  bind_paths fieldName u index paths s = (s', None) →
  operationsPath s = Some a → objects s !! a = Some t →
  ∃ t', objects s' !! a = Some t'
    ∧ ∀ i path, paths !! i = Some (JStr path) →
        (∀ i' q, i < i' → paths !! i' = Some (JStr q) →
                 ¬ split_path q `prefix_of` split_path path) →
        get_segments (split_path path) t' = Some (TUpload u).
Proof.
  revert index s t. induction paths as [|p0 paths IH]; intros index s t; simpl.
  - intros [= <-] _ Ha. exists t. split; [done|]. intros i path Hi. discriminate.
  - destruct p0; try discriminate.
    destruct (operationsPath_set s0 u s) as [s1|] eqn:Hset; [|discriminate].
    intros Hrest Hp Ha.
    destruct (operationsPath_set_tree _ _ _ _ _ _ Hp Ha Hset) as (t1 & Ht1 & Ha1 & Hp1 & _).
    destruct (IH _ s1 t1 Hrest Hp1 Ha1) as (t' & Ha' & Hall).
    exists t'. split; [done|].
    intros [|i] path Hi Hlater.
    + simpl in Hi. injection Hi as ->.
      destruct (bind_paths_frame _ _ _ _ _ _ _ _ (split_path path) u Hrest Hp1 Ha1)
        as (t'' & Ha'' & Hget).
      * eapply get_set_segments. exact Ht1.
      * intros i q Hq. apply (Hlater (S i) q); [lia | done].
      * congruence.
    + apply (Hall i path Hi). intros i' q Hlt Hq.
      apply (Hlater (S i') q); [lia | done].
Qed.

Lemma bind_paths_keeps fieldName u index paths s s' r :
  bind_paths fieldName u index paths s = (s', r) →
  operationsPath s' = operationsPath s ∧ uploads s' = uploads s ∧ map s' = map s.
Proof.
  intros H. apply bind_paths_effect in H as (E & _). by rewrite E.
Qed.

Lemma bind_entries_frame mapEntries s s' a t p v :
  bind_entries mapEntries s = (s', None) →
  operationsPath s = Some a → objects s !! a = Some t →
  get_segments p t = Some (TUpload v) →
  (∀ k fieldName paths i q,
     mapEntries !! k = Some (fieldName, JArr paths) → paths !! i = Some (JStr q) →
     ¬ split_path q `prefix_of` p) →
  ∃ t', objects s' !! a = Some t' ∧ get_segments p t' = Some (TUpload v).
Proof.
  revert s t. induction mapEntries as [|[fieldName paths] rest IH]; intros s t; simpl.
  - intros [= <-]. eauto.
  - destruct paths; try discriminate.
    destruct (bind_paths fieldName (length (uploads s)) 0 items (add_upload fieldName s))
      as [s1 r1] eqn:Hpaths.
    destruct r1 as [e|]; [discriminate|].
    intros Hrest Hp Ha Hget Hpre.
    destruct (bind_paths_frame _ _ _ _ _ _ a t p v Hpaths Hp Ha Hget) as (t1 & Ha1 & Hget1).
    { intros i q Hi. by apply (Hpre 0 fieldName items i q). }
    destruct (bind_paths_keeps _ _ _ _ _ _ _ Hpaths) as (Hp1 & _).
    apply (IH s1 t1 Hrest); [by rewrite Hp1 | done | done |].
    intros k f ps i q Hk Hi. by apply (Hpre (S k) f ps i q).
Qed.

(** After a successful binding, entry [k] has placeholder number
    [length (uploads s) + k], found at each of its paths that no later path
    overwrites. *)
Lemma bind_entries_holds mapEntries s s' a t :
  bind_entries mapEntries s = (s', None) →
  operationsPath s = Some a → objects s !! a = Some t →
  uploads s' = uploads s ++ replicate (length mapEntries) new_Upload
  ∧ ∃ t', objects s' !! a = Some t'
    ∧ ∀ k fieldName paths i path,
        mapEntries !! k = Some (fieldName, JArr paths) → paths !! i = Some (JStr path) →
        (∀ k' fieldName' paths' i' q,
           mapEntries !! k' = Some (fieldName', JArr paths') →
           paths' !! i' = Some (JStr q) →
           k < k' ∨ (k = k' ∧ i < i') →
           ¬ split_path q `prefix_of` split_path path) →
        get_segments (split_path path) t' = Some (TUpload (length (uploads s) + k)).
Proof.
  revert s t. induction mapEntries as [|[fieldName paths] rest IH]; intros s t; simpl.
  - intros [= <-] _ Ha. split; [by rewrite app_nil_r|].
    exists t. split; [done|]. intros k ? ? ? ? Hk. discriminate.
  - destruct paths; try discriminate.
    destruct (bind_paths fieldName (length (uploads s)) 0 items (add_upload fieldName s))
      as [s1 r1] eqn:Hpaths.
    destruct r1 as [e|]; [discriminate|].
    intros Hrest Hp Ha.
    destruct (bind_paths_keeps _ _ _ _ _ _ _ Hpaths) as (Hp1 & Hu1 & _).
    simpl in Hp1, Hu1.
    destruct (bind_paths_holds _ _ _ _ _ _ a t Hpaths Hp Ha) as (t1 & Ha1 & Hfirst).
    destruct (IH s1 t1 Hrest) as (Hu' & t' & Ha' & Hall); [by rewrite Hp1 | done |].
    split.
    { rewrite Hu', Hu1, <- app_assoc. done. }
    exists t'. split; [done|].
    intros [|k] f ps i path Hk Hi Hlater.
    + simpl in Hk. injection Hk as -> ->. rewrite Nat.add_0_r.
      destruct (bind_entries_frame _ _ _ a t1 (split_path path) (length (uploads s)) Hrest)
        as (t'' & Ha'' & Hget); [by rewrite Hp1 | done | | | congruence].
      * apply (Hfirst i path Hi). intros i' q Hlt Hq.
        apply (Hlater 0 f ps i' q); [done | done | right; done].
      * intros k f' ps' i' q Hk Hq.
        apply (Hlater (S k) f' ps' i' q); [done | done | left; lia].
    + rewrite Hu1, length_app in Hall. simpl in Hall.
      replace (length (uploads s) + S k) with (length (uploads s) + 1 + k) by lia.
      apply (Hall k f ps i path Hk Hi).
      intros k' f' ps' i' q Hk' Hq Hord.
      apply (Hlater (S k') f' ps' i' q); [done | done | lia].
Qed.

Lemma assoc_app {A} (k : string) (m l : list (string * A)) :
  assoc k (m ++ l) = match assoc k m with Some v => Some v | None => assoc k l end.
Proof.
  induction m as [|[k' v] m IH]; simpl; [done|]. by destruct (String.eqb k k').
Qed.

Lemma assoc_fresh {A} (k : string) (m : list (string * A)) : k ∉ m.*1 → assoc k m = None.
Proof.
  induction m as [|[k' v] m IH]; simpl; [done|].
  intros Hk. apply not_elem_of_cons in Hk as [Hne Hk].
  apply String.eqb_neq in Hne. rewrite Hne. by apply IH.
Qed.

(** With distinct keys, the table sends the key of entry [k] to placeholder
    number [length (uploads s) + k]. *)
Lemma bind_entries_table_get mapEntries s s' m :
  bind_entries mapEntries s = (s', None) →
  map s = Some m →
  NoDup (m.*1 ++ mapEntries.*1) →
  ∃ m', map s' = Some m'
    ∧ (∀ k fieldName paths, mapEntries !! k = Some (fieldName, paths) →
         Map_get fieldName m' = Some (length (uploads s) + k))
    ∧ (∀ fieldName u, Map_get fieldName m = Some u → Map_get fieldName m' = Some u).
Proof.
  revert s m. induction mapEntries as [|[fieldName paths] rest IH]; intros s m; simpl.
  - intros [= <-] Hm _. exists m. split; [done|]. split; [|done].
    intros k ? ? Hk. discriminate.
  - destruct paths; try discriminate.
    destruct (bind_paths fieldName (length (uploads s)) 0 items (add_upload fieldName s))
      as [s1 r1] eqn:Hpaths.
    destruct r1 as [e|]; [discriminate|].
    intros Hrest Hm Hnd.
    destruct (bind_paths_keeps _ _ _ _ _ _ _ Hpaths) as (_ & Hu1 & Hm1).
    simpl in Hu1, Hm1. rewrite Hm in Hm1.
    assert (fieldName ∉ m.*1) as Hfresh.
    { apply NoDup_app in Hnd as (_ & Hdisj & _).
      intros Hin. apply (Hdisj _ Hin). apply elem_of_cons. by left. }
    unfold Map_set in Hm1. rewrite assoc_set_fresh in Hm1 by done.
    destruct (IH s1 _ Hrest Hm1) as (m' & Hm' & Hnew & Hold).
    { rewrite fmap_app. simpl. by rewrite <- app_assoc. }
    exists m'. split; [done|]. split.
    + intros [|k] f ps Hk.
      * simpl in Hk. injection Hk as <- <-. rewrite Nat.add_0_r.
        apply Hold. unfold Map_get. rewrite assoc_app, assoc_fresh by done.
        simpl. by rewrite String.eqb_refl.
      * rewrite Hu1, length_app in Hnew. simpl in Hnew.
        replace (length (uploads s) + S k) with (length (uploads s) + 1 + k) by lia.
        by apply (Hnew k f ps).
    + intros f u Hget. apply Hold. unfold Map_get in *. by rewrite assoc_app, Hget.
Qed.

Lemma unbound_inv_step opts ev s : unbound_inv s → unbound_inv (handle opts ev s).
Proof.
  intros HI Hnone.
  destruct (handle_control opts ev s Hnone) as [Hnone0 _].
  destruct (HI Hnone0) as [Hp Hempty].
  assert (∀ x, operationsPath x = operationsPath s → operations x = operations s →
               map x = map s → uploads x = uploads s →
               (streams s = [] → streams x = []) →
               operationsPath x = operations x
               ∧ (map x = None → streams x = [] ∧ uploads x = [])) as Hsame.
  { intros x E1 E2 E3 E4 E5. split; [congruence|].
    rewrite E3, E4. intros Hm. destruct (Hempty Hm) as [Hs Hu]. auto. }
  revert Hnone. destruct ev; cbn [handle].
  - unfold on_field. destruct valueTruncated.
    { intros H. by apply exit_not_None in H. }
    destruct (String.eqb fieldName "operations").
    { unfold on_operations. destruct value as [j|].
      2:{ intros H. by apply exit_not_None in H. }
      destruct (_ || _).
      { intros H. by apply exit_not_None in H. }
      simpl. done. }
    destruct (String.eqb fieldName "map"); [|intros _; by apply Hsame].
    unfold on_map.
    destruct (operations_truthy s) as [a|].
    2:{ intros H. by apply exit_not_None in H. }
    destruct value as [parsedMap|].
    2:{ intros H. by apply exit_not_None in H. }
    destruct (_ || _).
    { intros H. by apply exit_not_None in H. }
    destruct (exceeds _ _).
    { intros H. by apply exit_not_None in H. }
    destruct (bind_entries _ _) as [s' r] eqn:Hbind.
    destruct r as [e|].
    { intros H. by apply exit_not_None in H. }
    apply bind_entries_effect in Hbind
      as (_ & Hmap & _ & _ & Hop & Hpath & _).
    simpl in *. intros _. split; [congruence|].
    intros Hm. destruct Hmap as [? Hs]; [eauto|congruence].
  - unfold on_file. destruct (map s) as [m|] eqn:Hm.
    2:{ intros H. by apply exit_not_None in H. }
    destruct (Map_get fieldName m); simpl; intros _; (split; [done|]); congruence.
  - intros _. apply Hsame; try done. simpl. by intros ->.
  - intros _. apply Hsame; try done. simpl. by intros ->.
  - intros _. apply Hsame; try done. simpl. by intros ->.
  - unfold on_filesLimit. destruct (filesLimitSeen (io s)); [intros _; by apply Hsame|].
    intros H. by apply exit_not_None in H.
  - unfold on_finish. destruct (finishSeen (io s)); [intros _; by apply Hsame|].
    destruct (operations_truthy _).
    2:{ intros H. by apply exit_not_None in H. }
    destruct (map (mark see_finish s)) eqn:Hm.
    2:{ intros H. by apply exit_not_None in H. }
    simpl in *. intros _. split; [done|]. congruence.
  - unfold on_parser_error. intros H. by apply exit_not_None in H.
  - unfold on_response_close. destruct (responseCloseSeen (io s));
      [intros _; by apply Hsame|].
    simpl. destruct (map s) eqn:Hm; simpl; intros _; (split; [done|]);
      rewrite ?Hm; [congruence|done].
  - unfold on_request_close. destruct (requestCloseSeen (io s));
      [intros _; by apply Hsame|].
    destruct readableEnded; simpl; [intros _; by apply Hsame|].
    intros H. by apply exit_not_None in H.
Qed.

Lemma unbound_inv_processRequest opts trace : unbound_inv (processRequest opts trace).
Proof.
  induction trace as [|ev trace IH] using rev_ind; [by intros _|].
  unfold processRequest. rewrite run_snoc. by apply unbound_inv_step.
Qed.

(** ** C1: the map binder resolves the overall result *)

(** C1 (as amended). In every request, when the result is still pending and
    the [map] field is bound without error: [operations] holds a parsed
    object or array, the overall result is resolved with it at once, no file
    part has been processed and every placeholder is fresh.  For every map
    entry and every path listed for it that no later-bound path equals or
    is a prefix of, the location at that path holds a reference to that
    entry's placeholder, the same one at all such paths of the entry; with
    distinct keys the table maps the entry's field name to it. *)
Theorem map_binding_resolves (opts : ProcessRequestOptions) (trace : list event)
    (mapEntries : list (string * json)) :
  let s := processRequest opts trace in
  let s' := handle opts (Field "map" (Some (JObj mapEntries)) false) s in
  result s = Pending →
  exitError s' = None →
  ∃ a t',
    operations s = Some a
    ∧ result s' = Fulfilled a
    ∧ objects s' !! a = Some t'
    ∧ streams s' = []
    ∧ uploads s' = replicate (length mapEntries) new_Upload
    ∧ (∀ k fieldName paths i path,
         mapEntries !! k = Some (fieldName, JArr paths) →
         paths !! i = Some (JStr path) →
         (∀ k' fieldName' paths' i' path',
            mapEntries !! k' = Some (fieldName', JArr paths') →
            paths' !! i' = Some (JStr path') →
            k < k' ∨ (k = k' ∧ i < i') →
            ¬ split_path path' `prefix_of` split_path path) →
         objectPath_get path t' = Some (TUpload k))
    ∧ (NoDup mapEntries.*1 →
       ∃ m, map s' = Some m
         ∧ ∀ k fieldName paths, mapEntries !! k = Some (fieldName, paths) →
             Map_get fieldName m = Some k).
Proof.
  intros s s' Hpend Hnone'.
  destruct (handle_control opts _ s Hnone') as [Hnone _].
  destruct (request_inv_processRequest opts trace) as (_ & _ & _ & I4 & _). fold s in I4.
  assert (map s = None) as Hmap.
  { destruct (map s) eqn:Hm; [|done].
    destruct (I4 Hnone) as [a Ha]; [eauto|congruence]. }
  destruct (unbound_inv_processRequest opts trace Hnone) as [Hpath Hempty]. fold s in Hpath, Hempty.
  destruct (Hempty Hmap) as [Hstreams Huploads].
  subst s'. revert Hnone'. simpl. unfold on_field. simpl. unfold on_map.
  destruct (operations_truthy s) as [a|] eqn:Hops.
  2:{ intros H. by apply exit_not_None in H. }
  simpl. destruct (exceeds _ _).
  { intros H. by apply exit_not_None in H. }
  destruct (bind_entries mapEntries (with_map (Some []) s)) as [s0 r] eqn:Hbind.
  destruct r as [e|].
  { intros H. by apply exit_not_None in H. }
  intros _. simpl.
  pose proof (operations_truthy_is_Some s a Hops) as Hop.
  assert (∃ t, objects s !! a = Some t) as [t Ht].
  { unfold operations_truthy in Hops. rewrite Hop in Hops.
    destruct (objects s !! a); [eauto|discriminate]. }
  destruct (bind_entries_holds mapEntries (with_map (Some []) s) s0 a t Hbind)
    as (Hu0 & t' & Ht' & Hall); [simpl; congruence | done |].
  pose proof (bind_entries_effect _ _ _ _ Hbind)
    as (_ & _ & _ & _ & _ & _ & Hs0 & Hr0 & _ & _ & Hobj).
  simpl in Hu0, Hs0, Hr0. rewrite Huploads in Hu0. simpl in Hu0.
  exists a, t'. split; [done|]. split; [by rewrite Hr0, Hpend|].
  split; [done|].
  split; [congruence|]. split; [done|]. split.
  - intros k f ps i path Hk Hi Hlater. unfold objectPath_get.
    rewrite (Hall k f ps i path Hk Hi Hlater). simpl. by rewrite Huploads.
  - intros Hnd.
    destruct (bind_entries_table_get mapEntries (with_map (Some []) s) s0 [] Hbind eq_refl Hnd)
      as (m & Hm & Hget & _).
    exists m. split; [done|]. intros k f ps Hk.
    rewrite (Hget k f ps Hk). simpl. by rewrite Huploads.
Qed.

Lemma map_binding_resolves_witness :
  ∃ t', objects (processRequest default_options bound_trace) !! 0 = Some t'
        ∧ objectPath_get "variables.file" t' = Some (TUpload 0).
Proof.
  destruct (map_binding_resolves default_options
              [Field "operations" (Some sample_operations) false]
              (Object_entries sample_map) eq_refl eq_refl)
    as (a & t' & Ha & _ & Ht & _ & _ & Hpaths & _).
  vm_compute in Ha. injection Ha as <-.
  exists t'. split; [exact Ht|].
  apply (Hpaths 0 "0" [JStr "variables.file"] 0 "variables.file" eq_refl eq_refl).
  intros k' f' ps' i' q Hk Hi Hord.
  destruct k' as [|k']; [|discriminate].
  injection Hk as <- <-. destruct i' as [|i']; [lia|discriminate].
Defined.

(** C1 as stated fails when two entries list the same path: the later
    binding overwrites the earlier one, so the location holds the second
    entry's placeholder and not the first entry's. *)
Lemma overlapping_paths_overwritten :
  let s := processRequest default_options
             [Field "operations" (Some sample_operations) false;
              Field "map" (Some overlapping_map) false] in
  exitError s = None
  ∧ result s = Fulfilled 0
  ∧ map s = Some [("0", 0); ("1", 1)]
  ∧ ∃ t, objects s !! 0 = Some t
         ∧ objectPath_get "variables.file" t = Some (TUpload 1)
         ∧ objectPath_get "variables.file" t ≠ Some (TUpload 0).
Proof.
  vm_compute. repeat split.
  eexists. split; [reflexivity|]. split; [reflexivity | discriminate].
Qed.

(** ** C8: the [maxFiles] ceiling *)

(** C8 (as amended). In every request in which no fatal error has been
    recorded, both paths hand [exit] the same 413 error.  When the parsed
    [map] has more entries than [maxFiles] and the result is pending, the
    overall result rejects with it, and it does so while no placeholder, no
    table and no file stream exists.  When the tokenizer reports
    [filesLimit], that error is recorded and every pending placeholder of
    the table that has no file rejects with it; the overall result rejects
    with it only if it is still pending, and keeps its outcome if the map
    was already bound. *)
Theorem maxFiles_enforced (opts : ProcessRequestOptions) (trace : list event) :
  let s := processRequest opts trace in
  let error := createError 413 (MaxFilesExceeded (maxFiles opts)) in
  exitError s = None →
  status error = Some 413
  ∧ (∀ a mapEntries,
       result s = Pending →
       operations_truthy s = Some a →
       exceeds (length mapEntries) (maxFiles opts) = true →
       let s' := handle opts (Field "map" (Some (JObj mapEntries)) false) s in
       result s' = Rejected error
       ∧ uploads s' = []
       ∧ map s' = None
       ∧ streams s' = [])
  ∧ (filesLimitSeen (io s) = false →
     let s' := handle opts FilesLimit s in
     exitError s' = Some error
     ∧ (result s = Pending → result s' = Rejected error)
     ∧ (settled (result s) = true → result s' = result s)
     ∧ (∀ m fieldName u up,
          map s = Some m → Map_get fieldName m = Some u → uploads s !! u = Some up →
          file up = None → promise up = Pending →
          uploads s' !! u = Some {| file := None; promise := Rejected error |})).
Proof.
  intros s error Hnone. subst error. split; [reflexivity|]. split.
  - intros a mapEntries Hpend Hops Hex s'. subst s'.
    destruct (request_inv_processRequest opts trace) as (_ & _ & _ & I4 & _). fold s in I4.
    assert (map s = None) as Hmap.
    { destruct (map s) eqn:Hm; [|done].
      destruct (I4 Hnone) as [a' Ha']; [eauto|congruence]. }
    destruct (unbound_inv_processRequest opts trace Hnone) as [_ Hempty]. fold s in Hempty.
    destruct (Hempty Hmap) as [Hstreams Huploads].
    simpl. unfold on_field. simpl. unfold on_map. rewrite Hops. simpl. rewrite Hex.
    destruct (exit_frame (createError 413 (MaxFilesExceeded (maxFiles opts))) false s)
      as (_ & _ & _ & Hm' & Hs' & _ & _).
    rewrite exit_result, exit_uploads, Hm', Hs' by done.
    unfold sweep_map. rewrite Hmap, Hpend. done.
  - intros Hseen s'. subst s'. simpl. unfold on_filesLimit. rewrite Hseen.
    destruct (exit_first_call (createError 413 (MaxFilesExceeded (maxFiles opts))) false
                (mark see_filesLimit s) Hnone) as (H1 & H2 & H3 & H4 & _).
    repeat split; try assumption.
Qed.

Lemma maxFiles_enforced_witness :
  let s := processRequest one_file_options
             [Field "operations" (Some sample_operations) false] in
  result (handle one_file_options (Field "map" (Some overlapping_map) false) s)
  = Rejected (createError 413 (MaxFilesExceeded (Finite 1))).
Proof.
  pose proof (maxFiles_enforced one_file_options
    [Field "operations" (Some sample_operations) false] eq_refl) as (_ & H & _).
  intros s. subst s.
  apply (H 0 (Object_entries overlapping_map)); reflexivity.
Defined.

(** C8 as stated fails on the second path in the ordinary case: one mapped
    file, a second file part, [maxFiles = 1].  The map was bound before the
    files arrived, so the overall result is already resolved when
    [filesLimit] fires and it stays resolved. *)
Lemma filesLimit_after_binding_keeps_result :
  let s := processRequest one_file_options
             (bound_trace ++ [File "0" "a.txt" "7bit" "text/plain"; FilesLimit]) in
  exitError s = Some (createError 413 (MaxFilesExceeded (Finite 1)))
  ∧ result s = Fulfilled 0
  ∧ result s ≠ Rejected (createError 413 (MaxFilesExceeded (Finite 1))).
Proof. vm_compute. repeat split; congruence. Qed.

(** * Further properties of the engine *)

(** ** The recorded error and the overall result are final *)

Lemma exit_result_cases error b x :
  (exitError x = None
   ∧ exitError (exit error b x) = Some error
   ∧ result (exit error b x) = reject_promise error (result x))
  ∨ (is_Some (exitError x) ∧ exit error b x = x).
Proof.
  destruct (exitError x) as [e0|] eqn:E.
  - right. split; [eauto|]. by apply exit_later with e0.
  - left. split; [done|]. split; [|by apply exit_result].
    by rewrite exit_exitError, E.
Qed.

(** One event leaves the overall result alone, or replaces it by the effect
    of one [reject] (on a first [exit]) or of one [resolve] (on a bound
    map). *)
Lemma handle_result opts ev s :
  (exitError (handle opts ev s) = exitError s ∧ result (handle opts ev s) = result s)
  ∨ (∃ e, exitError s = None ∧ exitError (handle opts ev s) = Some e
          ∧ result (handle opts ev s) = reject_promise e (result s))
  ∨ (∃ a, operations_truthy s = Some a
          ∧ exitError (handle opts ev s) = exitError s
          ∧ result (handle opts ev s) = resolve_promise a (result s)).
Proof.
  assert (∀ e b x, result x = result s → exitError x = exitError s →
            (exitError (exit e b x) = exitError s ∧ result (exit e b x) = result s)
            ∨ (∃ e', exitError s = None ∧ exitError (exit e b x) = Some e'
                     ∧ result (exit e b x) = reject_promise e' (result s))
            ∨ (∃ a, operations_truthy s = Some a
                    ∧ exitError (exit e b x) = exitError s
                    ∧ result (exit e b x) = resolve_promise a (result s))) as Hexit.
  { intros e b x Hr He.
    destruct (exit_result_cases e b x) as [(H1 & H2 & H3)|[_ H]].
    - right. left. exists e. split; [congruence|]. split; [done|]. congruence.
    - left. by rewrite H. }
  destruct ev; cbn [handle].
  - unfold on_field. destruct valueTruncated; [by apply Hexit|].
    destruct (String.eqb fieldName "operations").
    { unfold on_operations. destruct value as [j|]; [|by apply Hexit].
      destruct (_ || _); [by apply Hexit | by left]. }
    destruct (String.eqb fieldName "map"); [|by left].
    unfold on_map. destruct (operations_truthy s) as [a|] eqn:Hops; [|by apply Hexit].
    destruct value as [parsedMap|]; [|by apply Hexit].
    destruct (_ || _); [by apply Hexit|].
    destruct (exceeds _ _); [by apply Hexit|].
    destruct (bind_entries _ _) as [s0 r] eqn:Hbind.
    apply bind_entries_effect in Hbind as (_ & _ & _ & Hex & _ & _ & _ & Hres & _).
    simpl in Hex, Hres.
    destruct r as [e|]; [by apply Hexit|].
    right. right. exists a. simpl. split; [done|]. split; [done|]. by rewrite Hres.
  - unfold on_file. destruct (map s) as [m|]; [|by apply Hexit].
    left. by destruct (Map_get fieldName m).
  - by left.
  - by left.
  - by left.
  - unfold on_filesLimit. destruct (filesLimitSeen (io s)); [by left | by apply Hexit].
  - unfold on_finish. destruct (finishSeen (io s)); [by left|].
    destruct (operations_truthy _); [|by apply Hexit].
    destruct (map (mark see_finish s)); [by left | by apply Hexit].
  - unfold on_parser_error. by apply Hexit.
  - unfold on_response_close. destruct (responseCloseSeen (io s)); [by left|].
    left. simpl. by destruct (map s).
  - unfold on_request_close. destruct (requestCloseSeen (io s)); [by left|].
    destruct readableEnded; simpl; [by left | by apply Hexit].
Qed.

Lemma handle_exitError_kept opts ev s e :
  exitError s = Some e → exitError (handle opts ev s) = Some e.
Proof.
  intros He.
  destruct (handle_shape opts ev s)
    as [(e' & b & x & -> & _ & _ & Hex)|[Hquiet|(f & pm & a & s0 & e' & -> & _ & Hbind & ->)]].
  - rewrite (exit_later e); congruence.
  - congruence.
  - apply bind_entries_effect in Hbind as (_ & _ & _ & Hex & _). simpl in Hex.
    rewrite (exit_later e); congruence.
Qed.

Lemma handle_result_kept opts ev s :
  settled (result s) = true → result (handle opts ev s) = result s.
Proof.
  intros Hset.
  destruct (handle_result opts ev s) as [[_ H]|[(e & _ & _ & H)|(a & _ & _ & H)]];
    rewrite H; [done | by apply reject_promise_settled | by apply resolve_promise_settled].
Qed.

Lemma run_exitError_kept opts s trace e :
  exitError s = Some e → exitError (run opts s trace) = Some e.
Proof.
  intros He. induction trace as [|ev trace IH] using rev_ind; [done|].
  rewrite run_snoc. by apply handle_exitError_kept.
Qed.

Lemma run_result_kept opts s trace :
  settled (result s) = true → result (run opts s trace) = result s.
Proof.
  intros Hset. induction trace as [|ev trace IH] using rev_ind; [done|].
  rewrite run_snoc, handle_result_kept; [done|]. by rewrite IH.
Qed.

(** X8. Over a whole request the first recorded error and the first
    settlement of the overall result are final: whatever events follow, the
    recorded error stays the same and a settled result keeps its outcome. *)
Theorem first_outcome_is_final (opts : ProcessRequestOptions) (s : state)
    (trace : list event) :
  (∀ e, exitError s = Some e → exitError (run opts s trace) = Some e)
  ∧ (settled (result s) = true → result (run opts s trace) = result s).
Proof.
  induction trace as [|ev trace [IH1 IH2]] using rev_ind; [done|].
  rewrite run_snoc. split.
  - intros e He. by apply handle_exitError_kept, IH1.
  - intros Hset. rewrite handle_result_kept; [by apply IH2|]. by rewrite IH2.
Qed.

Lemma first_outcome_is_final_witness :
  result (run default_options (processRequest default_options bound_trace)
            [FilesLimit; RequestClose false; Finish])
  = Fulfilled 0.
Proof.
  destruct (first_outcome_is_final default_options
              (processRequest default_options bound_trace)
              [FilesLimit; RequestClose false; Finish]) as [_ H].
  rewrite H; reflexivity.
Defined.

(** ** Every fatal error stops the tokenizer *)

Lemma exit_io error b x :
  (is_Some (exitError x) ∧ exit error b x = x)
  ∨ (exitError x = None
     ∧ exitError (exit error b x) = Some error
     ∧ parserDestroyed (io (exit error b x)) =
         match parserDestroyed (io x) with
         | None => Some (if b then None else Some error)
         | Some d => Some d
         end
     ∧ requestPiped (io (exit error b x)) = false
     ∧ resumeScheduled (io (exit error b x)) = true).
Proof.
  unfold exit. destruct (exitError x) as [e0|] eqn:E; [left; eauto|].
  right. simpl. by destruct (parserDestroyed (io x)).
Qed.

(** One event either records no new error and leaves the tokenizer as it
    is, or records the first error and stops the tokenizer with it; only an
    error that came from the tokenizer is not handed back to it. *)
Lemma handle_io opts ev s :
  (exitError (handle opts ev s) = exitError s
   ∧ parserDestroyed (io (handle opts ev s)) = parserDestroyed (io s)
   ∧ resumeScheduled (io (handle opts ev s)) = resumeScheduled (io s)
   ∧ (requestPiped (io s) = false → requestPiped (io (handle opts ev s)) = false))
  ∨ (exitError s = None
     ∧ ∃ e, exitError (handle opts ev s) = Some e
        ∧ parserDestroyed (io (handle opts ev s)) =
            match parserDestroyed (io s) with
            | None => Some (if is_parser_error ev then None else Some e)
            | Some d => Some d
            end
        ∧ requestPiped (io (handle opts ev s)) = false
        ∧ resumeScheduled (io (handle opts ev s)) = true).
Proof.
  set (P := λ (b : bool) (s' : state),
    (exitError s' = exitError s
     ∧ parserDestroyed (io s') = parserDestroyed (io s)
     ∧ resumeScheduled (io s') = resumeScheduled (io s)
     ∧ (requestPiped (io s) = false → requestPiped (io s') = false))
    ∨ (exitError s = None
       ∧ ∃ e, exitError s' = Some e
          ∧ parserDestroyed (io s') =
              match parserDestroyed (io s) with
              | None => Some (if b then None else Some e)
              | Some d => Some d
              end
          ∧ requestPiped (io s') = false
          ∧ resumeScheduled (io s') = true)).
  assert (∀ e b x, exitError x = exitError s →
            parserDestroyed (io x) = parserDestroyed (io s) →
            resumeScheduled (io x) = resumeScheduled (io s) →
            (requestPiped (io s) = false → requestPiped (io x) = false) →
            P b (exit e b x)) as Hexit.
  { intros e b x H1 H2 H3 H4.
    destruct (exit_io e b x) as [[_ ->]|(Hn & He & Hd & Hp & Hr)].
    - by left.
    - right. split; [congruence|]. exists e. rewrite <- H2. done. }
  assert (∀ b, P b s) as Hsame by (intros b; by left).
  change (P (is_parser_error ev) (handle opts ev s)).
  destruct ev; cbn [handle is_parser_error].
  - unfold on_field. destruct valueTruncated; [by apply Hexit|].
    destruct (String.eqb fieldName "operations").
    { unfold on_operations. destruct value as [j|]; [|by apply Hexit].
      destruct (_ || _); [by apply Hexit | by left]. }
    destruct (String.eqb fieldName "map"); [|done].
    unfold on_map. destruct (operations_truthy s) as [a|]; [|by apply Hexit].
    destruct value as [parsedMap|]; [|by apply Hexit].
    destruct (_ || _); [by apply Hexit|].
    destruct (exceeds _ _); [by apply Hexit|].
    destruct (bind_entries _ _) as [s0 r] eqn:Hbind.
    apply bind_entries_effect in Hbind as (_ & _ & _ & Hex & _ & _ & _ & _ & Hio & _).
    simpl in Hex, Hio.
    destruct r as [e|]; [apply Hexit; by rewrite ?Hio|].
    left. simpl. by rewrite Hio.
  - unfold on_file. destruct (map s) as [m|]; [|by apply Hexit].
    left. by destruct (Map_get fieldName m).
  - by left.
  - by left.
  - by left.
  - unfold on_filesLimit. destruct (filesLimitSeen (io s)); [done | by apply Hexit].
  - unfold on_finish. destruct (finishSeen (io s)); [done|].
    destruct (operations_truthy _); [|by apply Hexit].
    destruct (map (mark see_finish s)); [by left | by apply Hexit].
  - unfold on_parser_error. by apply Hexit.
  - unfold on_response_close. destruct (responseCloseSeen (io s)); [done|].
    left. simpl. by destruct (map s).
  - unfold on_request_close. destruct (requestCloseSeen (io s)); [done|].
    destruct readableEnded; simpl; [by left | by apply Hexit].
Qed.

Lemma tokenizer_inv opts trace :
  let s := processRequest opts trace in
  (exitError s = None →
     parserDestroyed (io s) = None ∧ resumeScheduled (io s) = false)
  ∧ (∀ e, exitError s = Some e →
       requestPiped (io s) = false
       ∧ resumeScheduled (io s) = true
       ∧ (parserDestroyed (io s) = Some (Some e) ∨ parserDestroyed (io s) = Some None)).
Proof.
  induction trace as [|ev trace IH] using rev_ind; [by split|].
  unfold processRequest in *. rewrite run_snoc. cbv zeta in IH.
  set (s := run opts initial trace) in *. cbv zeta.
  destruct IH as (IHn & IHs).
  destruct (handle_io opts ev s) as [(He & Hd & Hr & Hp)|(Hnone & e' & He' & Hd & Hp & Hr)].
  - rewrite He, Hd, Hr. split; [done|].
    intros e Hse. destruct (IHs e Hse) as (? & ? & ?). auto.
  - split; [congruence|]. intros e Hse.
    destruct (IHn Hnone) as [Hd0 _]. rewrite Hd0 in Hd. simpl in Hd.
    assert (e = e') as -> by congruence.
    split; [done|]. split; [done|]. rewrite Hd.
    destruct (is_parser_error ev); auto.
Qed.

(** X9. In every request the tokenizer is destroyed exactly when a fatal
    error has been recorded, and then the request is unpiped from it and a
    resume of the request is scheduled.  The tokenizer is destroyed with the
    recorded error, except when the first error was emitted by the tokenizer
    itself, in which case it is destroyed without one. *)
Theorem fatal_error_stops_tokenizer (opts : ProcessRequestOptions) (trace : list event) :
  let s := processRequest opts trace in
  (exitError s = None →
     parserDestroyed (io s) = None ∧ resumeScheduled (io s) = false)
  ∧ (∀ e, exitError s = Some e →
       requestPiped (io s) = false
       ∧ resumeScheduled (io s) = true
       ∧ (parserDestroyed (io s) = Some (Some e) ∨ parserDestroyed (io s) = Some None))
  ∧ (∀ ev e, exitError s = None → exitError (handle opts ev s) = Some e →
       parserDestroyed (io (handle opts ev s))
       = Some (if is_parser_error ev then None else Some e)).
Proof.
  intros s. destruct (tokenizer_inv opts trace) as [Hn Hs]. fold s in Hn, Hs.
  split; [done|]. split; [done|].
  intros ev e Hnone He.
  destruct (handle_io opts ev s) as [(H & _)|(_ & e' & He' & Hd & _)].
  - rewrite H, Hnone in He. discriminate.
  - destruct (Hn Hnone) as [Hd0 _]. rewrite Hd0 in Hd. simpl in Hd.
    assert (e = e') as -> by congruence. exact Hd.
Qed.

Lemma fatal_error_stops_tokenizer_witness :
  parserDestroyed (io (handle default_options (ParserError sample_error)
                         (processRequest default_options bound_trace)))
  = Some None.
Proof.
  destruct (fatal_error_stops_tokenizer default_options bound_trace) as (_ & _ & H).
  exact (H (ParserError sample_error) sample_error eq_refl eq_refl).
Defined.

(** ** Validation of the [map] field *)

(** The error of the inner loop is raised at the first path that is not a
    string or cannot be set, and carries its index. *)
Lemma bind_paths_error fieldName u index paths s s' e :
  bind_paths fieldName u index paths s = (s', Some e) →
  ∃ i p,
    paths !! i = Some p
    ∧ (∀ i' p', i' < i → paths !! i' = Some p' → json_is_string p' = true)
    ∧ ((json_is_string p = false
        ∧ e = createError 400 (InvalidMapEntryValue fieldName (index + i)))
       ∨ (∃ path, p = JStr path
            ∧ e = createError 400 (InvalidMapEntryPath fieldName (index + i) path))).
Proof.
  revert index s. induction paths as [|p0 paths IH]; intros index s; simpl; [discriminate|].
  assert (json_is_string p0 = false →
          (s, Some (createError 400 (InvalidMapEntryValue fieldName index))) = (s', Some e) →
          ∃ i p, (p0 :: paths) !! i = Some p
            ∧ (∀ i' p', i' < i → (p0 :: paths) !! i' = Some p' → json_is_string p' = true)
            ∧ ((json_is_string p = false
                ∧ e = createError 400 (InvalidMapEntryValue fieldName (index + i)))
               ∨ (∃ path, p = JStr path
                    ∧ e = createError 400 (InvalidMapEntryPath fieldName (index + i) path))))
    as Hbad.
  { intros Hp [= _ <-]. exists 0, p0. split; [done|]. split; [intros; lia|].
    left. by rewrite Nat.add_0_r. }
  destruct p0; try (by apply Hbad).
  destruct (operationsPath_set s0 u s) as [s1|].
  - intros Hrest. destruct (IH _ _ Hrest) as (i & p & Hi & Hbefore & Herr).
    exists (S i), p. split; [done|]. split.
    + intros [|i'] p' Hlt Hp'; [by injection Hp' as <-|].
      apply (Hbefore i' p'); [lia | done].
    + by rewrite <- Nat.add_succ_comm.
  - intros [= _ <-]. exists 0, (JStr s0). split; [done|]. split; [intros; lia|].
    right. exists s0. by rewrite Nat.add_0_r.
Qed.

Lemma bind_paths_strings fieldName u index paths s s' :
  bind_paths fieldName u index paths s = (s', None) →
  ∀ i p, paths !! i = Some p → json_is_string p = true.
Proof.
  revert index s. induction paths as [|p0 paths IH]; intros index s; simpl.
  - intros _ i p Hp. discriminate.
  - destruct p0; try discriminate.
    destruct (operationsPath_set s0 u s) as [s1|]; [|discriminate].
    intros Hrest [|i] p Hp; [by injection Hp as <-|].
    by apply (IH _ _ Hrest i p).
Qed.

(** The error of the outer loop belongs to the first entry that is not an
    array of settable string paths; one placeholder has been created for
    each entry before it, and for that entry if it is an array. *)
Lemma bind_entries_error mapEntries s s' e :
  bind_entries mapEntries s = (s', Some e) →
  ∃ k fieldName v,
    mapEntries !! k = Some (fieldName, v)
    ∧ (∀ k' entry, k' < k → mapEntries !! k' = Some entry → entry_well_typed entry)
    ∧ ((json_isArray v = false
        ∧ e = createError 400 (InvalidMapEntryArray fieldName)
        ∧ length (uploads s') = length (uploads s) + k)
       ∨ (∃ paths i p,
            v = JArr paths ∧ paths !! i = Some p
            ∧ (∀ i' p', i' < i → paths !! i' = Some p' → json_is_string p' = true)
            ∧ length (uploads s') = length (uploads s) + S k
            ∧ ((json_is_string p = false
                ∧ e = createError 400 (InvalidMapEntryValue fieldName i))
               ∨ (∃ path, p = JStr path
                    ∧ e = createError 400 (InvalidMapEntryPath fieldName i path))))).
Proof.
  revert s. induction mapEntries as [|[fieldName v] rest IH]; intros s; simpl; [discriminate|].
  assert (json_isArray v = false →
          (s, Some (createError 400 (InvalidMapEntryArray fieldName))) = (s', Some e) →
          ∃ k f v0, ((fieldName, v) :: rest) !! k = Some (f, v0)
            ∧ (∀ k' entry, k' < k → ((fieldName, v) :: rest) !! k' = Some entry →
                 entry_well_typed entry)
            ∧ ((json_isArray v0 = false ∧ e = createError 400 (InvalidMapEntryArray f)
                ∧ length (uploads s') = length (uploads s) + k)
               ∨ (∃ paths i p, v0 = JArr paths ∧ paths !! i = Some p
                    ∧ (∀ i' p', i' < i → paths !! i' = Some p' → json_is_string p' = true)
                    ∧ length (uploads s') = length (uploads s) + S k
                    ∧ ((json_is_string p = false
                        ∧ e = createError 400 (InvalidMapEntryValue f i))
                       ∨ (∃ path, p = JStr path
                            ∧ e = createError 400 (InvalidMapEntryPath f i path))))))
    as Hbad.
  { intros Hv [= <- <-]. exists 0, fieldName, v. split; [done|]. split; [intros; lia|].
    left. by rewrite Nat.add_0_r. }
  destruct v; try (by apply Hbad).
  destruct (bind_paths fieldName (length (uploads s)) 0 items (add_upload fieldName s))
    as [s1 r1] eqn:Hpaths.
  destruct (bind_paths_keeps _ _ _ _ _ _ _ Hpaths) as (_ & Hu1 & _). simpl in Hu1.
  destruct r1 as [e1|].
  - intros [= <- <-].
    destruct (bind_paths_error _ _ _ _ _ _ _ Hpaths) as (i & p & Hi & Hbefore & Herr).
    exists 0, fieldName, (JArr items). split; [done|]. split; [intros; lia|].
    right. exists items, i, p. split; [done|]. split; [done|]. split; [done|].
    split; [rewrite Hu1, length_app; simpl; lia | exact Herr].
  - intros Hrest. destruct (IH s1 Hrest) as (k & f & v0 & Hk & Hbefore & Herr).
    exists (S k), f, v0. split; [done|]. split.
    + intros [|k'] entry Hlt Hentry.
      * injection Hentry as <-. exists items. split; [done|].
        by apply (bind_paths_strings _ _ _ _ _ _ Hpaths).
      * apply (Hbefore k' entry); [lia | done].
    + rewrite Hu1, length_app in Herr. simpl in Herr.
      destruct Herr as [(H1 & H2 & H3)|(ps & i & p & H1 & H2 & H3 & H4 & H5)].
      * left. split; [done|]. split; [done|]. lia.
      * right. exists ps, i, p. repeat split; try done. lia.
Qed.

Lemma unbound_state opts trace :
  let s := processRequest opts trace in
  exitError s = None → result s = Pending →
  map s = None ∧ streams s = [] ∧ uploads s = [].
Proof.
  intros s Hnone Hpend.
  destruct (request_inv_processRequest opts trace) as (_ & _ & _ & I4 & _). fold s in I4.
  assert (map s = None) as Hmap.
  { destruct (map s) eqn:Hm; [|done].
    destruct (I4 Hnone) as [a Ha]; [eauto|congruence]. }
  destruct (unbound_inv_processRequest opts trace Hnone) as [_ Hempty]. fold s in Hempty.
  destruct (Hempty Hmap). done.
Qed.

(** X1. In every request, when [operations] has been classified, no fatal
    error has been recorded and the result is pending, a [map] field (not
    truncated) whose text is not JSON rejects the result with the 400
    invalid-JSON error, and one that parses to anything but a plain object
    (an array, [null], a scalar) rejects it with the 400 invalid-type error;
    in both cases no table and no placeholder is created and the operations
    documents are untouched. *)
Theorem map_field_validation (opts : ProcessRequestOptions) (trace : list event)
    (value : option json) :
  let s := processRequest opts trace in
  let s' := handle opts (Field "map" value false) s in
  exitError s = None →
  result s = Pending →
  is_Some (operations_truthy s) →
  (value = None → result s' = Rejected (createError 400 InvalidJsonMap))
  ∧ (∀ j, value = Some j → (∀ members, j ≠ JObj members) →
       result s' = Rejected (createError 400 InvalidTypeMap))
  ∧ (value = None ∨ (∃ j, value = Some j ∧ ∀ members, j ≠ JObj members) →
     map s' = None ∧ uploads s' = [] ∧ objects s' = objects s).
Proof.
  intros s s' Hnone Hpend [a Hops]. subst s'.
  destruct (unbound_state opts trace Hnone Hpend) as (Hmap & _ & Hup). fold s in Hmap, Hup.
  assert (∀ e, result (exit e false s) = Rejected e
               ∧ map (exit e false s) = None ∧ uploads (exit e false s) = []
               ∧ objects (exit e false s) = objects s) as Hexit.
  { intros e. destruct (exit_frame e false s) as (Ho & _ & _ & Hm & _ & _ & _).
    rewrite exit_result, exit_uploads, Hm, Ho by done.
    unfold sweep_map. by rewrite Hmap, Hpend. }
  assert (∀ j, (∀ members, j ≠ JObj members) →
            negb (json_typeof_object j) || negb (json_truthy j) || json_isArray j = true)
    as Hshape.
  { intros j Hj. destruct j; try done. by destruct (Hj members). }
  simpl. unfold on_field. simpl. unfold on_map. rewrite Hops.
  split; [|split].
  - intros ->. apply Hexit.
  - intros j -> Hj. rewrite (Hshape j Hj). apply Hexit.
  - intros [->|(j & -> & Hj)]; [|rewrite (Hshape j Hj)];
      destruct (Hexit (createError 400 InvalidJsonMap)) as (_ & ? & ? & ?);
      destruct (Hexit (createError 400 InvalidTypeMap)) as (_ & ? & ? & ?); done.
Qed.

Lemma map_field_validation_witness :
  result (handle default_options (Field "map" (Some (JArr [])) false)
            (processRequest default_options
               [Field "operations" (Some sample_operations) false]))
  = Rejected (createError 400 InvalidTypeMap).
Proof.
  destruct (map_field_validation default_options
              [Field "operations" (Some sample_operations) false] (Some (JArr []))
              eq_refl eq_refl (ex_intro _ 0 eq_refl)) as (_ & H & _).
  apply (H (JArr [])); [reflexivity | discriminate].
Defined.

(** X2. In every request, when the entries of a [map] object (with distinct
    keys, within [maxFiles]) fail to bind while the result is pending, the
    error is a 400 error that belongs to the first entry that is not an array
    of settable string paths and names its key (and the index of the
    offending path); the overall result rejects with it, and so does every
    placeholder the binder had created: one for each entry before the
    offending one, and one for that entry if its value is an array. *)
Theorem failed_binding_rejects_everything (opts : ProcessRequestOptions)
    (trace : list event) (mapEntries : list (string * json)) (e : Error) :
  let s := processRequest opts trace in
  let s' := handle opts (Field "map" (Some (JObj mapEntries)) false) s in
  exitError s = None →
  result s = Pending →
  is_Some (operations_truthy s) →
  exceeds (length mapEntries) (maxFiles opts) = false →
  NoDup mapEntries.*1 →
  exitError s' = Some e →
  status e = Some 400
  ∧ result s' = Rejected e
  ∧ (∀ u up, uploads s' !! u = Some up → up = {| file := None; promise := Rejected e |})
  ∧ ∃ k fieldName v,
      mapEntries !! k = Some (fieldName, v)
      ∧ (∀ k' entry, k' < k → mapEntries !! k' = Some entry → entry_well_typed entry)
      ∧ ((json_isArray v = false
          ∧ e = createError 400 (InvalidMapEntryArray fieldName)
          ∧ length (uploads s') = k)
         ∨ (∃ paths i p,
              v = JArr paths ∧ paths !! i = Some p
              ∧ (∀ i' p', i' < i → paths !! i' = Some p' → json_is_string p' = true)
              ∧ length (uploads s') = S k
              ∧ ((json_is_string p = false
                  ∧ e = createError 400 (InvalidMapEntryValue fieldName i))
                 ∨ (∃ path, p = JStr path
                      ∧ e = createError 400 (InvalidMapEntryPath fieldName i path))))).
Proof.
  intros s s' Hnone Hpend [a Hops] Hmax Hnd. subst s'.
  destruct (unbound_state opts trace Hnone Hpend) as (Hmap & _ & Hup). fold s in Hmap, Hup.
  simpl. unfold on_field. simpl. unfold on_map. rewrite Hops. simpl. rewrite Hmax.
  destruct (bind_entries mapEntries (with_map (Some []) s)) as [s0 r] eqn:Hbind.
  destruct (bind_fresh_table (JObj mapEntries) s s0 r a Hup Hnd Hops Hbind)
    as (Hcov & _ & _ & _ & Hex0).
  pose proof (bind_entries_effect _ _ _ _ Hbind)
    as ((n & Hu0) & _ & _ & _ & _ & _ & _ & Hr0 & _).
  simpl in Hu0, Hr0. rewrite Hup in Hu0. simpl in Hu0.
  destruct r as [e0|].
  2:{ simpl. rewrite Hex0, Hnone. discriminate. }
  rewrite exit_exitError, Hex0, Hnone. simpl. intros [= ->].
  destruct (bind_entries_error _ _ _ _ Hbind) as (k & f & v & Hk & Hbefore & Herr).
  simpl in Herr. rewrite Hup in Herr. simpl in Herr.
  assert (length (uploads (exit e false s0)) = length (uploads s0)) as Hlen
    by (by destruct (exit_frame e false s0) as (_ & _ & _ & _ & _ & _ & ->)).
  split; [|split; [|split]].
  - destruct Herr as [(_ & -> & _)|(? & ? & ? & _ & _ & _ & _ & [[_ ->]|(? & _ & ->)])]; done.
  - rewrite exit_result by congruence. by rewrite Hr0, Hpend.
  - intros u up Hu. rewrite exit_uploads in Hu by congruence.
    unfold sweep_map in Hu.
    assert (u < length (uploads s0)) as Hlt.
    { apply lookup_lt_Some in Hu. destruct (map s0); [by rewrite length_sweep in Hu|done]. }
    destruct (Hcov u Hlt) as (m & Hm & Hin). rewrite Hm in Hu.
    rewrite sweep_lookup in Hu by done.
    rewrite Hu0 in Hu, Hlt.
    destruct (lookup_lt_is_Some_2 _ _ Hlt) as [up0 Hup0]. rewrite Hup0 in Hu.
    apply lookup_replicate in Hup0 as [-> _]. by injection Hu as <-.
  - exists k, f, v. split; [done|]. split; [done|]. rewrite Hlen.
    destruct Herr as [(H1 & H2 & H3)|(ps & i & p & H1 & H2 & H3 & H4 & H5)].
    + left. done.
    + right. exists ps, i, p. done.
Qed.

Lemma failed_binding_rejects_everything_witness :
  result (handle default_options
            (Field "map" (Some (JObj [("0", JArr [JStr "variables.file"]);
                                      ("1", JArr [JStr "variables.nothing.here"])])) false)
            (processRequest default_options
               [Field "operations" (Some sample_operations) false]))
  = Rejected (createError 400 (InvalidMapEntryPath "1" 0 "variables.nothing.here")).
Proof.
  destruct (failed_binding_rejects_everything default_options
              [Field "operations" (Some sample_operations) false]
              [("0", JArr [JStr "variables.file"]);
               ("1", JArr [JStr "variables.nothing.here"])]
              (createError 400 (InvalidMapEntryPath "1" 0 "variables.nothing.here"))
              eq_refl eq_refl (ex_intro _ 0 eq_refl) eq_refl)
    as (_ & H & _).
  - by apply (bool_decide_unpack _).
  - reflexivity.
  - exact H.
Defined.

(** ** Requests in two parts *)

Lemma run_app opts s before after :
  run opts s (before ++ after) = run opts (run opts s before) after.
Proof. unfold run. by rewrite fold_left_app. Qed.

(** ** The response closes *)

Lemma release_file_idem st :
  on_spooled release_file (on_spooled release_file st) = on_spooled release_file st.
Proof. by destruct st. Qed.

Lemma release_all_lookup us ids sts (g : nat) :
  release_all us ids sts !! g =
    if holds_file us ids g then on_spooled release_file <$> sts !! g else sts !! g.
Proof.
  unfold release_all, holds_file. revert sts.
  induction ids as [|u ids IH]; intros sts; simpl; [done|].
  rewrite IH. clear IH.
  destruct (us !! u) as [up|]; simpl; [|done].
  destruct (file up) as [f|]; simpl; [|done].
  destruct (f =? g) eqn:Hfg; simpl.
  - apply Nat.eqb_eq in Hfg as ->.
    rewrite list_lookup_alter_eq.
    destruct (existsb _ ids); [|done].
    destruct (sts !! g); simpl; [|done]. by rewrite release_file_idem.
  - apply Nat.eqb_neq in Hfg. by rewrite list_lookup_alter_ne.
Qed.

Lemma length_release_all us ids sts : length (release_all us ids sts) = length sts.
Proof.
  unfold release_all. revert sts. induction ids as [|u ids IH]; intros sts; simpl; [done|].
  rewrite IH. destruct (us !! u) as [up|]; [|done].
  destruct (file up); [|done]. apply length_alter.
Qed.

Lemma holds_file_table s m g :
  map s = Some m → (holds_file (uploads s) (Map_values m) g = true ↔ table_file s g).
Proof.
  intros Hm. unfold holds_file, table_file. rewrite existsb_exists. split.
  - intros (u & Hin & Hu).
    destruct (uploads s !! u) as [up|] eqn:Hup; [|discriminate].
    destruct (file up) as [f|] eqn:Hf; [|discriminate].
    apply Nat.eqb_eq in Hu as ->.
    exists m, u, up. split; [done|]. split; [by apply list_elem_of_In|]. done.
  - intros (m' & u & up & Hm' & Hin & Hup & Hf).
    rewrite Hm in Hm'. injection Hm' as <-.
    exists u. split; [by apply list_elem_of_In|].
    rewrite Hup, Hf. apply Nat.eqb_refl.
Qed.

Lemma on_response_close_effect s :
  responseCloseSeen (io s) = false →
  released (on_response_close s) = true
  ∧ exitError (on_response_close s) = exitError s
  ∧ result (on_response_close s) = result s
  ∧ uploads (on_response_close s) = uploads s
  ∧ objects (on_response_close s) = objects s
  ∧ map (on_response_close s) = map s
  ∧ length (streams (on_response_close s)) = length (streams s)
  ∧ (∀ g, table_file s g →
       streams (on_response_close s) !! g = on_spooled release_file <$> streams s !! g)
  ∧ (∀ g, ¬ table_file s g → streams (on_response_close s) !! g = streams s !! g)
  ∧ on_response_close (on_response_close s) = on_response_close s.
Proof.
  intros Hseen. unfold on_response_close. rewrite Hseen. simpl.
  destruct (map s) as [m|] eqn:Hm; simpl; rewrite ?Hm.
  - repeat split; try done.
    + apply length_release_all.
    + intros g Hg. rewrite release_all_lookup.
      by rewrite (proj2 (holds_file_table s m g Hm) Hg).
    + intros g Hg. rewrite release_all_lookup.
      destruct (holds_file (uploads s) (Map_values m) g) eqn:Hh; [|done].
      destruct Hg. by apply (holds_file_table s m g Hm).
  - repeat split; try done.
    intros g (m & u & up & Hm' & _). congruence.
Qed.

(** X4. The first [close] of the response marks the request released and
    releases the spool of exactly those streams that are, at that moment,
    the [file] of a placeholder of the table; every other stream, every
    promise, the recorded error, the result and the documents are untouched,
    and a later [close] does nothing. *)
Theorem response_close_releases (opts : ProcessRequestOptions) (s : state) :
  responseCloseSeen (io s) = false →
  let s' := handle opts ResponseClose s in
  released s' = true
  ∧ exitError s' = exitError s
  ∧ result s' = result s
  ∧ uploads s' = uploads s
  ∧ objects s' = objects s
  ∧ map s' = map s
  ∧ length (streams s') = length (streams s)
  ∧ (∀ g, table_file s g → streams s' !! g = on_spooled release_file <$> streams s !! g)
  ∧ (∀ g, ¬ table_file s g → streams s' !! g = streams s !! g)
  ∧ handle opts ResponseClose s' = s'.
Proof. intros Hseen. by apply on_response_close_effect. Qed.

Lemma response_close_releases_witness :
  let s := processRequest default_options
             (bound_trace ++ [File "0" "a.txt" "7bit" "text/plain"]) in
  released (handle default_options ResponseClose s) = true
  ∧ streams (handle default_options ResponseClose s) !! 0
    = Some (Spooled (release_file (new_file "a.txt" "text/plain" "7bit"))).
Proof.
  intros s.
  destruct (response_close_releases default_options s eq_refl)
    as (H1 & _ & _ & _ & _ & _ & _ & H2 & _).
  split; [exact H1|]. rewrite H2; [reflexivity|].
  exists [("0", 0)], 0, {| file := Some 0; promise := Fulfilled 0 |}.
  split; [reflexivity|]. split; [|split; reflexivity].
  apply list_elem_of_here.
Defined.

(** ** C5: per-file failures *)

Lemma capacitor_createReadStream_open f fu :
  capacitorDestroyed fu = None → capacitorReleased fu = false →
  capacitor_createReadStream f fu = Reads f.
Proof. unfold capacitor_createReadStream. by intros -> ->. Qed.

Lemma capacitor_createReadStream_closed f fu :
  is_Some (capacitorDestroyed fu) ∨ capacitorReleased fu = true →
  capacitor_createReadStream f fu = Throws spool_closed.
Proof.
  unfold capacitor_createReadStream. intros [[d ->]| ->]; [done|].
  by destruct (capacitorDestroyed fu).
Qed.

(** C5 (as amended). A mapped file part resolves its (pending) placeholder
    as soon as it arrives.  When its stream later hits the size limit or
    errors, [exit] is not called: the recorded error, the overall result and
    every placeholder are unchanged, the failure (413 for the size limit) is
    kept in that file's error slot, and only that file's [createReadStream]
    is affected.  [createReadStream] throws the file's own error if there is
    one, else the exit error if the response has closed and one is recorded,
    and otherwise hands over to the spool, which throws an error of its own
    if it has been destroyed or released and only otherwise opens a read.
    So once the response has closed, [createReadStream] of every file that
    the table then holds throws, whether or not an error was recorded. *)
Theorem per_file_failure_is_lazy (opts : ProcessRequestOptions) (s : state) :
  (∀ m fieldName u up name enc mime,
     map s = Some m → Map_get fieldName m = Some u →
     uploads s !! u = Some up → promise up = Pending →
     let f := length (streams s) in
     let s' := handle opts (File fieldName name enc mime) s in
     uploads s' !! u = Some {| file := Some f; promise := Fulfilled f |}
     ∧ (∃ fu,
          streams s' !! f = Some (Spooled fu)
          ∧ filename fu = name
          ∧ mimetype fu = mime
          ∧ encoding fu = enc
          ∧ fileError fu = None
          ∧ capacitorDestroyed fu = None
          ∧ capacitorReleased fu = false)
     ∧ exitError s' = exitError s
     ∧ result s' = result s)
  ∧ (∀ f fu ev error,
       streams s !! f = Some (Spooled fu) →
       (ev = StreamLimit f ∧ error = createError 413 (FileTruncated (maxFileSize opts)))
       ∨ ev = StreamError f error →
       let s' := handle opts ev s in
       exitError s' = exitError s
       ∧ result s' = result s
       ∧ uploads s' = uploads s
       ∧ objects s' = objects s
       ∧ map s' = map s
       ∧ released s' = released s
       ∧ streams s' !! f = Some (Spooled (fail_file error fu))
       ∧ fileError (fail_file error fu) = Some error
       ∧ createReadStream s' f = Some (Throws error)
       ∧ (∀ g, g ≠ f →
            streams s' !! g = streams s !! g
            ∧ createReadStream s' g = createReadStream s g))
  ∧ (∀ f fu,
       streams s !! f = Some (Spooled fu) →
       (∀ e, fileError fu = Some e → createReadStream s f = Some (Throws e))
       ∧ (∀ e, fileError fu = None → released s = true → exitError s = Some e →
            createReadStream s f = Some (Throws e))
       ∧ (fileError fu = None → released s = false ∨ exitError s = None →
            (is_Some (capacitorDestroyed fu) ∨ capacitorReleased fu = true →
               createReadStream s f = Some (Throws spool_closed))
            ∧ (capacitorDestroyed fu = None → capacitorReleased fu = false →
               createReadStream s f = Some (Reads f))))
  ∧ (∀ f fu,
       responseCloseSeen (io s) = false →
       table_file s f →
       streams s !! f = Some (Spooled fu) →
       createReadStream (handle opts ResponseClose s) f
       = Some (Throws (default (default spool_closed (exitError s)) (fileError fu)))).
Proof.
  split; [|split; [|split]].
  - intros m fieldName u up name enc mime Hm Hget Hu Hpend f s'. subst f s'.
    simpl. unfold on_file. rewrite Hm. rewrite Hget. simpl.
    split; [|split; [|done]].
    + rewrite list_lookup_alter_eq, Hu. simpl. unfold Upload_resolve.
      by rewrite Hpend.
    + exists (new_file name mime enc). by rewrite list_lookup_middle.
  - intros f fu ev error Hf Hev s'. subst s'.
    destruct Hev as [[-> ->]| ->]; simpl.
    + destruct (fail_stream_effect (createError 413 (FileTruncated (maxFileSize opts)))
                  f fu s Hf) as (H1 & H2 & H3).
      unfold on_stream_limit. repeat split; try done; by apply H3.
    + destruct (fail_stream_effect error f fu s Hf) as (H1 & H2 & H3).
      unfold on_stream_error. repeat split; try done; by apply H3.
  - intros f fu Hf. rewrite (createReadStream_spooled s f fu Hf).
    split; [|split].
    + by intros e ->.
    + by intros e -> -> ->.
    + intros -> Hquiet.
      assert (match exitError s with
              | Some e => if released s then Throws e else capacitor_createReadStream f fu
              | None => capacitor_createReadStream f fu
              end = capacitor_createReadStream f fu) as ->.
      { destruct Hquiet as [-> | ->]; [by destruct (exitError s) | done]. }
      split.
      * intros Hclosed. by rewrite capacitor_createReadStream_closed.
      * intros Hd Hr. by rewrite capacitor_createReadStream_open.
  - intros f fu Hseen Htable Hf. cbn [handle].
    destruct (on_response_close_effect s Hseen)
      as (Hrel & Hex & _ & _ & _ & _ & _ & Hreleased & _).
    assert (streams (on_response_close s) !! f = Some (Spooled (release_file fu))) as Hf'
      by (by rewrite (Hreleased f Htable), Hf).
    rewrite (createReadStream_spooled _ f _ Hf'), Hrel, Hex. simpl.
    destruct (fileError fu); [done|]. destruct (exitError s); [done|]. simpl.
    by rewrite capacitor_createReadStream_closed by (by right).
Qed.

Lemma per_file_failure_is_lazy_witness :
  let s := processRequest default_options
             (bound_trace ++ [File "0" "a.txt" "7bit" "text/plain"]) in
  createReadStream (handle default_options (StreamLimit 0) s) 0
  = Some (Throws (createError 413 (FileTruncated Infinity)))
  ∧ uploads (handle default_options (StreamLimit 0) s) !! 0
    = Some {| file := Some 0; promise := Fulfilled 0 |}.
Proof.
  pose proof (per_file_failure_is_lazy default_options
    (processRequest default_options (bound_trace ++ [File "0" "a.txt" "7bit" "text/plain"])))
    as (_ & H & _).
  intros s. subst s.
  destruct (H 0 (new_file "a.txt" "text/plain" "7bit") (StreamLimit 0)
              (createError 413 (FileTruncated Infinity)) eq_refl
              (or_introl (conj eq_refl eq_refl)))
    as (_ & _ & Hu & _ & _ & _ & _ & _ & Hr & _).
  split; [exact Hr|]. rewrite Hu. reflexivity.
Defined.

(** C5 as stated fails in the ordinary case of a request that succeeds: the
    file arrives, the form finishes and the response closes.  There is no
    per-file error and no exit error, yet [createReadStream] does not return
    a read stream: the close listener has released the spool, which refuses
    the read. *)
Lemma read_after_response_close_throws :
  let s := processRequest default_options
             (bound_trace ++ [File "0" "a.txt" "7bit" "text/plain"; Finish; ResponseClose]) in
  (∃ fu, streams s !! 0 = Some (Spooled fu) ∧ fileError fu = None)
  ∧ exitError s = None
  ∧ released s = true
  ∧ result s = Fulfilled 0
  ∧ createReadStream s 0 = Some (Throws spool_closed)
  ∧ createReadStream s 0 ≠ Some (Reads 0).
Proof. vm_compute. repeat split; try congruence. eexists. split; reflexivity. Qed.

(** ** A second file part for the same field *)

(** X5. When a file part arrives for a field whose placeholder is already
    settled (a second part with the same name, or a part that arrives after
    the placeholder was rejected), the promise keeps its outcome while the
    [file] property is moved to the new stream, which is spooled like any
    other.  A stream that was the placeholder's [file] before, and is the
    [file] of no other placeholder, is then no longer released when the
    response closes. *)
Theorem repeated_file_part (opts : ProcessRequestOptions) (s : state)
    (m : list (string * nat)) (fieldName name enc mime : string) (u : nat) (up : Upload) :
  map s = Some m →
  Map_get fieldName m = Some u →
  uploads s !! u = Some up →
  settled (promise up) = true →
  let f := length (streams s) in
  let s' := handle opts (File fieldName name enc mime) s in
  uploads s' !! u = Some {| file := Some f; promise := promise up |}
  ∧ streams s' !! f = Some (Spooled (new_file name mime enc))
  ∧ (∀ f0,
       file up = Some f0 → f0 < length (streams s) →
       (∀ u' up', u' ≠ u → uploads s !! u' = Some up' → file up' ≠ Some f0) →
       responseCloseSeen (io s) = false →
       streams (handle opts ResponseClose s') !! f0 = streams s !! f0).
Proof.
  intros Hm Hget Hu Hset f s'. subst f s'. simpl. unfold on_file. rewrite Hm, Hget.
  split; [|split].
  - simpl. rewrite list_lookup_alter_eq, Hu. simpl. unfold Upload_resolve.
    by rewrite resolve_promise_settled.
  - simpl. by rewrite list_lookup_middle.
  - intros f0 Hf0 Hlt Hothers Hseen.
    set (s' := with_uploads _ _).
    destruct (on_response_close_effect s' Hseen) as (_ & _ & _ & _ & _ & _ & _ & _ & Hkeep & _).
    rewrite Hkeep.
    + subst s'. simpl. by rewrite lookup_app_l.
    + intros (m' & u1 & up1 & _ & _ & Hu1 & Hf1). subst s'. simpl in Hu1.
      destruct (decide (u = u1)) as [<-|Hne].
      * rewrite list_lookup_alter_eq, Hu in Hu1. injection Hu1 as <-.
        simpl in Hf1. injection Hf1 as <-. lia.
      * rewrite list_lookup_alter_ne in Hu1 by done.
        by apply (Hothers u1 up1).
Qed.

Lemma repeated_file_part_witness :
  let s := processRequest default_options
             (bound_trace ++ [File "0" "a.txt" "7bit" "text/plain"]) in
  let s' := handle default_options (File "0" "b.txt" "7bit" "text/plain") s in
  uploads s' !! 0 = Some {| file := Some 1; promise := Fulfilled 0 |}
  ∧ streams (handle default_options ResponseClose s') !! 0
    = Some (Spooled (new_file "a.txt" "text/plain" "7bit")).
Proof.
  intros s s'.
  destruct (repeated_file_part default_options s [("0", 0)] "0" "b.txt" "7bit" "text/plain"
              0 {| file := Some 0; promise := Fulfilled 0 |}
              eq_refl eq_refl eq_refl eq_refl) as (H1 & _ & H2).
  split; [exact H1|].
  subst s'. rewrite (H2 0); [reflexivity | reflexivity | simpl; lia | | reflexivity].
  intros [|u'] up' Hne Hu'; [done | discriminate].
Defined.

(** ** Files over the life of a request *)

Lemma quiet_for_files opts ev s :
  touches_files ev = false →
  streams (handle opts ev s) = streams s ∧ released (handle opts ev s) = released s.
Proof.
  assert (∀ e b x, streams x = streams s → released x = released s →
            streams (exit e b x) = streams s ∧ released (exit e b x) = released s) as Hexit.
  { intros e b x Hs Hr. destruct (exit_frame e b x) as (_ & _ & _ & _ & -> & -> & _). done. }
  destruct ev; cbn [handle touches_files]; try discriminate; intros _.
  - unfold on_field. destruct valueTruncated; [by apply Hexit|].
    destruct (String.eqb fieldName "operations").
    { unfold on_operations. destruct value as [j|]; [|by apply Hexit].
      destruct (_ || _); [by apply Hexit | done]. }
    destruct (String.eqb fieldName "map"); [|done].
    unfold on_map. destruct (operations_truthy s) as [a|]; [|by apply Hexit].
    destruct value as [parsedMap|]; [|by apply Hexit].
    destruct (_ || _); [by apply Hexit|].
    destruct (exceeds _ _); [by apply Hexit|].
    destruct (bind_entries _ _) as [s0 r] eqn:Hbind.
    apply bind_entries_effect in Hbind as (_ & _ & Hr & _ & _ & _ & Hs & _).
    simpl in Hr, Hs.
    destruct r as [e|]; [by apply Hexit | done].
  - unfold on_filesLimit. destruct (filesLimitSeen (io s)); [done | by apply Hexit].
  - unfold on_finish. destruct (finishSeen (io s)); [done|].
    destruct (operations_truthy _); [|by apply Hexit].
    destruct (map (mark see_finish s)); [done | by apply Hexit].
  - unfold on_parser_error. by apply Hexit.
  - unfold on_request_close. destruct (requestCloseSeen (io s)); [done|].
    destruct readableEnded; simpl; [done | by apply Hexit].
Qed.

Lemma file_grows_refl fu : file_grows fu fu.
Proof. by repeat split. Qed.

Lemma stream_grows_refl st : stream_grows st st.
Proof. destruct st; [done | apply file_grows_refl]. Qed.

Lemma stream_grows_trans st1 st2 st3 :
  stream_grows st1 st2 → stream_grows st2 st3 → stream_grows st1 st3.
Proof.
  destruct st1, st2, st3; simpl; try done.
  intros (? & ? & ? & ? & ? & ?) (? & ? & ? & ? & ? & ?).
  repeat split; try congruence; auto.
Qed.

Lemma on_spooled_grows g st :
  (∀ fu, file_grows fu (g fu)) → stream_grows st (on_spooled g st).
Proof. intros Hg. destruct st; simpl; [done | apply Hg]. Qed.

Lemma fail_file_grows e fu : file_grows fu (fail_file e fu).
Proof.
  repeat split; simpl; eauto.
  destruct (capacitorDestroyed fu); eauto.
Qed.

Lemma drain_file_grows e fu : file_grows fu (drain_file e fu).
Proof.
  repeat split; simpl; eauto.
  destruct (capacitorDestroyed fu); eauto.
Qed.

Lemma spool_refusal_grows g fu fu' e :
  file_grows fu fu' →
  capacitor_createReadStream g fu = Throws e → capacitor_createReadStream g fu' = Throws e.
Proof.
  intros (_ & _ & _ & _ & Hdes & Hrls). unfold capacitor_createReadStream.
  destruct (capacitorDestroyed fu) as [d|].
  - destruct Hdes as [d' ->]; [eauto | done].
  - destruct (capacitorReleased fu); [|discriminate].
    rewrite Hrls by done. by destruct (capacitorDestroyed fu').
Qed.

Lemma release_file_grows fu : file_grows fu (release_file fu).
Proof. by repeat split. Qed.

Lemma alter_grows (g : FileUpload → FileUpload) (sid : nat) (sts : list stream)
    (i : nat) (st : stream) :
  (∀ fu, file_grows fu (g fu)) →
  sts !! i = Some st →
  ∃ st', alter (on_spooled g) sid sts !! i = Some st' ∧ stream_grows st st'.
Proof.
  intros Hg Hi. destruct (decide (sid = i)) as [->|Hne].
  - rewrite list_lookup_alter_eq, Hi. simpl. eexists. split; [done|].
    by apply on_spooled_grows.
  - rewrite list_lookup_alter_ne by done. exists st. split; [done|].
    apply stream_grows_refl.
Qed.

(** One event never unreleases a request and never loses or swaps a
    stream. *)
Lemma handle_files opts ev s :
  (released s = true → released (handle opts ev s) = true)
  ∧ ∀ g st, streams s !! g = Some st →
      ∃ st', streams (handle opts ev s) !! g = Some st' ∧ stream_grows st st'.
Proof.
  destruct (touches_files ev) eqn:Ht.
  2:{ destruct (quiet_for_files opts ev s Ht) as [-> ->]. split; [done|].
      intros g st Hg. exists st. split; [done | apply stream_grows_refl]. }
  destruct ev; try discriminate; cbn [handle].
  - assert (∀ x g st, streams s !! g = Some st →
              ∃ st', (streams s ++ [x]) !! g = Some st' ∧ stream_grows st st') as Happ.
    { intros x g st Hg. exists st. split; [|apply stream_grows_refl].
      by apply lookup_app_l_Some. }
    unfold on_file. destruct (map s) as [m|].
    + destruct (Map_get fieldName m); simpl; (split; [done|]); apply Happ.
    + destruct (exit_frame (createError 400 MisorderedFiles) false (ignoreStream s))
        as (_ & _ & _ & _ & Hs & Hr & _).
      rewrite Hr, Hs. simpl. split; [done|]. apply Happ.
  - split; [done|]. intros g st Hg. simpl. apply alter_grows; [|done].
    apply fail_file_grows.
  - split; [done|]. intros g st Hg. simpl. apply alter_grows; [|done].
    apply fail_file_grows.
  - split; [done|]. intros g st Hg. simpl. apply alter_grows; [|done].
    apply drain_file_grows.
  - unfold on_response_close. destruct (responseCloseSeen (io s)).
    { split; [done|]. intros g st Hg. exists st. split; [done|apply stream_grows_refl]. }
    simpl. destruct (map s) as [m|]; simpl.
    + split; [done|]. intros g st Hg. rewrite release_all_lookup, Hg.
      destruct (holds_file _ _ g); simpl; eexists; (split; [done|]);
        [apply on_spooled_grows, release_file_grows | apply stream_grows_refl].
    + split; [done|]. intros g st Hg. exists st. split; [done|apply stream_grows_refl].
Qed.

Lemma run_files opts s trace :
  (released s = true → released (run opts s trace) = true)
  ∧ ∀ g st, streams s !! g = Some st →
      ∃ st', streams (run opts s trace) !! g = Some st' ∧ stream_grows st st'.
Proof.
  induction trace as [|ev trace [IHr IHs]] using rev_ind.
  - split; [done|]. intros g st Hg. exists st. split; [done|apply stream_grows_refl].
  - rewrite run_snoc. destruct (handle_files opts ev (run opts s trace)) as [Hr Hs].
    split; [auto|]. intros g st Hg.
    destruct (IHs g st Hg) as (st1 & Hg1 & Hgrow1).
    destruct (Hs g st1 Hg1) as (st2 & Hg2 & Hgrow2).
    exists st2. split; [done|]. by apply stream_grows_trans with st1.
Qed.

(** X6. Whatever events follow, a stream keeps its place and its kind: an
    ignored stream stays ignored, and a spooled file keeps its file name,
    MIME type and encoding, keeps an error slot that has been filled, and
    stays destroyed or released once it is.  So a [createReadStream] that
    throws keeps throwing. *)
Theorem files_only_grow (opts : ProcessRequestOptions) (s : state) (trace : list event) :
  (∀ g, streams s !! g = Some Ignored → streams (run opts s trace) !! g = Some Ignored)
  ∧ (∀ g fu, streams s !! g = Some (Spooled fu) →
       ∃ fu', streams (run opts s trace) !! g = Some (Spooled fu') ∧ file_grows fu fu')
  ∧ (∀ g, read_throws s g → read_throws (run opts s trace) g).
Proof.
  destruct (run_files opts s trace) as [Hrel Hstreams].
  split; [|split].
  - intros g Hg. destruct (Hstreams g _ Hg) as (st' & Hg' & Hgrow).
    by destruct st'.
  - intros g fu Hg. destruct (Hstreams g _ Hg) as (st' & Hg' & Hgrow).
    destruct st' as [|fu']; [done|]. eauto.
  - intros g [e He]. unfold read_throws, createReadStream in *.
    destruct (streams s !! g) as [[|fu]|] eqn:Hg; try discriminate.
    destruct (Hstreams g _ Hg) as (st' & Hg' & Hgrow).
    destruct st' as [|fu']; [done|]. rewrite Hg'.
    pose proof Hgrow as (_ & _ & _ & Herr & _).
    destruct (fileError fu) as [e0|] eqn:Hfe.
    { destruct Herr as [e1 ->]; eauto. }
    destruct (fileError fu'); [eauto|].
    assert (∀ e1, capacitor_createReadStream g fu = Throws e1 →
                  capacitor_createReadStream g fu' = Throws e1) as Hspool.
    { intros e1. by apply spool_refusal_grows. }
    destruct (released s) eqn:Hr.
    + rewrite Hrel by done.
      destruct (exitError s) as [e1|] eqn:Hex.
      * rewrite (run_exitError_kept opts s trace e1 Hex). eauto.
      * injection He as He.
        destruct (exitError (run opts s trace)); [eauto|]. rewrite (Hspool e He). eauto.
    + injection He as He.
      destruct (if released (run opts s trace) then exitError (run opts s trace) else None);
        [eauto|]. rewrite (Hspool e He). eauto.
Qed.

Lemma files_only_grow_witness :
  let s := processRequest default_options
             (bound_trace ++ [File "0" "a.txt" "7bit" "text/plain"; StreamLimit 0]) in
  read_throws
    (run default_options s
       [Finish; ResponseClose; CapacitorError 0 (createError 413 (FileTruncated Infinity))]) 0.
Proof.
  intros s.
  destruct (files_only_grow default_options s
              [Finish; ResponseClose;
               CapacitorError 0 (createError 413 (FileTruncated Infinity))])
    as (_ & _ & H).
  apply H. exists (createError 413 (FileTruncated Infinity)). reflexivity.
Defined.

(** ** What can change a read *)

Lemma createReadStream_unreleased s f :
  released s = false →
  createReadStream s f =
    match streams s !! f with
    | Some (Spooled fu) =>
        Some match fileError fu with
             | Some e => Throws e
             | None => capacitor_createReadStream f fu
             end
    | _ => None
    end.
Proof. intros Hr. unfold createReadStream. by rewrite Hr. Qed.

(** X7. Until the response closes, the only events that can change what
    [createReadStream] of an existing file does are a size-limit or error
    event of that file's own stream and an error event of that file's own
    spool: fields, other file parts, the failures of other streams and of
    other spools, [filesLimit], [finish], a tokenizer error, a disconnect,
    and so every call of [exit], leave it as it is. *)
Theorem reads_frame (opts : ProcessRequestOptions) (ev : event) (s : state) (f : nat) :
  released s = false →
  is_Some (streams s !! f) →
  ev ≠ ResponseClose →
  ev ≠ StreamLimit f →
  (∀ e, ev ≠ StreamError f e) →
  (∀ e, ev ≠ CapacitorError f e) →
  createReadStream (handle opts ev s) f = createReadStream s f.
Proof.
  intros Hrel [st Hst] Hclose Hlimit Herror Hspool.
  destruct (touches_files ev) eqn:Ht.
  2:{ destruct (quiet_for_files opts ev s Ht) as [Hs Hr].
      rewrite !createReadStream_unreleased by congruence. by rewrite Hs. }
  destruct ev; try discriminate; cbn [handle].
  - unfold on_file. destruct (map s) as [m|].
    + destruct (Map_get fieldName m); rewrite !createReadStream_unreleased by done;
        simpl; by rewrite (lookup_app_l_Some _ _ _ _ Hst), Hst.
    + destruct (exit_frame (createError 400 MisorderedFiles) false (ignoreStream s))
        as (_ & _ & _ & _ & Hs & Hr & _).
      rewrite !createReadStream_unreleased by (by rewrite ?Hr).
      rewrite Hs. simpl. by rewrite (lookup_app_l_Some _ _ _ _ Hst), Hst.
  - rewrite !createReadStream_unreleased by done. simpl.
    rewrite list_lookup_alter_ne; [done|]. intros ->. by apply Hlimit.
  - rewrite !createReadStream_unreleased by done. simpl.
    rewrite list_lookup_alter_ne; [done|]. intros ->. by apply (Herror error).
  - rewrite !createReadStream_unreleased by done. simpl.
    rewrite list_lookup_alter_ne; [done|]. intros ->. by apply (Hspool error).
  - done.
Qed.

Lemma reads_frame_witness :
  let s := processRequest default_options
             (bound_trace ++ [File "0" "a.txt" "7bit" "text/plain"]) in
  createReadStream (handle default_options (RequestClose false) s) 0 = Some (Reads 0).
Proof.
  intros s.
  rewrite (reads_frame default_options (RequestClose false) s 0);
    [reflexivity | reflexivity | by eexists | discriminate | discriminate | discriminate
    | discriminate].
Defined.

(** ** [type/upload.ts]: sequences of calls *)

Lemma call_settled c up : settled (promise up) = true → promise (call c up) = promise up.
Proof.
  intros H. destruct c; simpl;
    [by apply resolve_promise_settled | by apply reject_promise_settled].
Qed.

Lemma calls_settled cs up :
  settled (promise up) = true → promise (calls cs up) = promise up.
Proof.
  unfold calls. revert up. induction cs as [|c cs IH]; intros up H; simpl; [done|].
  rewrite IH; [by apply call_settled|]. by rewrite call_settled.
Qed.

Lemma calls_snoc cs c up : calls (cs ++ [c]) up = call c (calls cs up).
Proof. unfold calls. by rewrite fold_left_app. Qed.

(** X10. Whatever sequence of [resolve] and [reject] calls an [Upload]
    instance receives, its promise has the outcome of the first call, while
    its [file] property is the argument of the last [resolve] call; [reject]
    never touches [file].  So an instance rejected first and resolved later
    ends up with a [file] and a rejected promise. *)
Theorem upload_call_sequences (c : upload_call) (cs : list upload_call) :
  promise (calls (c :: cs) new_Upload)
    = match c with Resolve f => Fulfilled f | Reject e => Rejected e end
  ∧ (∀ up f, file (calls (cs ++ [Resolve f]) up) = Some f)
  ∧ (∀ up e, file (calls (cs ++ [Reject e]) up) = file (calls cs up))
  ∧ (∀ e f, calls (Reject e :: cs ++ [Resolve f]) new_Upload
            = {| file := Some f; promise := Rejected e |}).
Proof.
  assert (∀ c0 cs0, promise (calls (c0 :: cs0) new_Upload)
            = match c0 with Resolve f => Fulfilled f | Reject e => Rejected e end) as Hfirst.
  { intros c0 cs0. change (calls (c0 :: cs0) new_Upload) with (calls cs0 (call c0 new_Upload)).
    rewrite calls_settled; by destruct c0. }
  split; [apply Hfirst|]. split; [|split].
  - intros up f. by rewrite calls_snoc.
  - intros up e. by rewrite calls_snoc.
  - intros e f.
    pose proof (Hfirst (Reject e) (cs ++ [Resolve f])) as Hp.
    change (Reject e :: cs ++ [Resolve f]) with ((Reject e :: cs) ++ [Resolve f]) in *.
    rewrite calls_snoc in *. simpl in *.
    destruct (calls (Reject e :: cs) new_Upload) as [fl pr]. simpl in *.
    unfold Upload_resolve. simpl. by rewrite Hp.
Qed.

(** ** From the request to the resolver: the [Upload] scalar *)

(** What a successful binding leaves behind, for the properties below. *)
Lemma binding_outcome (opts : ProcessRequestOptions) (trace : list event)
    (mapEntries : list (string * json)) :
  let s := processRequest opts trace in
  let s' := handle opts (Field "map" (Some (JObj mapEntries)) false) s in
  result s = Pending →
  exitError s' = None →
  ∃ a t',
    operations s = Some a
    ∧ result s' = Fulfilled a
    ∧ objects s' !! a = Some t'
    ∧ streams s' = []
    ∧ released s' = released s
    ∧ uploads s' = replicate (length mapEntries) new_Upload
    ∧ (∀ k fieldName paths i path,
         mapEntries !! k = Some (fieldName, JArr paths) →
         paths !! i = Some (JStr path) →
         (∀ k' fieldName' paths' i' path',
            mapEntries !! k' = Some (fieldName', JArr paths') →
            paths' !! i' = Some (JStr path') →
            k < k' ∨ (k = k' ∧ i < i') →
            ¬ split_path path' `prefix_of` split_path path) →
         objectPath_get path t' = Some (TUpload k))
    ∧ (NoDup mapEntries.*1 →
       ∃ m, map s' = Some m
         ∧ ∀ k fieldName paths, mapEntries !! k = Some (fieldName, paths) →
             Map_get fieldName m = Some k).
Proof.
  intros s s' Hpend Hnone'.
  destruct (handle_control opts _ s Hnone') as [Hnone _].
  destruct (request_inv_processRequest opts trace) as (_ & _ & _ & I4 & _). fold s in I4.
  assert (map s = None) as Hmap.
  { destruct (map s) eqn:Hm; [|done].
    destruct (I4 Hnone) as [a Ha]; [eauto|congruence]. }
  destruct (unbound_inv_processRequest opts trace Hnone) as [Hpath Hempty]. fold s in Hpath, Hempty.
  destruct (Hempty Hmap) as [Hstreams Huploads].
  subst s'. revert Hnone'. simpl. unfold on_field. simpl. unfold on_map.
  destruct (operations_truthy s) as [a|] eqn:Hops.
  2:{ intros H. by apply exit_not_None in H. }
  simpl. destruct (exceeds _ _).
  { intros H. by apply exit_not_None in H. }
  destruct (bind_entries mapEntries (with_map (Some []) s)) as [s0 r] eqn:Hbind.
  destruct r as [e|].
  { intros H. by apply exit_not_None in H. }
  intros _. simpl.
  pose proof (operations_truthy_is_Some s a Hops) as Hop.
  assert (∃ t, objects s !! a = Some t) as [t Ht].
  { unfold operations_truthy in Hops. rewrite Hop in Hops.
    destruct (objects s !! a); [eauto|discriminate]. }
  destruct (bind_entries_holds mapEntries (with_map (Some []) s) s0 a t Hbind)
    as (Hu0 & t' & Ht' & Hall); [simpl; congruence | done |].
  pose proof (bind_entries_effect _ _ _ _ Hbind)
    as (_ & _ & Hrel0 & _ & _ & _ & Hs0 & Hr0 & _ & _ & Hobj).
  simpl in Hu0, Hs0, Hr0, Hrel0. rewrite Huploads in Hu0. simpl in Hu0.
  exists a, t'. split; [done|]. split; [by rewrite Hr0, Hpend|].
  split; [done|].
  split; [congruence|]. split; [done|]. split; [done|]. split.
  - intros k f ps i path Hk Hi Hlater. unfold objectPath_get.
    rewrite (Hall k f ps i path Hk Hi Hlater). simpl. by rewrite Huploads.
  - intros Hnd.
    destruct (bind_entries_table_get mapEntries (with_map (Some []) s) s0 [] Hbind eq_refl Hnd)
      as (m & Hm & Hget & _).
    exists m. split; [done|]. intros k f ps Hk.
    rewrite (Hget k f ps Hk). simpl. by rewrite Huploads.
Qed.

(** X11. A well-formed request reaches the resolver: when the [map] (with
    distinct keys) binds without error while the result is pending and the
    file part of one of its entries then arrives, the overall result is the
    operations document; at each of that entry's paths that no later path
    overwrote, the document holds a value that the [Upload] scalar accepts,
    and [parseValue] returns for it a promise that was pending before the
    file part and is now fulfilled with the file of that part: its
    [filename], [mimetype] and [encoding] are those of the part, it has no
    error, its stream is piped into a spool that is neither destroyed nor
    released, and [createReadStream] reads from it.  The scalar throws for
    every value that is not a placeholder. *)
Theorem mapped_file_reaches_resolver (opts : ProcessRequestOptions) (trace : list event)
    (mapEntries : list (string * json)) (k i : nat) (fieldName path name enc mime : string)
    (paths : list json) :
  let s := processRequest opts trace in
  let s1 := handle opts (Field "map" (Some (JObj mapEntries)) false) s in
  let s2 := handle opts (File fieldName name enc mime) s1 in
  result s = Pending →
  exitError s1 = None →
  NoDup mapEntries.*1 →
  mapEntries !! k = Some (fieldName, JArr paths) →
  paths !! i = Some (JStr path) →
  (∀ k' fieldName' paths' i' path',
     mapEntries !! k' = Some (fieldName', JArr paths') →
     paths' !! i' = Some (JStr path') →
     k < k' ∨ (k = k' ∧ i < i') →
     ¬ split_path path' `prefix_of` split_path path) →
  (∃ a t value,
     result s2 = Fulfilled a
     ∧ objects s2 !! a = Some t
     ∧ objectPath_get path t = Some value
     ∧ parseValue s1 value = Some (inl Pending)
     ∧ parseValue s2 value = Some (inl (Fulfilled 0)))
  ∧ (∃ fu,
       streams s2 !! 0 = Some (Spooled fu)
       ∧ filename fu = name
       ∧ mimetype fu = mime
       ∧ encoding fu = enc
       ∧ fileError fu = None
       ∧ piped fu = true
       ∧ capacitorDestroyed fu = None
       ∧ capacitorReleased fu = false)
  ∧ createReadStream s2 0 = Some (Reads 0)
  ∧ exitError s2 = None
  ∧ (∀ st value, (∀ u, value ≠ TUpload u) →
       parseValue st value = Some (inr UploadValueInvalid)).
Proof.
  intros s s1 s2 Hpend Hnone1 Hnd Hk Hi Hlater.
  destruct (binding_outcome opts trace mapEntries Hpend Hnone1)
    as (a & t & _ & Hres & Hobj & Hstreams & _ & Hup & Hpaths & Htable).
  fold s s1 in Hres, Hobj, Hstreams, Hup, Htable.
  destruct (Htable Hnd) as (m & Hm & Hget).
  pose proof (Hget k fieldName (JArr paths) Hk) as Hgetk.
  pose proof (Hpaths k fieldName paths i path Hk Hi Hlater) as Hvalue.
  assert (k < length mapEntries) as Hlt by (by eapply lookup_lt_Some).
  assert (uploads s1 !! k = Some new_Upload) as Hupk.
  { rewrite Hup. by apply lookup_replicate_2. }
  assert (s2 = with_uploads (alter (Upload_resolve 0) k (uploads s1))
                 (with_streams [Spooled (new_file name mime enc)] s1)) as Hs2.
  { subst s2. simpl. unfold on_file. rewrite Hm, Hgetk, Hstreams. done. }
  split; [|split; [|split; [|split]]].
  - exists a, t, (TUpload k). rewrite Hs2. simpl.
    rewrite Hupk, list_lookup_alter_eq, Hupk. done.
  - exists (new_file name mime enc). by rewrite Hs2.
  - rewrite Hs2. unfold createReadStream. simpl. rewrite Hnone1.
    by destruct (released s1).
  - by rewrite Hs2.
  - intros st value Hv. destruct value; try done. by destruct (Hv u).
Qed.

Lemma mapped_file_reaches_resolver_witness :
  let s2 := processRequest default_options
              (bound_trace ++ [File "0" "a.txt" "7bit" "text/plain"]) in
  (∃ fu, streams s2 !! 0 = Some (Spooled fu)
         ∧ filename fu = "a.txt" ∧ mimetype fu = "text/plain" ∧ encoding fu = "7bit")
  ∧ createReadStream s2 0 = Some (Reads 0).
Proof.
  intros s2.
  destruct (mapped_file_reaches_resolver default_options
              [Field "operations" (Some sample_operations) false]
              (Object_entries sample_map) 0 0 "0" "variables.file" "a.txt" "7bit" "text/plain"
              [JStr "variables.file"] eq_refl eq_refl)
    as (_ & H1 & H2 & _).
  - by apply (bool_decide_unpack _).
  - reflexivity.
  - reflexivity.
  - intros k' f' ps' i' q Hk Hi Hord.
    destruct k' as [|k']; [|discriminate].
    injection Hk as <- <-. destruct i' as [|i']; [lia|discriminate].
  - split; [|exact H2].
    destruct H1 as (fu & Hfu & Hname & Hmime & Henc & _).
    exists fu. by repeat split.
Defined.

(** ** The overall result is a document *)

Lemma containers_kept_same s s' : objects s' = objects s → containers_kept s s'.
Proof. intros E a t Ha Hc. rewrite E. eauto. Qed.

Lemma containers_kept_trans s1 s2 s3 :
  containers_kept s1 s2 → containers_kept s2 s3 → containers_kept s1 s3.
Proof.
  intros H12 H23 a t Ha Hc. destruct (H12 a t Ha Hc) as (t' & Ha' & Hc'). eauto.
Qed.

Lemma operationsPath_set_containers path u s s' :
  operationsPath_set path u s = Some s' → containers_kept s s'.
Proof.
  unfold operationsPath_set.
  destruct (operationsPath s) as [a|]; [|discriminate].
  destruct (objects s !! a) as [t|] eqn:Ha; [|discriminate].
  destruct (objectPath_set path (TUpload u) t) as [t'|] eqn:Hset; [|discriminate].
  intros [= <-] b tb Hb Hc. simpl.
  apply set_segments_container in Hset as [_ Hc'].
  destruct (decide (a = b)) as [->|Hne].
  - exists t'. split; [|done]. apply list_lookup_insert_eq. by eapply lookup_lt_Some.
  - exists tb. split; [|done]. by rewrite list_lookup_insert_ne.
Qed.

Lemma bind_paths_containers fieldName u index paths s s' r :
  bind_paths fieldName u index paths s = (s', r) → containers_kept s s'.
Proof.
  revert index s. induction paths as [|p paths IH]; intros index s; simpl.
  - intros [= <- _]. by apply containers_kept_same.
  - destruct p; try (intros [= <- _]; by apply containers_kept_same).
    destruct (operationsPath_set s0 u s) as [s1|] eqn:Hset.
    + intros Hrest. eapply containers_kept_trans;
        [eapply operationsPath_set_containers, Hset | eapply IH, Hrest].
    + intros [= <- _]. by apply containers_kept_same.
Qed.

Lemma bind_entries_containers mapEntries s s' r :
  bind_entries mapEntries s = (s', r) → containers_kept s s'.
Proof.
  revert s. induction mapEntries as [|[fieldName v] rest IH]; intros s; simpl.
  - intros [= <- _]. by apply containers_kept_same.
  - destruct v; try (intros [= <- _]; by apply containers_kept_same).
    destruct (bind_paths fieldName (length (uploads s)) 0 items (add_upload fieldName s))
      as [s1 r1] eqn:Hpaths.
    apply bind_paths_containers in Hpaths.
    assert (containers_kept s s1) as Hs1 by exact Hpaths.
    destruct r1 as [e|].
    + by intros [= <- _].
    + intros Hrest. eapply containers_kept_trans; [exact Hs1 | eapply IH, Hrest].
Qed.

Lemma embed_container j :
  negb (typeof_object (embed j)) || negb (truthy (embed j)) = false →
  container (embed j) = true.
Proof. by destruct j. Qed.

(** One event keeps every document, and if it records no error either
    leaves [operations] alone or assigns it a fresh document. *)
Lemma handle_documents opts ev s :
  containers_kept s (handle opts ev s)
  ∧ (exitError (handle opts ev s) = None →
     operations (handle opts ev s) = operations s
     ∨ ∃ a, operations (handle opts ev s) = Some a ∧ is_document (handle opts ev s) a).
Proof.
  destruct (is_field ev) eqn:Hf.
  2:{ destruct (nonfield_frame opts ev s Hf) as (_ & Ho & Hop & _).
      split; [by apply containers_kept_same | by left]. }
  destruct ev; try discriminate. cbn [handle].
  assert (∀ e x, objects x = objects s →
            containers_kept s (exit e false x)
            ∧ (exitError (exit e false x) = None →
               operations (exit e false x) = operations s
               ∨ ∃ a, operations (exit e false x) = Some a
                      ∧ is_document (exit e false x) a)) as Hexit.
  { intros e x Hx. split.
    - apply containers_kept_same. by destruct (exit_frame e false x) as (-> & _).
    - intros H. by apply exit_not_None in H. }
  unfold on_field. destruct valueTruncated; [by apply Hexit|].
  destruct (String.eqb fieldName "operations").
  { unfold on_operations. destruct value as [j|]; [|by apply Hexit].
    assert (containers_kept s (with_operations (Some (length (objects s)))
              (with_objects (objects s ++ [embed j]) s))) as Happ.
    { intros a t Ha Hc. simpl. exists t. split; [by apply lookup_app_l_Some | done]. }
    destruct (_ || _) eqn:Hj.
    - split.
      + eapply containers_kept_trans; [exact Happ|].
        apply containers_kept_same. by destruct (exit_frame
          (createError 400 InvalidTypeOperations) false
          (with_operations (Some (length (objects s)))
             (with_objects (objects s ++ [embed j]) s))) as (-> & _).
      + intros H. by apply exit_not_None in H.
    - split; [exact Happ|]. intros _. right. exists (length (objects s)).
      split; [done|]. exists (embed j). simpl.
      split; [by rewrite list_lookup_middle | by apply embed_container]. }
  destruct (String.eqb fieldName "map");
    [|split; [by apply containers_kept_same | by left]].
  unfold on_map. destruct (operations_truthy s) as [a|]; [|by apply Hexit].
  destruct value as [parsedMap|]; [|by apply Hexit].
  destruct (_ || _); [by apply Hexit|].
  destruct (exceeds _ _); [by apply Hexit|].
  destruct (bind_entries _ _) as [s0 r] eqn:Hbind.
  pose proof (bind_entries_containers _ _ _ _ Hbind) as Hkept.
  apply bind_entries_effect in Hbind as (_ & _ & _ & _ & Hop & _).
  simpl in Hop.
  destruct r as [e|].
  - split.
    + intros b t Hb Hc. destruct (Hkept b t Hb Hc) as (t' & Hb' & Hc').
      exists t'. split; [|done].
      by destruct (exit_frame e false s0) as (-> & _).
    + intros H. by apply exit_not_None in H.
  - split; [exact Hkept|]. intros _. by left.
Qed.

Lemma document_inv opts trace :
  let s := processRequest opts trace in
  (is_Some (exitError s) → settled (result s) = true)
  ∧ (exitError s = None → ∀ a, operations s = Some a → is_document s a)
  ∧ (∀ a, result s = Fulfilled a → is_document s a).
Proof.
  induction trace as [|ev trace IH] using rev_ind.
  - split; [by intros [? ?]|]. split; [done|done].
  - unfold processRequest in *. rewrite run_snoc. cbv zeta in *.
    set (s := run opts initial trace) in *.
    destruct IH as (IH1 & IH2 & IH3).
    destruct (handle_documents opts ev s) as [Hkept Hops].
    assert (∀ a, is_document s a → is_document (handle opts ev s) a) as Hdoc.
    { intros a (t & Ha & Hc). by apply (Hkept a t). }
    split; [|split].
    + intros Hsome.
      destruct (handle_result opts ev s) as [[Hex H]|[(e & _ & _ & H)|(a & _ & Hex & H)]];
        rewrite H.
      * apply IH1. by rewrite <- Hex.
      * by destruct (result s).
      * by destruct (result s).
    + intros Hnone a Ha.
      destruct (handle_control opts ev s Hnone) as [Hnone0 _].
      destruct (Hops Hnone) as [Hsame|(a' & Ha' & Hd)].
      * apply Hdoc, IH2; congruence.
      * congruence.
    + intros a Ha.
      destruct (handle_result opts ev s) as [[_ H]|[(e & _ & _ & H)|(a' & Hops' & Hex & H)]];
        rewrite H in Ha.
      * by apply Hdoc, IH3.
      * destruct (result s) eqn:Er; simpl in Ha; try discriminate.
        by apply Hdoc, IH3.
      * destruct (result s) eqn:Er; simpl in Ha; try discriminate.
        -- injection Ha as <-. apply Hdoc, IH2.
           ++ destruct (exitError s) eqn:E; [|done].
              assert (settled (Pending (A:=nat)) = true) as Hs by (apply IH1; eauto).
              discriminate.
           ++ by apply operations_truthy_is_Some.
        -- by apply Hdoc, IH3.
Qed.

Lemma rejection_inv opts trace e :
  result (processRequest opts trace) = Rejected e →
  exitError (processRequest opts trace) = Some e.
Proof.
  revert e. induction trace as [|ev trace IH] using rev_ind; [discriminate|].
  unfold processRequest in *. rewrite run_snoc.
  set (s := run opts initial trace) in *. intros e Hr.
  destruct (handle_result opts ev s) as [[Hex H]|[(e' & Hn & Hex & H)|(a & _ & Hex & H)]];
    rewrite H in Hr.
  - rewrite Hex. by apply IH.
  - destruct (result s) eqn:Er; simpl in Hr; try discriminate.
    + congruence.
    + rewrite (IH e0 eq_refl) in Hn. discriminate.
  - destruct (result s) eqn:Er; simpl in Hr; try discriminate.
    rewrite Hex. apply IH. congruence.
Qed.

(** X12. In every request the overall result, when it is fulfilled, refers
    to an operations document that is an object or an array (never [null] or
    a scalar); when it is rejected, its reason is the recorded fatal error;
    and once a fatal error is recorded the result is no longer pending. *)
Theorem result_is_a_document (opts : ProcessRequestOptions) (trace : list event) :
  let s := processRequest opts trace in
  (∀ a, result s = Fulfilled a → ∃ t, objects s !! a = Some t ∧ container t = true)
  ∧ (∀ e, result s = Rejected e → exitError s = Some e)
  ∧ (is_Some (exitError s) → settled (result s) = true).
Proof.
  intros s. destruct (document_inv opts trace) as (H1 & _ & H3).
  split; [exact H3|]. split; [|exact H1].
  intros e. apply rejection_inv.
Qed.

Lemma result_is_a_document_witness :
  ∃ t, objects (processRequest default_options bound_trace) !! 0 = Some t
       ∧ container t = true.
Proof.
  destruct (result_is_a_document default_options bound_trace) as (H & _).
  exact (H 0 eq_refl).
Defined.

(** ** [plugin.ts]: what the hook hands on *)

(** X13. The [preValidation] hook lets a request that is not multipart
    through unchanged, whatever the engine state.  For a multipart request,
    once the hook has completed its outcome no longer depends on the events
    that follow: a body assigned when the map was bound stays assigned even
    if a limit, a disconnect or a tokenizer error comes later.  The body it
    assigns is an operations document that is an object or an array, and the
    error it throws is the recorded fatal error. *)
Theorem hook_outcome_is_final (opts : ProcessRequestOptions) (req : FastifyRequest)
    (trace : list event) :
  let s := processRequest opts trace in
  (mercuriusUploadMultipart req = false → preValidation req s = Continues req)
  ∧ (∀ later, preValidation req s ≠ Awaits →
       preValidation req (run opts s later) = preValidation req s)
  ∧ (∀ a, preValidation (contentTypeParser req) s
          = Continues {| mercuriusUploadMultipart := true; body := Some a |} →
       is_document s a)
  ∧ (∀ e, preValidation (contentTypeParser req) s = Fails e → exitError s = Some e).
Proof.
  intros s. split; [|split; [|split]].
  - intros Hflag. unfold preValidation. by rewrite Hflag.
  - intros later Hdone. unfold preValidation in *.
    destruct (mercuriusUploadMultipart req); simpl in *; [|done].
    rewrite run_result_kept; [done|]. by destruct (result s).
  - intros a Hhook. unfold preValidation in Hhook. simpl in Hhook.
    destruct (document_inv opts trace) as (_ & _ & H3). apply H3.
    fold s. destruct (result s); [discriminate | congruence | discriminate].
  - intros e Hhook. unfold preValidation in Hhook. simpl in Hhook.
    apply rejection_inv. fold s.
    destruct (result s); [discriminate | discriminate | congruence].
Qed.

Lemma hook_outcome_is_final_witness :
  preValidation (contentTypeParser {| mercuriusUploadMultipart := false; body := None |})
    (run default_options (processRequest default_options bound_trace)
       [FilesLimit; RequestClose false])
  = Continues {| mercuriusUploadMultipart := true; body := Some 0 |}.
Proof.
  destruct (hook_outcome_is_final default_options
              (contentTypeParser {| mercuriusUploadMultipart := false; body := None |})
              bound_trace) as (_ & H & _).
  rewrite H; [reflexivity | discriminate].
Defined.

(** ** A fulfilled result needs both fields, in order *)

(** The only event that turns a pending result into a fulfilled one is a
    [map] field that was not truncated and parsed to an object. *)
Lemma step_resolves opts ev s a :
  result s = Pending → result (handle opts ev s) = Fulfilled a →
  ∃ members, ev = Field "map" (Some (JObj members)) false ∧ operations s = Some a.
Proof.
  intros Hpend.
  assert (∀ e b x T, result x = Pending → result (exit e b x) = Fulfilled a → T) as Hexit.
  { intros e b x T Hx Hr. exfalso.
    destruct (exit_result_cases e b x) as [(_ & _ & H)|[_ H]]; rewrite H in Hr;
      rewrite Hx in Hr; discriminate. }
  assert (∀ T, result s = Fulfilled a → T) as Hsame by (intros T H; congruence).
  destruct ev; cbn [handle]; try (by apply Hsame).
  - unfold on_field. destruct valueTruncated; [by apply Hexit|].
    destruct (String.eqb fieldName "operations").
    { unfold on_operations. destruct value as [j|]; [|by apply Hexit].
      destruct (_ || _); [by apply Hexit | by apply Hsame]. }
    destruct (String.eqb fieldName "map") eqn:Hname; [|by apply Hsame].
    apply String.eqb_eq in Hname as ->.
    unfold on_map. destruct (operations_truthy s) as [a'|] eqn:Hops; [|by apply Hexit].
    destruct value as [parsedMap|]; [|by apply Hexit].
    destruct (_ || _) eqn:Hshape; [by apply Hexit|].
    destruct (exceeds _ _); [by apply Hexit|].
    destruct (bind_entries _ _) as [s0 r] eqn:Hbind.
    apply bind_entries_effect in Hbind as (_ & _ & _ & _ & _ & _ & _ & Hres & _).
    simpl in Hres.
    destruct r as [e|]; [apply Hexit; congruence|].
    simpl. rewrite Hres, Hpend. simpl. intros [= <-].
    destruct parsedMap; try discriminate. exists members.
    split; [done | by apply operations_truthy_is_Some].
  - unfold on_file. destruct (map s) as [m|]; [|by apply Hexit].
    destruct (Map_get fieldName m); by apply Hsame.
  - unfold on_filesLimit. destruct (filesLimitSeen (io s)); [by apply Hsame | by apply Hexit].
  - unfold on_finish. destruct (finishSeen (io s)); [by apply Hsame|].
    destruct (operations_truthy _); [|by apply Hexit].
    destruct (map (mark see_finish s)); [by apply Hsame | by apply Hexit].
  - unfold on_parser_error. by apply Hexit.
  - unfold on_response_close. destruct (responseCloseSeen (io s)); [by apply Hsame|].
    simpl. destruct (map s); by apply Hsame.
  - unfold on_request_close. destruct (requestCloseSeen (io s)); [by apply Hsame|].
    destruct readableEnded; simpl; [by apply Hsame | by apply Hexit].
Qed.

(** The only event that assigns [operations] without recording an error is
    an [operations] field that was not truncated and parsed to an object or
    an array. *)
Lemma step_assigns opts ev s :
  exitError (handle opts ev s) = None →
  operations (handle opts ev s) ≠ operations s →
  ∃ j, ev = Field "operations" (Some j) false ∧ json_is_container j = true.
Proof.
  destruct (is_field ev) eqn:Hf.
  2:{ destruct (nonfield_frame opts ev s Hf) as (_ & _ & Hop & _). intros _ H. by destruct H. }
  destruct ev; try discriminate. cbn [handle].
  assert (∀ e x, exitError (exit e false x) = None → False) as Hexit.
  { intros e x H. by apply exit_not_None in H. }
  unfold on_field. destruct valueTruncated; [by intros []%Hexit|].
  destruct (String.eqb fieldName "operations") eqn:Hname.
  { apply String.eqb_eq in Hname as ->.
    unfold on_operations. destruct value as [j|]; [|by intros []%Hexit].
    destruct (_ || _) eqn:Hj; [by intros []%Hexit|].
    intros _ _. exists j. split; [done|]. by destruct j. }
  destruct (String.eqb fieldName "map"); [|intros _ H; by destruct H].
  unfold on_map. destruct (operations_truthy s) as [a|]; [|by intros []%Hexit].
  destruct value as [parsedMap|]; [|by intros []%Hexit].
  destruct (_ || _); [by intros []%Hexit|].
  destruct (exceeds _ _); [by intros []%Hexit|].
  destruct (bind_entries _ _) as [s0 r] eqn:Hbind.
  apply bind_entries_effect in Hbind as (_ & _ & _ & _ & Hop & _). simpl in Hop.
  destruct r as [e|]; [by intros []%Hexit|].
  simpl. intros _ H. by destruct H.
Qed.

Lemma fields_in_order opts trace :
  let s := processRequest opts trace in
  (exitError s = None → is_Some (operations s) →
     ∃ before j after,
       trace = before ++ Field "operations" (Some j) false :: after
       ∧ json_is_container j = true)
  ∧ (is_Some (match result s with Fulfilled a => Some a | _ => None end) →
     ∃ before j between members after,
       trace = before ++ Field "operations" (Some j) false
                 :: between ++ Field "map" (Some (JObj members)) false :: after
       ∧ json_is_container j = true).
Proof.
  induction trace as [|ev trace IH] using rev_ind.
  - split; [by intros _ [? ?] | by intros [? ?]].
  - unfold processRequest in *. rewrite run_snoc. cbv zeta in *.
    set (s := run opts initial trace) in *.
    destruct IH as [IH1 IH2].
    split.
    + intros Hnone Hsome.
      destruct (handle_control opts ev s Hnone) as [Hnone0 _].
      destruct (decide (operations (handle opts ev s) = operations s)) as [Heq|Hne].
      * rewrite Heq in Hsome.
        destruct (IH1 Hnone0 Hsome) as (before & j & after & -> & Hj).
        exists before, j, (after ++ [ev]). split; [|done].
        by rewrite <- app_assoc.
      * destruct (step_assigns opts ev s Hnone Hne) as (j & -> & Hj).
        exists trace, j, []. done.
    + intros Hful.
      destruct (result (handle opts ev s)) as [|a|] eqn:Hr; try (by destruct Hful).
      destruct (result s) as [|a0|e0] eqn:Hr0.
      * destruct (step_resolves opts ev s a Hr0 Hr) as (members & -> & Hop).
        destruct (document_inv opts trace) as (Hset & _).
        unfold processRequest in Hset. cbv zeta in Hset. fold s in Hset.
        assert (exitError s = None) as Hnone0.
        { destruct (exitError s) eqn:E; [|done].
          assert (settled (result s) = true) as H by (apply Hset; eauto).
          rewrite Hr0 in H. discriminate. }
        destruct (IH1 Hnone0) as (before & j & after & -> & Hj); [eauto|].
        exists before, j, after, members, []. split; [|done].
        by rewrite <- app_assoc.
      * destruct IH2 as (before & j & between & members & after & -> & Hj); [eauto|].
        exists before, j, between, members, (after ++ [ev]). split; [|done].
        rewrite <- !app_assoc. simpl. by rewrite <- app_assoc.
      * rewrite handle_result_kept in Hr by (by rewrite Hr0). congruence.
Qed.

(** X14. A request whose overall result is fulfilled has delivered, in this
    order, an [operations] field that parsed to an object or an array and a
    [map] field that parsed to an object, neither of them truncated. *)
Theorem fulfilled_needs_both_fields (opts : ProcessRequestOptions) (trace : list event)
    (a : nat) :
  result (processRequest opts trace) = Fulfilled a →
  ∃ before j between members after,
    trace = before ++ Field "operations" (Some j) false
              :: between ++ Field "map" (Some (JObj members)) false :: after
    ∧ json_is_container j = true.
Proof.
  intros Hr. destruct (fields_in_order opts trace) as [_ H].
  apply H. rewrite Hr. eauto.
Qed.

Lemma fulfilled_needs_both_fields_witness :
  ∃ before j between members after,
    bound_trace ++ [FilesLimit]
    = before ++ Field "operations" (Some j) false
        :: between ++ Field "map" (Some (JObj members)) false :: after
    ∧ json_is_container j = true.
Proof.
  exact (fulfilled_needs_both_fields default_options (bound_trace ++ [FilesLimit]) 0 eq_refl).
Defined.

(** ** C2: every placeholder settles exactly once *)

Lemma handle_finishSeen_eq opts ev s :
  finishSeen (io (handle opts ev s))
  = match ev with Finish => true | _ => finishSeen (io s) end.
Proof.
  destruct ev; cbn [handle]; try done.
  - unfold on_field. destruct valueTruncated; [by rewrite exit_finishSeen|].
    destruct (String.eqb fieldName "operations").
    { unfold on_operations. destruct value as [j|]; [|by rewrite exit_finishSeen].
      destruct (_ || _); [by rewrite exit_finishSeen | done]. }
    destruct (String.eqb fieldName "map"); [|done].
    unfold on_map. destruct (operations_truthy s); [|by rewrite exit_finishSeen].
    destruct value as [parsedMap|]; [|by rewrite exit_finishSeen].
    destruct (_ || _); [by rewrite exit_finishSeen|].
    destruct (exceeds _ _); [by rewrite exit_finishSeen|].
    destruct (bind_entries _ _) as [s' r] eqn:Hbind.
    apply bind_entries_effect in Hbind as (_ & _ & _ & _ & _ & _ & _ & _ & Hio & _).
    destruct r; [rewrite exit_finishSeen|simpl]; by rewrite Hio.
  - unfold on_file. destruct (map s) as [m|]; [|by rewrite exit_finishSeen].
    by destruct (Map_get fieldName m).
  - unfold on_filesLimit. destruct (filesLimitSeen (io s)); [done|].
    by rewrite exit_finishSeen.
  - unfold on_finish. destruct (finishSeen (io s)) eqn:Hfin; [done|].
    destruct (operations_truthy _); [|by rewrite exit_finishSeen].
    destruct (map (mark see_finish s)); [done | by rewrite exit_finishSeen].
  - unfold on_parser_error. by rewrite exit_finishSeen.
  - unfold on_response_close. destruct (responseCloseSeen (io s)); [done|].
    simpl. by destruct (map s).
  - unfold on_request_close. destruct (requestCloseSeen (io s)); [done|].
    destruct readableEnded; simpl; [done | by rewrite exit_finishSeen].
Qed.





(** Once the [finish] listener has run, a fatal error is recorded or the
    table exists. *)
Lemma finish_inv opts trace :
  let s := processRequest opts trace in
  finishSeen (io s) = true → is_Some (exitError s) ∨ is_Some (map s).
Proof.
  induction trace as [|ev trace IH] using rev_ind; [discriminate|].
  unfold processRequest in *. rewrite run_snoc. cbv zeta in *.
  set (s := run opts initial trace) in *. intros Hfin.
  destruct (exitError (handle opts ev s)) as [e|] eqn:Hex; [left; eauto|].
  right. destruct (handle_control opts ev s Hex) as [Hnone Hmap].
  destruct (finishSeen (io s)) eqn:Hfs.
  - destruct IH as [[e He]|Hm]; [done | congruence |].
    destruct Hmap as [(_ & _ & -> & _)|[(-> & _)|(a & _ & H & _)]]; done.
  - rewrite handle_finishSeen_eq, Hfs in Hfin.
    destruct ev; try discriminate.
    clear Hmap IH. revert Hex. cbn [handle]. unfold on_finish. rewrite Hfs.
    destruct (operations_truthy (mark see_finish s));
      [|intros H; by apply exit_not_None in H].
    destruct (map (mark see_finish s)) eqn:Hm; [|intros H; by apply exit_not_None in H].
    intros _. simpl. simpl in Hm. rewrite Hm. eauto.
Qed.






(** ** Fields the engine does not know *)

Lemma field_count_app l1 l2 : field_count (l1 ++ l2) = field_count l1 + field_count l2.
Proof. unfold field_count. by rewrite List.filter_app, length_app. Qed.

Lemma field_count_cons ev l :
  field_count (ev :: l) = (if is_field ev then 1 else 0) + field_count l.
Proof. unfold field_count. simpl. by destruct (is_field ev). Qed.

Lemma field_count_elem ev l : ev ∈ l → is_field ev = true → 1 ≤ field_count l.
Proof.
  intros Hin Hf. induction l as [|x l IH]; [by apply elem_of_nil in Hin|].
  rewrite field_count_cons. apply elem_of_cons in Hin as [<-|Hin].
  - rewrite Hf. lia.
  - specialize (IH Hin). lia.
Qed.

Lemma finish_seen opts trace :
  Finish ∈ trace → finishSeen (io (processRequest opts trace)) = true.
Proof.
  induction trace as [|ev trace IH] using rev_ind; [intros H; by apply elem_of_nil in H|].
  unfold processRequest in *. rewrite run_snoc, handle_finishSeen_eq.
  intros Hin. apply elem_of_app in Hin as [Hin|Hin].
  - rewrite (IH Hin). by destruct ev.
  - apply list_elem_of_singleton in Hin as <-. done.
Qed.

(** X3. The tokenizer is configured to deliver at most two fields, so a
    field whose name is neither [operations] nor [map] takes the place of
    one of them: the overall result of a request that carries such a field
    is never fulfilled, and once the form has finished it is rejected, with
    the recorded fatal error. *)
Theorem unrecognized_field_blocks_success (opts : ProcessRequestOptions)
    (trace : list event) (fieldName : string) (value : option json)
    (valueTruncated : bool) :
  field_count trace ≤ 2 →
  Field fieldName value valueTruncated ∈ trace →
  fieldName ≠ "operations" →
  fieldName ≠ "map" →
  let s := processRequest opts trace in
  (∀ a, result s ≠ Fulfilled a)
  ∧ (Finish ∈ trace → ∃ e, result s = Rejected e ∧ exitError s = Some e).
Proof.
  intros Hn Hin Hops Hmap s.
  assert (∀ a, result s ≠ Fulfilled a) as Hnever.
  { intros a Hr. destruct (fields_in_order opts trace) as [_ H].
    destruct H as (before & j & between & members & after & Heq & _).
    { fold s. rewrite Hr. eauto. }
    rewrite Heq in Hin, Hn.
    rewrite field_count_app, field_count_cons, field_count_app, field_count_cons in Hn.
    simpl in Hn.
    apply elem_of_app in Hin as [Hin|Hin].
    { apply field_count_elem in Hin; [lia | done]. }
    apply elem_of_cons in Hin as [Hin|Hin]; [congruence|].
    apply elem_of_app in Hin as [Hin|Hin].
    { apply field_count_elem in Hin; [lia | done]. }
    apply elem_of_cons in Hin as [Hin|Hin]; [congruence|].
    apply field_count_elem in Hin; [lia | done]. }
  split; [exact Hnever|].
  intros Hfinish.
  assert (settled (result s) = true) as Hset.
  { destruct (document_inv opts trace) as (Hsettled & _). fold s in Hsettled.
    destruct (request_inv_processRequest opts trace) as (_ & _ & _ & I4 & _). fold s in I4.
    destruct (exitError s) as [e|] eqn:Hex; [apply Hsettled; eauto|].
    pose proof (finish_inv opts trace (finish_seen opts trace Hfinish)) as Hfi.
    cbv zeta in Hfi. fold s in Hfi. destruct Hfi as [[e He]|Hm]; [congruence|].
    destruct (I4 eq_refl Hm) as [a Ha]. by rewrite Ha. }
  destruct (result s) as [|a|e] eqn:Hr; [discriminate | by destruct (Hnever a) |].
  exists e. split; [done|]. by apply rejection_inv.
Qed.

Lemma unrecognized_field_blocks_success_witness :
  ∃ e, result (processRequest default_options
                 [Field "operations" (Some sample_operations) false;
                  Field "extensions" (Some (JObj [])) false;
                  Finish])
       = Rejected e
       ∧ e = createError 400 MissingMap.
Proof.
  destruct (unrecognized_field_blocks_success default_options
              [Field "operations" (Some sample_operations) false;
               Field "extensions" (Some (JObj [])) false;
               Finish]
              "extensions" (Some (JObj [])) false) as [_ H].
  - vm_compute. lia.
  - apply elem_of_cons. right. apply list_elem_of_here.
  - discriminate.
  - discriminate.
  - destruct H as (e & Hr & He); [apply elem_of_cons; right; apply elem_of_cons; right;
                                   apply list_elem_of_here|].
    exists e. split; [exact Hr|]. vm_compute in He. injection He as <-. reflexivity.
Defined.
